(** * Lightmetrica: vector math, bounds and the BVH accelerator

    A shallow embedding of
      - include/lightmetrica/math.h   (TVec3, TVec4, TMat3, operators, Math::Dot ...)
      - include/lightmetrica/bound.h  (Bound, Math::Union)
      - src/liblightmetrica/accel/accel_bvh.cpp (Accel_BVH::Build, ::Intersect)

    The C++ templates are generic in the value type [T]; the embedding is
    generic in [T] in the same way, through the class [Arith] (the arithmetic
    the templates use) and the class [Ordered] (what bound.h and accel_bvh.cpp
    use of Math::Min, Math::Max, Math::Inf and Math::Eps).  IEEE binary32 and
    binary64 (the C++ [float] and [double]) are instances of [Arith] built on
    the Standard Library's executable [SpecFloat]. *)

From Stdlib Require Import ZArith List Lia Bool Permutation.
From Stdlib Require Import Floats.SpecFloat.
Import ListNotations.
Local Open Scope Z_scope.

Set Implicit Arguments.

(* ===================================================================== *)
(** * The value type [T] of the templates *)

(** What [template <typename T>] code in math.h uses of [T]:
    the literals [VT(0)], [1], and [+ - * /], unary minus, [std::sqrt]. *)
Class Arith (T : Type) : Type := {
  zero  : T;
  one   : T;
  fadd  : T -> T -> T;
  fsub  : T -> T -> T;
  fmul  : T -> T -> T;
  fdiv  : T -> T -> T;
  fneg  : T -> T;
  fsqrt : T -> T
}.

(** Exactness of the addition of [T]: what holds of integers and rationals
    and fails of rounded floating point (and 0 * 0 = 0, which holds of
    both). *)
Class ExactAdd (T : Type) `{Arith T} : Prop := {
  fadd_comm  : forall a b : T, fadd a b = fadd b a;
  fadd_assoc : forall a b c : T, fadd (fadd a b) c = fadd a (fadd b c);
  fadd_0_r   : forall a : T, fadd a zero = a;
  fmul_0_0   : fmul zero zero = zero :> T
}.
Arguments ExactAdd T {_}.

(** Modelled from the spec: [Math::Inf], [Math::Eps], and the scalar minimum
    and maximum behind [Math::Min] and [Math::Max], which bound.h and
    accel_bvh.cpp call and the math.h of this revision does not declare.
    [fle] is the order of the scalars, [Inf] is "+infinity", [Eps] the
    "small fixed epsilon". *)
Class Ordered (T : Type) : Type := {
  fle  : T -> T -> Prop;
  fmin : T -> T -> T;
  fmax : T -> T -> T;
  Inf  : T;
  Eps  : T
}.

(** The order laws of the scalars (NaN-free values): [fle] is a partial
    order, [fmin] and [fmax] are its greatest lower and least upper bounds,
    [Inf] is the greatest and [-Inf] the least element. *)
Class OrderLaws (T : Type) `{Arith T} `{Ordered T} : Prop := {
  fle_refl    : forall a : T, fle a a;
  fle_trans   : forall a b c : T, fle a b -> fle b c -> fle a c;
  fle_antisym : forall a b : T, fle a b -> fle b a -> a = b;
  fmin_l      : forall a b : T, fle (fmin a b) a;
  fmin_r      : forall a b : T, fle (fmin a b) b;
  fmin_glb    : forall a b c : T, fle c a -> fle c b -> fle c (fmin a b);
  fmax_l      : forall a b : T, fle a (fmax a b);
  fmax_r      : forall a b : T, fle b (fmax a b);
  fmax_lub    : forall a b c : T, fle a c -> fle b c -> fle (fmax a b) c;
  fle_Inf     : forall a : T, fle a Inf;
  fle_NegInf  : forall a : T, fle (fneg Inf) a
}.
Arguments OrderLaws T {_ _}.

(** The same laws as far as the enclosure of boxes needs them, and only
    of the scalars that satisfy [ok]: in floating point, of the values that
    are not NaN. [fle] is reflexive and transitive on them, [fmin] and
    [fmax] of two of them are one of them again, below and above both. *)
Class OrderOn (T : Type) `{Arith T} `{Ordered T} (ok : T -> Prop) : Prop := {
  ok_Inf     : ok Inf;
  ok_NegInf  : ok (fneg Inf);
  ok_fmin    : forall a b : T, ok a -> ok b -> ok (fmin a b);
  ok_fmax    : forall a b : T, ok a -> ok b -> ok (fmax a b);
  on_refl    : forall a : T, ok a -> fle a a;
  on_trans   : forall a b c : T, ok a -> ok b -> ok c -> fle a b -> fle b c -> fle a c;
  on_fmin_l  : forall a b : T, ok a -> ok b -> fle (fmin a b) a;
  on_fmin_r  : forall a b : T, ok a -> ok b -> fle (fmin a b) b;
  on_fmax_l  : forall a b : T, ok a -> ok b -> fle a (fmax a b);
  on_fmax_r  : forall a b : T, ok a -> ok b -> fle b (fmax a b)
}.
Arguments OrderOn T {_ _} ok.

(** Where the order laws hold of every scalar, they hold of the scalars
    that satisfy any [ok] that is closed under [fmin] and [fmax]; here of
    all. *)
#[export] Instance OrderOn_all (T : Type) `{OrderLaws T} : OrderOn T (fun _ => True).
Proof.
  constructor; intros; first
    [ exact I | apply fle_refl | eapply fle_trans; eassumption
    | apply fmin_l | apply fmin_r | apply fmax_l | apply fmax_r ].
Qed.

(** What the first Union into a default-constructed box needs of the
    components the box starts from, the two infinities and the stray
    values, which satisfy [start]: the minimum of such a value [g] and a
    scalar [a] of the order is a scalar of the order, not above [a], and
    likewise the maximum. Where [Math::Min(g, a)] is [a] whenever [g < a]
    is false, every [g] is such a value, NaN too; where it is [g] whenever
    [a < g] is false, the values that are not NaN are. *)
Class Absorbs (T : Type) `{Arith T} `{Ordered T} (ok start : T -> Prop) : Prop := {
  start_Inf    : start Inf;
  start_NegInf : start (fneg Inf);
  start_fmin   : forall g a : T, start g -> ok a -> ok (fmin g a) /\ fle (fmin g a) a;
  start_fmax   : forall g a : T, start g -> ok a -> ok (fmax g a) /\ fle a (fmax g a)
}.
Arguments Absorbs T {_ _} ok start.

(** The scalars of the order are such start values. *)
#[export] Instance Absorbs_ok (T : Type) `{Arith T} `{Ordered T} (ok : T -> Prop)
  `{!OrderOn T ok} : Absorbs T ok ok.
Proof.
  constructor.
  - apply ok_Inf.
  - apply ok_NegInf.
  - intros g a Hg Ha. split; [now apply ok_fmin | now apply on_fmin_r].
  - intros g a Hg Ha. split; [now apply ok_fmax | now apply on_fmax_r].
Qed.

(** What the reads past the end of a one-element initializer list yield.
    [Vec3 min{ Math::Inf() }] and [Vec3 max{ -Math::Inf() }] (bound.h, lines
    39-40) are list-initialisations: they select
    [TVec3(std::initializer_list<VT> l)] (math.h, lines 222, 247, 273), which
    assigns [x = l.begin()[0]; y = l.begin()[1]; z = l.begin()[2]] from a
    list of one element. [x] is that element; the reads of [l.begin()[1]]
    and [l.begin()[2]] go past the end of the list (see [TVec3_of_list]
    below, where such a read is a fault). A program built from this code
    goes on with whatever these reads yield: [y] and [z] of both corners
    are indeterminate. A [Stray] holds the four values that one default
    construction of a [Bound] picks up. *)
Record Stray (T : Type) : Type := mkStray {
  stray_min_y : T;
  stray_min_z : T;
  stray_max_y : T;
  stray_max_z : T
}.

(** The stray values of a run: [bound_stray k] are those of the
    [Bound bound;] of the face whose bound becomes [bounds_[k]]
    (accel_bvh.cpp, line 102), [node_stray idx] those of the [new BVHNode]
    that becomes [nodes_[idx]] (line 122). Nothing is known of them: they
    are a parameter of everything below that mentions Build, and a
    statement either holds for every choice of them or says what it
    requires of them. Where two runs are compared, they are compared under
    the same stray values. *)
Class Indeterminate (T : Type) : Type := {
  bound_stray : Z -> Stray T;
  node_stray  : Z -> Stray T
}.

(* ===================================================================== *)
(** * Instances of [T] *)

(** ** IEEE 754 binary32 ([float]) and binary64 ([double]) *)

Definition float  : Type := spec_float.
Definition double : Type := spec_float.
#[global] Typeclasses Opaque float double.

#[export] Instance Arith_float : Arith float := {|
  zero  := S754_zero false;
  one   := SFone 24 128;
  fadd  := SFadd 24 128;
  fsub  := SFsub 24 128;
  fmul  := SFmul 24 128;
  fdiv  := SFdiv 24 128;
  fneg  := SFopp;
  fsqrt := SFsqrt 24 128
|}.

#[export] Instance Arith_double : Arith double := {|
  zero  := S754_zero false;
  one   := SFone 53 1024;
  fadd  := SFadd 53 1024;
  fsub  := SFsub 53 1024;
  fmul  := SFmul 53 1024;
  fdiv  := SFdiv 53 1024;
  fneg  := SFopp;
  fsqrt := SFsqrt 53 1024
|}.

(** [float(n)] for an integer literal [n]. *)
Definition float_of_Z (n : Z) : float := binary_normalize 24 128 n 0 false.

(** [double(n)] for an integer literal [n]. *)
Definition double_of_Z (n : Z) : double := binary_normalize 53 1024 n 0 false.

(** Modelled from the spec: the order of [float] and the scalar minimum and
    maximum behind [Math::Min] and [Math::Max], as the comparison
    expressions [a < b ? a : b] and [a > b ? a : b]; [Math::Inf] is the
    infinity of the type; for [Math::Eps], whose value the sources at hand
    do not give, 2^-13 stands. With a NaN for [a] the result is [b]. *)
#[export] Instance Ordered_float : Ordered float := {|
  fle  := fun a b => SFleb a b = true;
  fmin := fun a b => if SFltb a b then a else b;
  fmax := fun a b => if SFltb b a then a else b;
  Inf  := S754_infinity false;
  Eps  := S754_finite false 8388608 (-36)
|}.

(** Modelled from the spec: the same with the minimum and maximum as
    [std::min] and [std::max] have them, [b < a ? b : a] and
    [a < b ? b : a]. With a NaN for [a] the result is NaN. *)
Definition Ordered_float_std : Ordered float := {|
  fle  := fun a b => SFleb a b = true;
  fmin := fun a b => if SFltb b a then b else a;
  fmax := fun a b => if SFltb a b then b else a;
  Inf  := S754_infinity false;
  Eps  := S754_finite false 8388608 (-36)
|}.

(** A value of the type that is not NaN. *)
Definition nan_free (f : spec_float) : bool :=
  match f with
  | S754_nan => false
  | _ => true
  end.

(** The stray values of the sample runs in binary32: every one of them
    NaN. *)
#[export] Instance Indeterminate_float : Indeterminate float := {|
  bound_stray := fun _ => mkStray S754_nan S754_nan S754_nan S754_nan;
  node_stray  := fun _ => mkStray S754_nan S754_nan S754_nan S754_nan
|}.

(** ** Exact scalars: the integers extended by the two infinities *)

Inductive ExtZ : Type :=
| NegInfty
| Fin (n : Z)
| PosInfty.

Module ExtZ.

Definition opp (a : ExtZ) : ExtZ :=
  match a with
  | NegInfty => PosInfty
  | Fin n => Fin (- n)
  | PosInfty => NegInfty
  end.

Definition add (a b : ExtZ) : ExtZ :=
  match a, b with
  | Fin n, Fin m => Fin (n + m)
  | Fin _, c => c
  | c, Fin _ => c
  | PosInfty, PosInfty => PosInfty
  | NegInfty, NegInfty => NegInfty
  | _, _ => Fin 0
  end.

Definition sub (a b : ExtZ) : ExtZ := add a (opp b).

Definition mul (a b : ExtZ) : ExtZ :=
  match a, b with
  | Fin n, Fin m => Fin (n * m)
  | _, _ => Fin 0
  end.

Definition div (a b : ExtZ) : ExtZ :=
  match a, b with
  | Fin n, Fin m => Fin (n ÷ m)
  | _, _ => Fin 0
  end.

Definition sqrt (a : ExtZ) : ExtZ :=
  match a with
  | Fin n => Fin (Z.sqrt n)
  | c => c
  end.

Definition leb (a b : ExtZ) : bool :=
  match a, b with
  | NegInfty, _ => true
  | _, PosInfty => true
  | Fin n, Fin m => n <=? m
  | _, _ => false
  end.

Definition le (a b : ExtZ) : Prop := leb a b = true.

Definition min (a b : ExtZ) : ExtZ := if leb a b then a else b.
Definition max (a b : ExtZ) : ExtZ := if leb a b then b else a.

End ExtZ.

#[export] Instance Arith_ExtZ : Arith ExtZ := {|
  zero  := Fin 0;
  one   := Fin 1;
  fadd  := ExtZ.add;
  fsub  := ExtZ.sub;
  fmul  := ExtZ.mul;
  fdiv  := ExtZ.div;
  fneg  := ExtZ.opp;
  fsqrt := ExtZ.sqrt
|}.

#[export] Instance Ordered_ExtZ : Ordered ExtZ := {|
  fle  := ExtZ.le;
  fmin := ExtZ.min;
  fmax := ExtZ.max;
  Inf  := PosInfty;
  Eps  := Fin 1
|}.

(** The stray values of the sample runs over the exact scalars: every one
    of them 0. *)
#[export] Instance Indeterminate_ExtZ : Indeterminate ExtZ := {|
  bound_stray := fun _ => mkStray (Fin 0) (Fin 0) (Fin 0) (Fin 0);
  node_stray  := fun _ => mkStray (Fin 0) (Fin 0) (Fin 0) (Fin 0)
|}.

(** ** Exact scalars without infinities: [Z] (the templates at an integer [T]) *)

#[export] Instance Arith_Z : Arith Z := {|
  zero  := 0;
  one   := 1;
  fadd  := Z.add;
  fsub  := Z.sub;
  fmul  := Z.mul;
  fdiv  := Z.quot;
  fneg  := Z.opp;
  fsqrt := Z.sqrt
|}.

(* ===================================================================== *)
(** * math.h: vectors *)

(** [TVec3<T, SIMD::None>]: [struct { VT x, y, z; }]. *)
Record TVec3 (T : Type) : Type := Vec3 { x : T; y : T; z : T }.

(** [TVec4<T, SIMD::None>]: [struct { VT x, y, z, w; }]. *)
Record TVec4 (T : Type) : Type := Vec4 { x4 : T; y4 : T; z4 : T; w4 : T }.

(** A four-lane register: [__m128] (four [float]) and [__m256d] (four
    [double]); [e0] is the lowest lane. *)
Record SIMDT (T : Type) : Type := Lanes { e0 : T; e1 : T; e2 : T; e3 : T }.

(** [TVec3<float, SIMD::SSE>] and [TVec3<double, SIMD::AVX>]:
    [union { SIMDT v_; struct { VT x, y, z, _; }; }]. *)
Record TVec3_SIMD (T : Type) : Type := Vec3_SIMD { v3_ : SIMDT T }.

(** [TVec4<float, SIMD::SSE>] and [TVec4<double, SIMD::AVX>]. *)
Record TVec4_SIMD (T : Type) : Type := Vec4_SIMD { v4_ : SIMDT T }.

(** [TMat3<T, Opt>]: [VecT v_[3]], the three columns. *)
Record TMat3 (T : Type) : Type := Mat3 { c0 : TVec3 T; c1 : TVec3 T; c2 : TVec3 T }.

(** [TMat4<T, Opt>]: [VecT v_[4]], the four columns. *)
Record TMat4 (T : Type) : Type :=
  Mat4 { m0 : TVec4 T; m1 : TVec4 T; m2 : TVec4 T; m3 : TVec4 T }.

Section Vectors.
Context {T : Type} `{Arith T}.

(** *** Constructors *)

(** [TVec3() : x(VT(0)), y(VT(0)), z(VT(0))]. *)
Definition TVec3_default : TVec3 T := Vec3 zero zero zero.

(** [operator[](int i)] is [(&x)[i]]; outside 0..2 the access leaves the
    object, here it yields [zero]. *)
Definition vec3_at (v : TVec3 T) (i : Z) : T :=
  if i =? 0 then x v else if i =? 1 then y v else if i =? 2 then z v else zero.

Definition vec3_set (v : TVec3 T) (i : Z) (a : T) : TVec3 T :=
  if i =? 0 then Vec3 a (y v) (z v)
  else if i =? 1 then Vec3 (x v) a (z v)
  else if i =? 2 then Vec3 (x v) (y v) a
  else v.

(** The SIMD views of a vector: the union members [x, y, z, _]. *)
Definition sx (v : TVec3_SIMD T) : T := e0 (v3_ v).
Definition sy (v : TVec3_SIMD T) : T := e1 (v3_ v).
Definition sz (v : TVec3_SIMD T) : T := e2 (v3_ v).

(** The per-component reading of a SIMD vector. *)
Definition scalar3 (v : TVec3_SIMD T) : TVec3 T := Vec3 (sx v) (sy v) (sz v).
Definition scalar4 (v : TVec4_SIMD T) : TVec4 T :=
  Vec4 (e0 (v4_ v)) (e1 (v4_ v)) (e2 (v4_ v)) (e3 (v4_ v)).

(** *** Intrinsics (lane-wise, on the arithmetic of [T]) *)

(** [_mm_set_ps(e3, e2, e1, e0)], [_mm256_set_pd(e3, e2, e1, e0)]. *)
Definition mm_set (a3 a2 a1 a0 : T) : SIMDT T := Lanes a0 a1 a2 a3.

Definition lanewise (f : T -> T -> T) (a b : SIMDT T) : SIMDT T :=
  Lanes (f (e0 a) (e0 b)) (f (e1 a) (e1 b)) (f (e2 a) (e2 b)) (f (e3 a) (e3 b)).

Definition mm_add : SIMDT T -> SIMDT T -> SIMDT T := lanewise fadd.
Definition mm_sub : SIMDT T -> SIMDT T -> SIMDT T := lanewise fsub.
Definition mm_mul : SIMDT T -> SIMDT T -> SIMDT T := lanewise fmul.
Definition mm_div : SIMDT T -> SIMDT T -> SIMDT T := lanewise fdiv.

(** [_mm_set1_ps(s)], [_mm256_set1_pd(s)]. *)
Definition mm_set1 (s : T) : SIMDT T := Lanes s s s s.

(** [_mm256_setzero_pd()]. *)
Definition mm_setzero : SIMDT T := Lanes zero zero zero zero.

(** [_mm_dp_ps(a, b, imm8)]: the products of the lanes selected by bits
    4..7 of [imm8] (the others are +0.0), summed as
    [(p0 + p1) + (p2 + p3)], stored in the lanes selected by bits 0..3. *)
Definition mm_dp (a b : SIMDT T) (imm8 : Z) : SIMDT T :=
  let p0 := if Z.testbit imm8 4 then fmul (e0 a) (e0 b) else zero in
  let p1 := if Z.testbit imm8 5 then fmul (e1 a) (e1 b) else zero in
  let p2 := if Z.testbit imm8 6 then fmul (e2 a) (e2 b) else zero in
  let p3 := if Z.testbit imm8 7 then fmul (e3 a) (e3 b) else zero in
  let s := fadd (fadd p0 p1) (fadd p2 p3) in
  Lanes (if Z.testbit imm8 0 then s else zero)
        (if Z.testbit imm8 1 then s else zero)
        (if Z.testbit imm8 2 then s else zero)
        (if Z.testbit imm8 3 then s else zero).

(** [_mm_cvtss_f32(a)]: the lowest lane. *)
Definition mm_cvtss (a : SIMDT T) : T := e0 a.

(** [_mm_sqrt_ss(a)]: the square root of the lowest lane, the others kept. *)
Definition mm_sqrt_ss (a : SIMDT T) : SIMDT T :=
  Lanes (fsqrt (e0 a)) (e1 a) (e2 a) (e3 a).

(** [_mm256_blend_pd(a, b, imm8)]: lane [i] from [b] where bit [i] is set. *)
Definition mm256_blend (a b : SIMDT T) (imm8 : Z) : SIMDT T :=
  Lanes (if Z.testbit imm8 0 then e0 b else e0 a)
        (if Z.testbit imm8 1 then e1 b else e1 a)
        (if Z.testbit imm8 2 then e2 b else e2 a)
        (if Z.testbit imm8 3 then e3 b else e3 a).

(** [_mm256_hadd_pd(a, b)] = (a0 + a1, b0 + b1, a2 + a3, b2 + b3). *)
Definition mm256_hadd (a b : SIMDT T) : SIMDT T :=
  Lanes (fadd (e0 a) (e1 a)) (fadd (e0 b) (e1 b))
        (fadd (e2 a) (e3 a)) (fadd (e2 b) (e3 b)).

(** [_mm256_extractf128_pd(a, 1)]: the upper half; a [__m128d] is a pair,
    lowest lane first. *)
Definition mm256_extractf128_hi (a : SIMDT T) : T * T := (e2 a, e3 a).

(** [_mm256_castpd256_pd128(a)]: the lower half. *)
Definition mm256_castpd256_pd128 (a : SIMDT T) : T * T := (e0 a, e1 a).

(** [_mm_add_pd]. *)
Definition mm_add_pd (a b : T * T) : T * T :=
  (fadd (fst a) (fst b), fadd (snd a) (snd b)).

(** [_mm_cvtsd_f64]. *)
Definition mm_cvtsd (a : T * T) : T := fst a.

(** [TVec3(x, y, z) : v_(_mm_set_ps(1.0f, z, y, x))]. *)
Definition Vec3_SIMD_of (a b c : T) : TVec3_SIMD T := Vec3_SIMD (mm_set one c b a).

(** [TVec4(x, y, z, w) : v_(_mm_set_ps(w, z, y, x))]. *)
Definition Vec4_SIMD_of (a b c d : T) : TVec4_SIMD T := Vec4_SIMD (mm_set d c b a).

(** *** operator+ - * / of [SIMD::None] vectors:
    [for (i = 0; i < N; i++) result[i] = v1[i] op v2[i]] *)

Definition vec3_map2 (f : T -> T -> T) (v1 v2 : TVec3 T) : TVec3 T :=
  Vec3 (f (x v1) (x v2)) (f (y v1) (y v2)) (f (z v1) (z v2)).

Definition vec4_map2 (f : T -> T -> T) (v1 v2 : TVec4 T) : TVec4 T :=
  Vec4 (f (x4 v1) (x4 v2)) (f (y4 v1) (y4 v2)) (f (z4 v1) (z4 v2)) (f (w4 v1) (w4 v2)).

Definition vec3_add : TVec3 T -> TVec3 T -> TVec3 T := vec3_map2 fadd.
Definition vec3_sub : TVec3 T -> TVec3 T -> TVec3 T := vec3_map2 fsub.
Definition vec3_mul : TVec3 T -> TVec3 T -> TVec3 T := vec3_map2 fmul.
Definition vec3_div : TVec3 T -> TVec3 T -> TVec3 T := vec3_map2 fdiv.

Definition vec4_add : TVec4 T -> TVec4 T -> TVec4 T := vec4_map2 fadd.
Definition vec4_sub : TVec4 T -> TVec4 T -> TVec4 T := vec4_map2 fsub.
Definition vec4_mul : TVec4 T -> TVec4 T -> TVec4 T := vec4_map2 fmul.
Definition vec4_div : TVec4 T -> TVec4 T -> TVec4 T := vec4_map2 fdiv.

(** [operator*(v, s)]. *)
Definition vec3_scale (v : TVec3 T) (s : T) : TVec3 T :=
  Vec3 (fmul (x v) s) (fmul (y v) s) (fmul (z v) s).

(** *** operator+ - * / of the SSE and AVX vectors *)

Definition vec3_add_SIMD (v1 v2 : TVec3_SIMD T) := Vec3_SIMD (mm_add (v3_ v1) (v3_ v2)).
Definition vec3_sub_SIMD (v1 v2 : TVec3_SIMD T) := Vec3_SIMD (mm_sub (v3_ v1) (v3_ v2)).
Definition vec3_mul_SIMD (v1 v2 : TVec3_SIMD T) := Vec3_SIMD (mm_mul (v3_ v1) (v3_ v2)).
Definition vec3_div_SIMD (v1 v2 : TVec3_SIMD T) := Vec3_SIMD (mm_div (v3_ v1) (v3_ v2)).

Definition vec4_add_SIMD (v1 v2 : TVec4_SIMD T) := Vec4_SIMD (mm_add (v4_ v1) (v4_ v2)).
Definition vec4_sub_SIMD (v1 v2 : TVec4_SIMD T) := Vec4_SIMD (mm_sub (v4_ v1) (v4_ v2)).
Definition vec4_mul_SIMD (v1 v2 : TVec4_SIMD T) := Vec4_SIMD (mm_mul (v4_ v1) (v4_ v2)).
Definition vec4_div_SIMD (v1 v2 : TVec4_SIMD T) := Vec4_SIMD (mm_div (v4_ v1) (v4_ v2)).

Definition vec3_scale_SIMD (v : TVec3_SIMD T) (s : T) :=
  Vec3_SIMD (mm_mul (v3_ v) (mm_set1 s)).

(** *** Matrices *)

(** [TMat3(std::initializer_list<VT> l)]:
    [for i, j < NC: v_[i][j] = l.begin()[i*NC+j]], on default-constructed
    columns. *)
Definition init_col (l : list T) (i : Z) : TVec3 T :=
  let at_ k := nth (Z.to_nat (i * 3 + k)) l zero in
  vec3_set (vec3_set (vec3_set TVec3_default 0 (at_ 0)) 1 (at_ 1)) 2 (at_ 2).

Definition TMat3_of_list (l : list T) : TMat3 T :=
  Mat3 (init_col l 0) (init_col l 1) (init_col l 2).

(** [operator[](int i)] of a matrix: column [i]. *)
Definition mat3_col (m : TMat3 T) (i : Z) : TVec3 T :=
  if i =? 0 then c0 m else if i =? 1 then c1 m else c2 m.

(** [operator*(const TMat3&, const TVec3&)]. *)
Definition mat3_mul_vec (m : TMat3 T) (v : TVec3 T) : TVec3 T :=
  let e i j := vec3_at (mat3_col m i) j in
  Vec3
    (fadd (fadd (fmul (e 0 0) (x v)) (fmul (e 1 0) (y v))) (fmul (e 2 0) (z v)))
    (fadd (fadd (fmul (e 0 1) (x v)) (fmul (e 1 1) (y v))) (fmul (e 2 1) (z v)))
    (fadd (fadd (fmul (e 0 2) (x v)) (fmul (e 1 2) (y v))) (fmul (e 2 2) (z v))).

(** [operator*(const TMat3&, const TMat3&)]. *)
Definition mat3_mul (a b : TMat3 T) : TMat3 T :=
  Mat3 (mat3_mul_vec a (mat3_col b 0))
       (mat3_mul_vec a (mat3_col b 1))
       (mat3_mul_vec a (mat3_col b 2)).

(** [operator*(const TMat4&, const TVec4&)]. *)
Definition mat4_mul_vec (m : TMat4 T) (v : TVec4 T) : TVec4 T :=
  let row (f : TVec4 T -> T) :=
    fadd (fadd (fadd (fmul (f (m0 m)) (x4 v)) (fmul (f (m1 m)) (y4 v)))
               (fmul (f (m2 m)) (z4 v)))
         (fmul (f (m3 m)) (w4 v)) in
  Vec4 (row (@x4 T)) (row (@y4 T)) (row (@z4 T)) (row (@w4 T)).

(** [operator*(const TMat4<float, SIMD::SSE>&, const TVec4<float, SIMD::SSE>&)]
    (and the AVX one, of the same shape):
    [(m[0] * v.xxxx + m[1] * v.yyyy) + (m[2] * v.zzzz + m[3] * v.wwww)]. *)
Definition simd4 (v : TVec4 T) : SIMDT T := mm_set (w4 v) (z4 v) (y4 v) (x4 v).

Definition mat4_mul_vec_SIMD (m : TMat4 T) (v : TVec4 T) : TVec4 T :=
  scalar4 (Vec4_SIMD
    (mm_add
      (mm_add (mm_mul (simd4 (m0 m)) (mm_set1 (x4 v)))
              (mm_mul (simd4 (m1 m)) (mm_set1 (y4 v))))
      (mm_add (mm_mul (simd4 (m2 m)) (mm_set1 (z4 v)))
              (mm_mul (simd4 (m3 m)) (mm_set1 (w4 v)))))).

End Vectors.

(** [static auto Identity() -> MatT { return MatT{ 1,0,0, 0,1,0, 0,1,0 }; }]
    of [TMat3], and of [TMat4]
    [MatT{ 1,0,0,0, 0,1,0,0, 0,0,1,0, 0,0,0,1 }]. *)
Module TMat3.
Definition Identity {T : Type} `{Arith T} : TMat3 T :=
  TMat3_of_list [one; zero; zero;  zero; one; zero;  zero; one; zero].
End TMat3.

Module TMat4.
Definition Identity {T : Type} `{Arith T} : TMat4 T :=
  Mat4 (Vec4 one zero zero zero) (Vec4 zero one zero zero)
       (Vec4 zero zero one zero) (Vec4 zero zero zero one).
End TMat4.

(* ===================================================================== *)
(** * bound.h *)

(** [struct Bound { Vec3 min{ Math::Inf() }; Vec3 max{ -Math::Inf() }; }]. *)
Record Bound (T : Type) : Type := mkBound { min : TVec3 T; max : TVec3 T }.

(** Modelled from the spec: the one-scalar constructor behind the
    parenthesised [Vec3(Math::Eps())] of accel_bvh.cpp (lines 106-107),
    which the math.h of this revision does not declare; all three
    components are [s]. (The braces of [Vec3 min{ Math::Inf() }] in bound.h
    select another constructor, which math.h does declare: see
    [Bound_default].) *)
Definition Vec3_splat {T : Type} (s : T) : TVec3 T := Vec3 s s s.

(** The default member initialisers of [Bound], as the code runs them:
    [min{ Math::Inf() }] and [max{ -Math::Inf() }] through
    [TVec3(std::initializer_list<VT>)], so that only [x] of either corner
    is set from the list and [y] and [z] are the stray values [g]. *)
Definition Bound_default {T : Type} `{Arith T} `{Ordered T} (g : Stray T)
  : Bound T :=
  mkBound (Vec3 Inf (stray_min_y g) (stray_min_z g))
          (Vec3 (fneg Inf) (stray_max_y g) (stray_max_z g)).

(** The empty box that the spec describes as the default-constructed
    bound ("min = +infinity, max = -infinity"), to compare [Bound_default]
    with: the identity of Union. *)
Definition spec_empty_bound {T : Type} `{Arith T} `{Ordered T} : Bound T :=
  mkBound (Vec3_splat Inf) (Vec3_splat (fneg Inf)).

(* ===================================================================== *)
(** * math.h and bound.h: namespace Math *)
Module Math.
Section MathFunctions.
Context {T : Type} `{Arith T}.

(** [Math::Sqrt]. *)
Definition Sqrt (v : T) : T := fsqrt v.

(** [Dot(const TVec3<T, Opt>&, const TVec3<T, Opt>&)], the generic one. *)
Definition Dot (v1 v2 : TVec3 T) : T :=
fadd (fadd (fmul (x v1) (x v2)) (fmul (y v1) (y v2))) (fmul (z v1) (z v2)).

(** [Dot<float, SIMD::SSE>] on [TVec3]: [_mm_cvtss_f32(_mm_dp_ps(v1.v_, v2.v_, 0x71))]. *)
Definition Dot_SSE (v1 v2 : TVec3_SIMD T) : T :=
mm_cvtss (mm_dp (v3_ v1) (v3_ v2) 0x71).

(** [Dot<double, SIMD::AVX>] on [TVec3]. *)
Definition Dot_AVX (v1 v2 : TVec3_SIMD T) : T :=
let z_  := mm_setzero in
let tv1 := mm256_blend (v3_ v1) z_ 0x8 in
let tv2 := mm256_blend (v3_ v2) z_ 0x8 in
let t1  := mm_mul tv1 tv2 in
let t2  := mm256_hadd t1 t1 in
let t3  := mm256_extractf128_hi t2 in
let t4  := mm256_castpd256_pd128 t2 in
let result := mm_add_pd t3 t4 in
mm_cvtsd result.

(** [Dot(const TVec4<T, Opt>&, const TVec4<T, Opt>&)], the generic one. *)
Definition Dot4 (v1 v2 : TVec4 T) : T :=
fadd (fadd (fadd (fmul (x4 v1) (x4 v2)) (fmul (y4 v1) (y4 v2)))
           (fmul (z4 v1) (z4 v2)))
     (fmul (w4 v1) (w4 v2)).

(** [Dot<float, SIMD::SSE>] on [TVec4]: [_mm_dp_ps(v1.v_, v2.v_, 0xf1)]. *)
Definition Dot4_SSE (v1 v2 : TVec4_SIMD T) : T :=
mm_cvtss (mm_dp (v4_ v1) (v4_ v2) 0xf1).

(** [Dot<double, SIMD::AVX>] on [TVec4]. *)
Definition Dot4_AVX (v1 v2 : TVec4_SIMD T) : T :=
let t1 := mm_mul (v4_ v1) (v4_ v2) in
let t2 := mm256_hadd t1 t1 in
let t3 := mm256_extractf128_hi t2 in
let t4 := mm256_castpd256_pd128 t2 in
let result := mm_add_pd t3 t4 in
mm_cvtsd result.

(** [Length2(v)] = [Dot(v, v)] and [Length(v)] = [Math::Sqrt(Math::Length2(v))],
  the generic templates (lines 834-838 and 858-862), at the scalar vector
  types. *)
Definition Length2 (v : TVec3 T) : T := Dot v v.
Definition Length2_4 (v : TVec4 T) : T := Dot4 v v.
Definition Length (v : TVec3 T) : T := Sqrt (Length2 v).
Definition Length_4 (v : TVec4 T) : T := Sqrt (Length2_4 v).

(** The same generic templates at a SIMD vector type [V], where the call
  [Dot(v, v)] resolves to the SSE or AVX dot product [dot]. (The explicit
  specialisations of Length and Length2 for the SSE types, lines 840-850
  and 864-874, are ill-formed as written: they give a type where the
  template takes a template, and two of them read a member [v.v] that the
  vectors do not have. They are not embedded.) *)
Definition Length2_with {V : Type} (dot : V -> V -> T) (v : V) : T := dot v v.
Definition Length_with {V : Type} (dot : V -> V -> T) (v : V) : T :=
Sqrt (Length2_with dot v).

End MathFunctions.

Section BoundFunctions.
Context {T : Type} `{Arith T} `{Ordered T}.

(** Modelled from the spec: [Math::Min] and [Math::Max] on vectors, which
  bound.h calls and the math.h of this revision does not declare: the
  componentwise minimum and maximum. *)
Definition Min (a b : TVec3 T) : TVec3 T :=
Vec3 (fmin (x a) (x b)) (fmin (y a) (y b)) (fmin (z a) (z b)).
Definition Max (a b : TVec3 T) : TVec3 T :=
Vec3 (fmax (x a) (x b)) (fmax (y a) (y b)) (fmax (z a) (z b)).

(** [Union(const Bound& a, const Bound& b)]: merge two bounds. *)
Definition Union (a b : Bound T) : Bound T :=
mkBound (Min (min a) (min b)) (Max (max a) (max b)).

(** [Union(const Bound& a, const Vec3& p)]: merge one bound and a point. *)
Definition Union_point (a : Bound T) (p : TVec3 T) : Bound T :=
mkBound (Min (min a) p) (Max (max a) p).

End BoundFunctions.
End Math.

(* ===================================================================== *)
(** * Machine integers and faults *)

Definition INT_MAX : Z := 2147483647.
Definition INT_MIN : Z := -2147483648.

(** [(int)(v.size())]: the conversion of a size to [int] wraps. *)
Definition to_int (n : Z) : Z := (n + 2147483648) mod 4294967296 - 2147483648.

(** Arithmetic on [unsigned int] wraps modulo 2^32. *)
Definition u32 (n : Z) : Z := n mod 4294967296.

(** How a run can fail to return: undefined behaviour (a read out of the
    bounds of an array or vector of the program -- the positions and faces
    of a mesh, the primitives of the scene, [bounds_], [triangles_],
    [nodes_] --, signed overflow, the read of an unassigned local), the
    [std::out_of_range] of [vector::at], or a recursion that has not ended
    when the fuel of the model is used up. The reads past the end of the
    initializer list in the default construction of a [Bound] are not
    among the faults of a run: every run of Build makes them, and they are
    modelled by the values they yield (see [Stray]). *)
Inductive fault : Type :=
| UndefinedBehaviour
| OutOfRangeException
| OutOfFuel.

Inductive result (A : Type) : Type :=
| Ok (a : A)
| Fault (f : fault).
Arguments Fault {A} f.

Definition bind {A B : Type} (c : result A) (k : A -> result B) : result B :=
  match c with
  | Ok a => k a
  | Fault f => Fault f
  end.

Notation "x <- c ;; k" := (bind c (fun x => k))
  (at level 61, c at next level, right associativity).
Notation "' pat <- c ;; k" := (bind c (fun x => match x with pat => k end))
  (at level 61, pat pattern, c at next level, right associativity).

(** [p[k]] through a raw pointer or [operator[]] of a vector. *)
Definition read {A : Type} (l : list A) (k : Z) : result A :=
  if k <? 0 then Fault UndefinedBehaviour
  else match nth_error l (Z.to_nat k) with
       | Some a => Ok a
       | None => Fault UndefinedBehaviour
       end.

(** [v.at(k)]. *)
Definition at_ {A : Type} (l : list A) (k : Z) : result A :=
  if k <? 0 then Fault OutOfRangeException
  else match nth_error l (Z.to_nat k) with
       | Some a => Ok a
       | None => Fault OutOfRangeException
       end.

(** A write through the pointer [&v[k]] taken earlier. *)
Fixpoint update {A : Type} (l : list A) (k : nat) (f : A -> A) : list A :=
  match l, k with
  | [], _ => []
  | a :: l', O => f a :: l'
  | a :: l', S k' => a :: update l' k' f
  end.

(** The value of a signed [int] expression; overflow is undefined. *)
Definition int_val (n : Z) : result Z :=
  if (INT_MIN <=? n) && (n <=? INT_MAX) then Ok n else Fault UndefinedBehaviour.

(** [TVec3(std::initializer_list<VT> l)
    { x = l.begin()[0]; y = l.begin()[1]; z = l.begin()[2]; }]
    (math.h, line 222) read by the letter: a read past the end of the list
    is undefined. *)
Definition TVec3_of_list {T : Type} (l : list T) : result (TVec3 T) :=
  a <- read l 0 ;;
  b <- read l 1 ;;
  c <- read l 2 ;;
  Ok (Vec3 a b c).

(** [Bound()] read by the letter: both corners are constructed from a list
    of one element. *)
Definition Bound_by_the_letter {T : Type} `{Arith T} `{Ordered T}
  : result (Bound T) :=
  mn <- TVec3_of_list [Inf] ;;
  mx <- TVec3_of_list [fneg Inf] ;;
  Ok (mkBound mn mx).

(* ===================================================================== *)
(** * accel_bvh.cpp *)

(** [Vec2]: the two barycentric coordinates [b[0]], [b[1]]. *)
Record TVec2 (T : Type) : Type := Vec2 { b0 : T; b1 : T }.

(** [Ray]: origin and direction. *)
Record Ray (T : Type) : Type := mkRay { o : TVec3 T; d : TVec3 T }.

(** The mesh as Build reads it: [Positions()] (stride 3), [Faces()]
    (stride 3, [unsigned int]) and [NumFaces()]. *)
Record TriangleMesh (T : Type) : Type := mkMesh {
  Positions : list T;
  Faces     : list Z;
  NumFaces  : Z
}.

(** [Primitive]: [mesh] (a pointer, null when absent) and [transform]. *)
Record Primitive (T : Type) : Type := mkPrimitive {
  mesh      : option (TriangleMesh T);
  transform : TMat4 T
}.

(** The scene as Build and Intersect read it: a flat list of primitives,
    [NumPrimitives()] its length and [PrimitiveAt(i)] its [i]-th element. *)
Definition Scene (T : Type) : Type := list (Primitive T).

(** [struct BVHNode]: [isleaf], [bound], and the union whose two [int]
    slots are [leaf.begin] / [internal.child1] and [leaf.end] /
    [internal.child2]. *)
Record BVHNode (T : Type) : Type := mkNode {
  isleaf : bool;
  bound  : Bound T;
  slot1  : Z;
  slot2  : Z
}.

Definition leaf_begin {T} (n : BVHNode T) : Z := slot1 n.
Definition leaf_end {T} (n : BVHNode T) : Z := slot2 n.
Definition internal_child1 {T} (n : BVHNode T) : Z := slot1 n.
Definition internal_child2 {T} (n : BVHNode T) : Z := slot2 n.

(** What [IntersectionUtils::CreateTriangleIntersection] is given: the hit
    primitive, the hit point, the barycentric coordinates and the face. *)
Record Intersection (T : Type) : Type := mkIntersection {
  isect_primitive : Primitive T;
  isect_p         : TVec3 T;
  isect_b         : TVec2 T;
  isect_faceIndex : Z
}.

(** [Vec3], [Vec4] and [Mat4] are the default types of math.h (with
    [LM_USE_SINGLE_PRECISION] and [LM_USE_SSE]: [float] in SSE registers);
    they are read here by their components [x, y, z (, w)], and the product
    [Mat4 * Vec4] is the SSE one. *)
Section Accel.
Context {T : Type} `{Arith T} `{Ordered T} `{Indeterminate T}.

(** The precomputed triangle of triaccel.h, which is not part of the
    sources at hand: [TriData] is what [Load(p1, p2, p3)] stores, and
    [TriIntersect tri ray minT maxT] is
    [tri.Intersect(ray, minT, maxT, u, v, t)], [Some (u, v, t)] when it
    returns true. [BoundIntersect] is [Bound::Intersect(ray, minT, maxT)],
    which bound.h at this revision does not declare. *)
Variable TriData : Type.
Variable Load : TVec3 T -> TVec3 T -> TVec3 T -> TriData.
Variable TriIntersect : TriData -> Ray T -> T -> T -> option (T * T * T).
Variable BoundIntersect : Bound T -> Ray T -> T -> T -> bool.

(** [TriAccelTriangle]: [faceIndex], [primIndex] and the loaded data. *)
Record TriAccelTriangle : Type := mkTri {
  faceIndex : Z;
  primIndex : Z;
  tridata   : TriData
}.

(** The members of [Accel_BVH]. *)
Record Accel_BVH : Type := mkAccel {
  triangles_ : list TriAccelTriangle;
  nodes_     : list (BVHNode T)
}.

(** A newly constructed accelerator. *)
Definition Accel_new : Accel_BVH := mkAccel [] [].

(** ** Build: create triaccels *)

(** Modelled from the spec: the conversion [Vec3(Vec4)] of the transformed
    point, not declared in the math.h of this revision: the first three
    components. *)
Definition Vec3_of_Vec4 (v : TVec4 T) : TVec3 T := Vec3 (x4 v) (y4 v) (z4 v).

(** [Vec3 p(prim->transform * Vec4(ps[3 * i], ps[3 * i + 1], ps[3 * i + 2], 1_f))]
    for the [unsigned int] vertex index [i]. *)
Definition vertex (prim : Primitive T) (ps : list T) (i : Z) : result (TVec3 T) :=
  a <- read ps (u32 (3 * i)) ;;
  b <- read ps (u32 (3 * i + 1)) ;;
  c <- read ps (u32 (3 * i + 2)) ;;
  Ok (Vec3_of_Vec4 (mat4_mul_vec_SIMD (transform prim) (Vec4 a b c one))).

(** The three world-space vertices of face [j]. *)
Definition face_vertices (prim : Primitive T) (m : TriangleMesh T) (j : Z)
  : result (TVec3 T * TVec3 T * TVec3 T) :=
  k1 <- int_val (3 * j) ;;
  i1 <- read (Faces m) k1 ;;
  k2 <- int_val (3 * j + 1) ;;
  i2 <- read (Faces m) k2 ;;
  k3 <- int_val (3 * j + 2) ;;
  i3 <- read (Faces m) k3 ;;
  p1 <- vertex prim (Positions m) i1 ;;
  p2 <- vertex prim (Positions m) i2 ;;
  p3 <- vertex prim (Positions m) i3 ;;
  Ok (p1, p2, p3).

(** [bound.min -= Vec3(Math::Eps()); bound.max += Vec3(Math::Eps());]. *)
Definition expand (b : Bound T) : Bound T :=
  mkBound (vec3_sub (min b) (Vec3_splat Eps)) (vec3_add (max b) (Vec3_splat Eps)).

(** Lines 102-107: the bound pushed to [bounds_] for a face, from the
    [Bound bound;] whose stray values are [g]. *)
Definition triangle_bound (g : Stray T) (p1 p2 p3 : TVec3 T) : Bound T :=
  let bound := Bound_default g in
  let bound := Math.Union_point bound p1 in
  let bound := Math.Union_point bound p2 in
  let bound := Math.Union_point bound p3 in
  expand bound.

(** The loop over the faces of one mesh, [n] iterations from [j] on; the
    bound of a face is pushed at the index [bounds_.size()]. *)
Fixpoint face_loop (prim : Primitive T) (m : TriangleMesh T) (i : Z)
         (n : nat) (j : Z)
         (tris : list TriAccelTriangle) (bounds : list (Bound T))
  : result (list TriAccelTriangle * list (Bound T)) :=
  match n with
  | O => Ok (tris, bounds)
  | S n' =>
      '(p1, p2, p3) <- face_vertices prim m j ;;
      face_loop prim m i n' (j + 1)
        (tris ++ [mkTri j i (Load p1 p2 p3)])
        (bounds ++ [triangle_bound (bound_stray (Z.of_nat (length bounds)))
                                   p1 p2 p3])
  end.

(** The loop over the primitives, [prims] being those from index [i] on. *)
Fixpoint prim_loop (prims : list (Primitive T)) (i : Z)
         (tris : list TriAccelTriangle) (bounds : list (Bound T))
  : result (list TriAccelTriangle * list (Bound T)) :=
  match prims with
  | [] => Ok (tris, bounds)
  | prim :: rest =>
      match mesh prim with
      | Some m =>
          '(tris', bounds') <-
             face_loop prim m i (Z.to_nat (NumFaces m)) 0 tris bounds ;;
          prim_loop rest (i + 1) tris' bounds'
      | None => prim_loop rest (i + 1) tris bounds
      end
  end.

(** Region "Create triaccels": appends to the member [triangles_] and
    fills the local [bounds_], which starts empty. *)
Definition CreateTriaccels (scene : Scene T) (triangles : list TriAccelTriangle)
  : result (list TriAccelTriangle * list (Bound T)) :=
  prim_loop scene 0 triangles [].

(** ** Build: build the BVH *)

Definition LeafNumNodes : Z := 10.

(** [new BVHNode], with the stray values [g]: the bound is the default
    [Bound]; [isleaf] and the union are not initialised (here [false] and 0
    until they are assigned). *)
Definition BVHNode_new (g : Stray T) : BVHNode T :=
  mkNode false (Bound_default g) 0 0.

(** [for (i = begin; i < end; i++) node->bound = Math::Union(node->bound, bounds_[i])],
    [n] iterations from [i] on. *)
Fixpoint union_loop (bounds : list (Bound T)) (n : nat) (i : Z) (acc : Bound T)
  : result (Bound T) :=
  match n with
  | O => Ok acc
  | S n' =>
      b <- read bounds i ;;
      union_loop bounds n' (i + 1) (Math.Union acc b)
  end.

(** The assignments through [node]. *)
Definition set_bound (b : Bound T) (n : BVHNode T) : BVHNode T :=
  mkNode (isleaf n) b (slot1 n) (slot2 n).
Definition set_isleaf (l : bool) (n : BVHNode T) : BVHNode T :=
  mkNode l (bound n) (slot1 n) (slot2 n).
Definition set_slot1 (v : Z) (n : BVHNode T) : BVHNode T :=
  mkNode (isleaf n) (bound n) v (slot2 n).
Definition set_slot2 (v : Z) (n : BVHNode T) : BVHNode T :=
  mkNode (isleaf n) (bound n) (slot1 n) v.

(** The recursive lambda [Build_(begin, end)], on the vector [nodes];
    [node] is the pointer [nodes_[idx].get()], the writes through it are
    updates of the element [idx]. *)
Fixpoint Build_ (fuel : nat) (bounds : list (Bound T)) (begin end_ : Z)
         (nodes : list (BVHNode T)) : result (Z * list (BVHNode T)) :=
  match fuel with
  | O => Fault OutOfFuel
  | S fuel' =>
      let idx := to_int (Z.of_nat (length nodes)) in
      let nodes := nodes ++ [BVHNode_new (node_stray idx)] in
      new_node <- read nodes idx ;;
      let node := Z.to_nat idx in
      b <- union_loop bounds (Z.to_nat (end_ - begin)) begin (bound new_node) ;;
      let nodes := update nodes node (set_bound b) in
      if end_ - begin <? LeafNumNodes then
        let nodes := update nodes node (set_isleaf true) in
        let nodes := update nodes node (set_slot1 begin) in
        let nodes := update nodes node (set_slot2 end_) in
        Ok (idx, nodes)
      else
        let mid := begin + (end_ - begin) ÷ 2 in
        let nodes := update nodes node (set_isleaf false) in
        '(child1, nodes) <- Build_ fuel' bounds begin mid nodes ;;
        let nodes := update nodes node (set_slot1 child1) in
        '(child2, nodes) <- Build_ fuel' bounds mid end_ nodes ;;
        let nodes := update nodes node (set_slot2 child2) in
        Ok (idx, nodes)
  end.

(** Fuel that the recursion on [begin, end) cannot use up. *)
Definition Build_fuel (begin end_ : Z) : nat := S (Z.to_nat (end_ - begin)).

(** Region "Build BVH": [nodes_.clear(); Build_(0, (int)(triangles_.size()))]. *)
Definition BuildBVH (bounds : list (Bound T)) (triangles : list TriAccelTriangle)
  : result (list (BVHNode T)) :=
  let n := to_int (Z.of_nat (length triangles)) in
  '(_, nodes) <- Build_ (Build_fuel 0 n) bounds 0 n [] ;;
  Ok nodes.

(** [Accel_BVH::Build(scene)]: the returned flag and the new members. *)
Definition Build (scene : Scene T) (self : Accel_BVH) : result (bool * Accel_BVH) :=
  '(triangles, bounds) <- CreateTriaccels scene (triangles_ self) ;;
  nodes <- BuildBVH bounds triangles ;;
  Ok (true, mkAccel triangles nodes).

(** ** Intersect *)

(** The locals the lambda [Intersect_] captures by reference: [maxT], and
    [minIndex] and [minB], which are unassigned ([None]) until a hit. *)
Record Locals : Type := mkLocals {
  maxT     : T;
  minIndex : option Z;
  minB     : option (TVec2 T)
}.

Section Query.
Variable self : Accel_BVH.
Variable ray : Ray T.
Variable minT : T.

(** The loop over the triangles of a leaf, [n] iterations from [i] on. *)
Fixpoint leaf_loop (n : nat) (i : Z) (hit : bool) (s : Locals)
  : result (bool * Locals) :=
  match n with
  | O => Ok (hit, s)
  | S n' =>
      tri <- read (triangles_ self) i ;;
      match TriIntersect (tridata tri) ray minT (maxT s) with
      | Some (u, v, t) =>
          leaf_loop n' (i + 1) true (mkLocals t (Some i) (Some (Vec2 u v)))
      | None => leaf_loop n' (i + 1) hit s
      end
  end.

(** The recursive lambda [Intersect_(idx)]. *)
Fixpoint Intersect_ (fuel : nat) (idx : Z) (s : Locals) : result (bool * Locals) :=
  match fuel with
  | O => Fault OutOfFuel
  | S fuel' =>
      node <- at_ (nodes_ self) idx ;;
      if negb (BoundIntersect (bound node) ray minT (maxT s)) then Ok (false, s)
      else if isleaf node then
        leaf_loop (Z.to_nat (leaf_end node - leaf_begin node)) (leaf_begin node)
                  false s
      else
        '(hit1, s) <- Intersect_ fuel' (internal_child1 node) s ;;
        '(hit2, s) <- Intersect_ fuel' (internal_child2 node) s ;;
        Ok (hit1 || hit2, s)
  end.

End Query.

(** [ray.o + ray.d * maxT]. *)
Definition ray_at (ray : Ray T) (t : T) : TVec3 T :=
  vec3_add (o ray) (vec3_scale (d ray) t).

(** [Accel_BVH::Intersect(scene, ray, isect, minT, maxT)]: [None] for
    [return false], [Some isect] for [return true]. The fuel is one more
    than the number of nodes: a chain of children without repetition is
    no longer than the number of nodes. *)
Definition Intersect (self : Accel_BVH) (scene : Scene T) (ray : Ray T)
           (minT maxT_ : T) : result (option (Intersection T)) :=
  '(hit, s) <- Intersect_ self ray minT (S (length (nodes_ self))) 0
                          (mkLocals maxT_ None None) ;;
  if negb hit then Ok None
  else
    match minIndex s, minB s with
    | Some i, Some b =>
        tri <- read (triangles_ self) i ;;
        prim <- read scene (primIndex tri) ;;
        Ok (Some (mkIntersection prim (ray_at ray (maxT s)) b (faceIndex tri)))
    | _, _ => Fault UndefinedBehaviour
    end.

End Accel.

Arguments TriAccelTriangle : clear implicits.
Arguments Accel_BVH : clear implicits.
Arguments Accel_new {T TriData}.
Arguments Locals : clear implicits.

(* ===================================================================== *)
(** * Bounds: the order on boxes and the laws of Union *)

Section BoundOrder.
Context {T : Type} `{Arith T} `{Ordered T}.

(** Componentwise order on vectors. *)
Definition vle (a b : TVec3 T) : Prop :=
  fle (x a) (x b) /\ fle (y a) (y b) /\ fle (z a) (z b).

(** [encloses B b]: the box [b] does not exceed [B] on any axis. *)
Definition encloses (B b : Bound T) : Prop :=
  vle (min B) (min b) /\ vle (max b) (max B).

(** The degenerate box at a point. *)
Definition point_box (p : TVec3 T) : Bound T := mkBound p p.

(** Every component satisfies [ok]. *)
Definition vec_ok (ok : T -> Prop) (v : TVec3 T) : Prop :=
  ok (x v) /\ ok (y v) /\ ok (z v).

Definition bound_ok (ok : T -> Prop) (b : Bound T) : Prop :=
  vec_ok ok (min b) /\ vec_ok ok (max b).

Definition stray_ok (ok : T -> Prop) (g : Stray T) : Prop :=
  ok (stray_min_y g) /\ ok (stray_min_z g)
  /\ ok (stray_max_y g) /\ ok (stray_max_z g).

End BoundOrder.

(** ** Enclosure, of boxes whose components satisfy [ok] *)

Section Enclosure.
Context {T : Type} `{Arith T} `{Ordered T}.
Variable ok : T -> Prop.
Context `{!OrderOn T ok}.

Lemma bound_ok_Union (a b : Bound T) :
  bound_ok ok a -> bound_ok ok b -> bound_ok ok (Math.Union a b).
Proof.
  intros [(?&?&?) (?&?&?)] [(?&?&?) (?&?&?)].
  repeat split; cbn; first [apply ok_fmin | apply ok_fmax]; assumption.
Qed.

Lemma bound_ok_fold (l : list (Bound T)) :
  forall acc, bound_ok ok acc -> Forall (bound_ok ok) l ->
              bound_ok ok (fold_left Math.Union l acc).
Proof.
  induction l as [|b l IH]; intros acc Hacc Hl; cbn [fold_left].
  - assumption.
  - inversion Hl as [| ? ? Hb Hl']; subst.
    apply IH; [now apply bound_ok_Union | assumption].
Qed.

Lemma encloses_refl (a : Bound T) : bound_ok ok a -> encloses a a.
Proof.
  intros [(?&?&?) (?&?&?)]. repeat split; now apply on_refl.
Qed.

Lemma encloses_trans (a b c : Bound T) :
  bound_ok ok a -> bound_ok ok b -> bound_ok ok c ->
  encloses a b -> encloses b c -> encloses a c.
Proof.
  intros [(?&?&?) (?&?&?)] [(?&?&?) (?&?&?)] [(?&?&?) (?&?&?)]
         [(?&?&?) (?&?&?)] [(?&?&?) (?&?&?)].
  repeat split;
    (eapply (on_trans (ok := ok)); [.. | eassumption | eassumption]; assumption).
Qed.

Lemma encloses_Union_l (a b : Bound T) :
  bound_ok ok a -> bound_ok ok b -> encloses (Math.Union a b) a.
Proof.
  intros [(?&?&?) (?&?&?)] [(?&?&?) (?&?&?)].
  repeat split; cbn; first [now apply on_fmin_l | now apply on_fmax_l].
Qed.

Lemma encloses_Union_r (a b : Bound T) :
  bound_ok ok a -> bound_ok ok b -> encloses (Math.Union a b) b.
Proof.
  intros [(?&?&?) (?&?&?)] [(?&?&?) (?&?&?)].
  repeat split; cbn; first [now apply on_fmin_r | now apply on_fmax_r].
Qed.

(** The fold of Union from an accumulator encloses the accumulator and
    every box of the list. *)
Lemma fold_Union_encloses_acc (l : list (Bound T)) :
  forall acc, bound_ok ok acc -> Forall (bound_ok ok) l ->
              encloses (fold_left Math.Union l acc) acc.
Proof.
  induction l as [|b l IH]; intros acc Hacc Hl; cbn [fold_left].
  - now apply encloses_refl.
  - inversion Hl as [| ? ? Hb Hl']; subst.
    assert (Hu : bound_ok ok (Math.Union acc b)) by now apply bound_ok_Union.
    eapply encloses_trans; [| exact Hu | | apply IH | apply encloses_Union_l];
      try assumption.
    now apply bound_ok_fold.
Qed.

Lemma fold_Union_encloses (l : list (Bound T)) :
  forall acc b, bound_ok ok acc -> Forall (bound_ok ok) l ->
                In b l -> encloses (fold_left Math.Union l acc) b.
Proof.
  induction l as [|a l IH]; intros acc b Hacc Hl Hin; cbn [fold_left In] in *.
  - contradiction.
  - inversion Hl as [| ? ? Ha Hl']; subst.
    assert (Hu : bound_ok ok (Math.Union acc a)) by now apply bound_ok_Union.
    destruct Hin as [-> | Hin].
    + eapply encloses_trans;
        [| exact Hu | | apply fold_Union_encloses_acc | apply encloses_Union_r];
        try assumption.
      now apply bound_ok_fold.
    + now apply IH.
Qed.

(** ** Enclosure by a fold that starts from a default-constructed box *)

Variable start : T -> Prop.
Context `{!Absorbs T ok start}.

Lemma bound_start_default (g : Stray T) :
  stray_ok start g -> bound_ok start (Bound_default g).
Proof.
  intros (?&?&?&?). repeat split; cbn; try assumption;
    first [apply (start_Inf (ok := ok)) | apply (start_NegInf (ok := ok))].
Qed.

(** The first Union into a box of start values gives a box of the order
    that encloses the box joined. *)
Lemma Union_start (acc b : Bound T) :
  bound_ok start acc -> bound_ok ok b ->
  bound_ok ok (Math.Union acc b) /\ encloses (Math.Union acc b) b.
Proof.
  intros [(?&?&?) (?&?&?)] [(?&?&?) (?&?&?)].
  repeat split; cbn;
    first [ now apply (start_fmin (ok := ok) (start := start))
          | now apply (start_fmax (ok := ok) (start := start)) ].
Qed.

Lemma fold_Union_encloses_start (l : list (Bound T)) (acc b : Bound T) :
  bound_ok start acc -> Forall (bound_ok ok) l ->
  In b l -> encloses (fold_left Math.Union l acc) b.
Proof.
  intros Hacc Hl Hin. destruct l as [|a l]; cbn [fold_left In] in *.
  - contradiction.
  - inversion Hl as [| ? ? Ha Hl']; subst.
    destruct (Union_start Hacc Ha) as [Hu Henc].
    destruct Hin as [-> | Hin].
    + eapply encloses_trans;
        [| exact Hu | | apply fold_Union_encloses_acc | exact Henc];
        try assumption.
      now apply bound_ok_fold.
    + now apply fold_Union_encloses.
Qed.

End Enclosure.

(** ** The laws of Union, where the order laws hold of every scalar *)

Section BoundLaws.
Context {T : Type} `{OrderLaws T}.

Lemma fmin_comm (a b : T) : fmin a b = fmin b a.
Proof.
  apply fle_antisym; apply fmin_glb;
    first [apply fmin_l | apply fmin_r].
Qed.

Lemma fmax_comm (a b : T) : fmax a b = fmax b a.
Proof.
  apply fle_antisym; apply fmax_lub;
    first [apply fmax_l | apply fmax_r].
Qed.

Lemma fmin_assoc (a b c : T) : fmin (fmin a b) c = fmin a (fmin b c).
Proof.
  apply fle_antisym.
  - apply fmin_glb.
    + eapply fle_trans; [apply fmin_l | apply fmin_l].
    + apply fmin_glb.
      * eapply fle_trans; [apply fmin_l | apply fmin_r].
      * apply fmin_r.
  - apply fmin_glb.
    + apply fmin_glb.
      * apply fmin_l.
      * eapply fle_trans; [apply fmin_r | apply fmin_l].
    + eapply fle_trans; [apply fmin_r | apply fmin_r].
Qed.

Lemma fmax_assoc (a b c : T) : fmax (fmax a b) c = fmax a (fmax b c).
Proof.
  apply fle_antisym.
  - apply fmax_lub.
    + apply fmax_lub.
      * apply fmax_l.
      * eapply fle_trans; [apply fmax_l | apply fmax_r].
    + eapply fle_trans; [apply fmax_r | apply fmax_r].
  - apply fmax_lub.
    + eapply fle_trans; [apply fmax_l | apply fmax_l].
    + apply fmax_lub.
      * eapply fle_trans; [apply fmax_r | apply fmax_l].
      * apply fmax_r.
Qed.

Lemma fmin_Inf_l (a : T) : fmin Inf a = a.
Proof.
  apply fle_antisym; [apply fmin_r | apply fmin_glb; [apply fle_Inf | apply fle_refl]].
Qed.

Lemma fmax_NegInf_l (a : T) : fmax (fneg Inf) a = a.
Proof.
  apply fle_antisym; [apply fmax_lub; [apply fle_NegInf | apply fle_refl] | apply fmax_r].
Qed.

Lemma Min_comm (a b : TVec3 T) : Math.Min a b = Math.Min b a.
Proof. unfold Math.Min. f_equal; apply fmin_comm. Qed.

Lemma Max_comm (a b : TVec3 T) : Math.Max a b = Math.Max b a.
Proof. unfold Math.Max. f_equal; apply fmax_comm. Qed.

Lemma Min_assoc (a b c : TVec3 T) :
  Math.Min (Math.Min a b) c = Math.Min a (Math.Min b c).
Proof. unfold Math.Min; simpl. f_equal; apply fmin_assoc. Qed.

Lemma Max_assoc (a b c : TVec3 T) :
  Math.Max (Math.Max a b) c = Math.Max a (Math.Max b c).
Proof. unfold Math.Max; simpl. f_equal; apply fmax_assoc. Qed.

Lemma Union_comm (a b : Bound T) : Math.Union a b = Math.Union b a.
Proof. unfold Math.Union. f_equal; [apply Min_comm | apply Max_comm]. Qed.

Lemma Union_assoc (a b c : Bound T) :
  Math.Union (Math.Union a b) c = Math.Union a (Math.Union b c).
Proof. unfold Math.Union; simpl. f_equal; [apply Min_assoc | apply Max_assoc]. Qed.

Lemma Union_point_box (a : Bound T) (p : TVec3 T) :
  Math.Union_point a p = Math.Union a (point_box p).
Proof. reflexivity. Qed.

(** The empty box of the spec is the identity of Union. *)
Lemma Union_spec_empty_l (a : Bound T) : Math.Union spec_empty_bound a = a.
Proof.
  destruct a as [[x1 y1 z1] [x2 y2 z2]].
  unfold Math.Union, Math.Min, Math.Max, spec_empty_bound, Vec3_splat; simpl.
  rewrite !fmin_Inf_l, !fmax_NegInf_l. reflexivity.
Qed.

Lemma Union_spec_empty_r (a : Bound T) : Math.Union a spec_empty_bound = a.
Proof. rewrite Union_comm. apply Union_spec_empty_l. Qed.

Lemma fold_Union_perm (l l' : list (Bound T)) (acc : Bound T) :
  Permutation l l' -> fold_left Math.Union l acc = fold_left Math.Union l' acc.
Proof.
  intros Hp. revert acc.
  induction Hp as [| a l l' _ IH | a b l | l1 l2 l3 _ IH1 _ IH2]; intros acc; simpl.
  - reflexivity.
  - apply IH.
  - f_equal. rewrite !Union_assoc. f_equal. apply Union_comm.
  - now rewrite IH1.
Qed.

End BoundLaws.

(* ===================================================================== *)
(** * Reads, updates and machine integers *)

Section Lists.
Context {A : Type}.

Lemma read_Ok (l : list A) (k : Z) (a : A) :
  read l k = Ok a <-> 0 <= k /\ nth_error l (Z.to_nat k) = Some a.
Proof.
  unfold read. destruct (Z.ltb_spec k 0).
  - split; [discriminate | lia].
  - destruct (nth_error l (Z.to_nat k)) eqn:E; split.
    + intros [= ->]. auto.
    + intros [_ [= ->]]. reflexivity.
    + discriminate.
    + intros [_ [=]].
Qed.

Lemma read_nth (l : list A) (k : nat) (a : A) :
  nth_error l k = Some a -> read l (Z.of_nat k) = Ok a.
Proof.
  intros E. apply read_Ok. rewrite Nat2Z.id. split; [lia | assumption].
Qed.

Lemma read_in_range (l : list A) (k : Z) :
  0 <= k < Z.of_nat (length l) -> exists a, read l k = Ok a.
Proof.
  intros Hk. destruct (nth_error l (Z.to_nat k)) eqn:E.
  - exists a. apply read_Ok. split; [lia | assumption].
  - apply nth_error_None in E. lia.
Qed.

Lemma read_length (l l' : list A) (a : A) :
  read (l ++ a :: l') (Z.of_nat (length l)) = Ok a.
Proof.
  apply read_nth. rewrite nth_error_app2 by lia.
  now rewrite Nat.sub_diag.
Qed.

Lemma at_Ok (l : list A) (k : Z) (a : A) :
  at_ l k = Ok a <-> 0 <= k /\ nth_error l (Z.to_nat k) = Some a.
Proof.
  unfold at_. destruct (Z.ltb_spec k 0).
  - split; [discriminate | lia].
  - destruct (nth_error l (Z.to_nat k)) eqn:E; split.
    + intros [= ->]. auto.
    + intros [_ [= ->]]. reflexivity.
    + discriminate.
    + intros [_ [=]].
Qed.

Lemma at_length (l l' : list A) (a : A) :
  at_ (l ++ a :: l') (Z.of_nat (length l)) = Ok a.
Proof.
  apply at_Ok. rewrite Nat2Z.id. split; [lia |].
  rewrite nth_error_app2 by lia. now rewrite Nat.sub_diag.
Qed.

Lemma update_length (l l' : list A) (a : A) (f : A -> A) :
  update (l ++ a :: l') (length l) f = l ++ f a :: l'.
Proof.
  induction l as [|b l IH]; simpl; [reflexivity | now rewrite IH].
Qed.

Lemma skipn_nth (l : list A) (k : nat) (a : A) :
  nth_error l k = Some a -> skipn k l = a :: skipn (S k) l.
Proof.
  revert k. induction l as [|b l IH]; intros [|k] E; simpl in *; try discriminate.
  - now injection E as ->.
  - now apply IH.
Qed.

Lemma In_firstn (l : list A) (k : nat) (a : A) : In a (firstn k l) -> In a l.
Proof.
  revert k. induction l as [|b l IH]; intros [|k] Hin; simpl in *; try contradiction.
  destruct Hin as [-> | Hin]; [now left | right; eauto].
Qed.

Lemma In_skipn (l : list A) (k : nat) (a : A) : In a (skipn k l) -> In a l.
Proof.
  revert k. induction l as [|b l IH]; intros [|k] Hin; simpl in *;
    try contradiction; try assumption.
  right; eauto.
Qed.

End Lists.

Lemma to_int_small (n : Z) : 0 <= n <= INT_MAX -> to_int n = n.
Proof.
  unfold to_int, INT_MAX. intros Hn.
  rewrite Z.mod_small by lia. lia.
Qed.

Lemma u32_small (n : Z) : 0 <= n < 4294967296 -> u32 n = n.
Proof. intros Hn. unfold u32. now apply Z.mod_small. Qed.

Lemma int_val_small (n : Z) : 0 <= n <= INT_MAX -> int_val n = Ok n.
Proof.
  unfold int_val, INT_MIN, INT_MAX. intros Hn.
  destruct (Z.leb_spec (-2147483648) n); [|lia].
  destruct (Z.leb_spec n 2147483647); [reflexivity | lia].
Qed.

(* ===================================================================== *)
(** * The tree that Build_ lays out in [nodes_] *)

(** The nodes as a tree: a leaf with its bound and range, or an internal
    node with its bound and its two subtrees. *)
Inductive tree (T : Type) : Type :=
| TLeaf (b : Bound T) (begin end_ : Z)
| TNode (b : Bound T) (l r : tree T).

Section Trees.
Context {T : Type} `{Arith T} `{Ordered T} `{Indeterminate T}.

Fixpoint size (t : tree T) : nat :=
  match t with
  | TLeaf _ _ _ => 1
  | TNode _ l r => S (size l + size r)
  end.

Fixpoint depth (t : tree T) : nat :=
  match t with
  | TLeaf _ _ _ => 1
  | TNode _ l r => S (Nat.max (depth l) (depth r))
  end.

Definition root_bound (t : tree T) : Bound T :=
  match t with
  | TLeaf b _ _ => b
  | TNode b _ _ => b
  end.

(** [covers t j]: triangle [j] lies in the range of a leaf of [t]. *)
Fixpoint covers (t : tree T) (j : Z) : Prop :=
  match t with
  | TLeaf _ begin end_ => begin <= j < end_
  | TNode _ l r => covers l j \/ covers r j
  end.

(** [P] holds of the bound of every node of [t] and every triangle the
    node covers. *)
Fixpoint tree_all (P : Bound T -> Z -> Prop) (t : tree T) : Prop :=
  match t with
  | TLeaf b begin end_ => forall j, begin <= j < end_ -> P b j
  | TNode b l r =>
      (forall j, covers l j \/ covers r j -> P b j)
      /\ tree_all P l /\ tree_all P r
  end.

(** The nodes of [t] in the order Build_ creates them, the root at index
    [base]: the node, then its first subtree, then its second. *)
Fixpoint flat (base : Z) (t : tree T) : list (BVHNode T) :=
  match t with
  | TLeaf b begin end_ => [mkNode true b begin end_]
  | TNode b l r =>
      mkNode false b (base + 1) (base + 1 + Z.of_nat (size l))
      :: flat (base + 1) l ++ flat (base + 1 + Z.of_nat (size l)) r
  end.

(** The box of a node made with the stray values [g] over
    [bounds_[begin .. end)]: the union of these bounds into the default
    box of the node. *)
Definition range_bound (g : Stray T) (bounds : list (Bound T)) (begin end_ : Z)
  : Bound T :=
  fold_left Math.Union
    (firstn (Z.to_nat (end_ - begin)) (skipn (Z.to_nat begin) bounds))
    (Bound_default g).

(** The tree of [Build_(begin, end)] when its root becomes the node at
    index [base]. *)
Fixpoint build_tree (fuel : nat) (bounds : list (Bound T)) (base begin end_ : Z)
  : tree T :=
  match fuel with
  | O => TLeaf (Bound_default (node_stray base)) begin end_
  | S fuel' =>
      if end_ - begin <? LeafNumNodes then
        TLeaf (range_bound (node_stray base) bounds begin end_) begin end_
      else
        let mid := begin + (end_ - begin) ÷ 2 in
        let l := build_tree fuel' bounds (base + 1) begin mid in
        TNode (range_bound (node_stray base) bounds begin end_)
              l
              (build_tree fuel' bounds (base + 1 + Z.of_nat (size l)) mid end_)
  end.

Lemma length_flat (t : tree T) (base : Z) : length (flat base t) = size t.
Proof.
  revert base. induction t as [b bg en | b l IHl r IHr]; intros base; simpl.
  - reflexivity.
  - now rewrite length_app, IHl, IHr.
Qed.

Lemma size_pos (t : tree T) : (1 <= size t)%nat.
Proof. destruct t; simpl; lia. Qed.

Lemma depth_le_size (t : tree T) : (depth t <= size t)%nat.
Proof.
  induction t as [b bg en | b l IHl r IHr]; simpl; lia.
Qed.

Lemma mid_bounds (begin end_ : Z) :
  LeafNumNodes <= end_ - begin ->
  begin + 5 <= begin + (end_ - begin) ÷ 2 /\
  begin + (end_ - begin) ÷ 2 + 5 <= end_.
Proof.
  unfold LeafNumNodes. intros Hlen.
  rewrite Z.quot_div_nonneg by lia.
  pose proof (Z.div_mod (end_ - begin) 2 ltac:(lia)).
  pose proof (Z.mod_pos_bound (end_ - begin) 2 ltac:(lia)).
  lia.
Qed.

Lemma size_build_tree (fuel : nat) (bounds : list (Bound T)) :
  forall base begin end_,
    Z.of_nat (size (build_tree fuel bounds base begin end_))
    <= Z.max 1 (2 * (end_ - begin) - 1).
Proof.
  induction fuel as [|fuel IH]; intros base begin end_; cbn [build_tree].
  - cbn [size]. lia.
  - destruct (Z.ltb_spec (end_ - begin) LeafNumNodes) as [Hlt | Hge]; cbn [size].
    + lia.
    + pose proof (mid_bounds _ _ Hge) as [Hm1 Hm2].
      set (l := build_tree fuel bounds (base + 1) begin _).
      pose proof (IH (base + 1) begin (begin + (end_ - begin) ÷ 2)) as Hl.
      fold l in Hl.
      pose proof (IH (base + 1 + Z.of_nat (size l))
                     (begin + (end_ - begin) ÷ 2) end_).
      unfold LeafNumNodes in Hge.
      rewrite Nat2Z.inj_succ, Nat2Z.inj_add. lia.
Qed.

Lemma covers_build_tree (fuel : nat) (bounds : list (Bound T)) :
  forall base begin end_ j,
    begin <= end_ ->
    (covers (build_tree fuel bounds base begin end_) j <-> begin <= j < end_).
Proof.
  induction fuel as [|fuel IH]; intros base begin end_ j Hle; simpl.
  - reflexivity.
  - destruct (Z.ltb_spec (end_ - begin) LeafNumNodes) as [Hlt | Hge]; simpl.
    + reflexivity.
    + pose proof (mid_bounds _ _ Hge) as [Hm1 Hm2].
      rewrite !IH by lia. lia.
Qed.

End Trees.

(* ===================================================================== *)
(** * Build_: the layout of the nodes *)

Section BuildLayout.
Context {T : Type} `{Arith T} `{Ordered T} `{Indeterminate T}.
Variable bounds : list (Bound T).

Lemma union_loop_Ok (n : nat) :
  forall (i : Z) (acc : Bound T),
    0 <= i -> (Z.to_nat i + n <= length bounds)%nat ->
    union_loop bounds n i acc
    = Ok (fold_left Math.Union (firstn n (skipn (Z.to_nat i) bounds)) acc).
Proof.
  induction n as [|n IH]; intros i acc Hi Hlen; simpl.
  - reflexivity.
  - destruct (nth_error bounds (Z.to_nat i)) as [b|] eqn:E.
    + assert (Hr : read bounds i = Ok b) by (apply read_Ok; auto).
      rewrite Hr; simpl.
      rewrite IH by lia.
      rewrite (skipn_nth _ _ E); simpl.
      replace (Z.to_nat (i + 1)) with (S (Z.to_nat i)) by lia.
      reflexivity.
    + apply nth_error_None in E. lia.
Qed.

Lemma union_loop_range (g : Stray T) (begin end_ : Z) :
  0 <= begin <= end_ -> end_ <= Z.of_nat (length bounds) ->
  union_loop bounds (Z.to_nat (end_ - begin)) begin (Bound_default g)
  = Ok (range_bound g bounds begin end_).
Proof.
  intros Hb He. unfold range_bound. apply union_loop_Ok; lia.
Qed.

(** Build_ appends to [nodes] the layout of its tree and returns the index
    of the root, as long as the indices fit in an [int]. *)
Lemma Build_flat (fuel : nat) :
  forall (begin end_ : Z) (nodes : list (BVHNode T)),
    0 <= begin <= end_ -> end_ <= Z.of_nat (length bounds) ->
    (Z.to_nat (end_ - begin) < fuel)%nat ->
    Z.of_nat (length nodes)
    + Z.of_nat (size (build_tree fuel bounds (Z.of_nat (length nodes)) begin end_))
    <= INT_MAX ->
    Build_ fuel bounds begin end_ nodes
    = Ok (Z.of_nat (length nodes),
          nodes ++ flat (Z.of_nat (length nodes))
                        (build_tree fuel bounds (Z.of_nat (length nodes)) begin end_)).
Proof.
  induction fuel as [|fuel IH]; intros begin end_ nodes Hb He Hfuel Hsize.
  - lia.
  - cbn [Build_ build_tree] in *.
    pose proof (size_pos (build_tree (S fuel) bounds (Z.of_nat (length nodes))
                                     begin end_)) as Hpos.
    cbn [build_tree] in Hpos.
    rewrite to_int_small by lia.
    rewrite read_length. cbn [bind BVHNode_new bound].
    rewrite union_loop_range by assumption. cbn [bind].
    rewrite !Nat2Z.id.
    rewrite update_length.
    destruct (Z.ltb_spec (end_ - begin) LeafNumNodes) as [Hlt | Hge].
    + rewrite !update_length. reflexivity.
    + pose proof (mid_bounds _ _ Hge) as [Hm1 Hm2].
      set (mid := begin + (end_ - begin) ÷ 2) in *.
      cbn zeta in Hsize. cbn [size] in Hsize.
      rewrite Nat2Z.inj_succ, Nat2Z.inj_add, <- Z.add_1_r in Hsize.
      set (l := build_tree fuel bounds (Z.of_nat (length nodes) + 1) begin mid) in *.
      set (r := build_tree fuel bounds
                  (Z.of_nat (length nodes) + 1 + Z.of_nat (size l)) mid end_) in *.
      pose proof (size_pos l). pose proof (size_pos r).
      rewrite update_length.
      set (n1 := set_isleaf false _).
      assert (Hlen1 : Z.of_nat (length (nodes ++ [n1])) = Z.of_nat (length nodes) + 1)
        by (rewrite length_app; simpl length; lia).
      rewrite IH; rewrite ?Hlen1; [| lia | lia | lia | fold l; lia].
      cbn [bind]. fold l.
      rewrite <- app_assoc. cbn [app].
      rewrite update_length.
      set (n2 := set_slot1 _ n1).
      set (fl := flat (Z.of_nat (length nodes) + 1) l).
      assert (Hlen2 : Z.of_nat (length ((nodes ++ [n2]) ++ fl))
                      = Z.of_nat (length nodes) + 1 + Z.of_nat (size l)).
      { rewrite !length_app. unfold fl. rewrite length_flat. simpl length. lia. }
      change (nodes ++ n2 :: fl) with (nodes ++ [n2] ++ fl).
      rewrite app_assoc.
      rewrite IH; rewrite ?Hlen2; [| lia | lia | lia | fold r; lia].
      cbn [bind]. fold r.
      rewrite <- !app_assoc. cbn [app].
      rewrite update_length.
      reflexivity.
Qed.

End BuildLayout.

(* ===================================================================== *)
(** * Build_: the bound of a node encloses the bounds of its triangles *)

Section BuildBounds.
Context {T : Type} `{Arith T} `{Ordered T} `{Indeterminate T}.
Variables ok start : T -> Prop.
Context `{!OrderOn T ok} `{!Absorbs T ok start}.
Variable bounds : list (Bound T).
Hypothesis bounds_ok : Forall (bound_ok ok) bounds.
Hypothesis nodes_ok : forall idx, stray_ok start (node_stray idx).

Lemma range_ok (begin end_ : Z) :
  Forall (bound_ok ok)
         (firstn (Z.to_nat (end_ - begin)) (skipn (Z.to_nat begin) bounds)).
Proof.
  apply Forall_forall. intros b Hin.
  apply In_firstn, In_skipn in Hin.
  revert b Hin. now apply Forall_forall.
Qed.

Lemma range_bound_encloses (g : Stray T) (begin end_ j : Z) (b : Bound T) :
  stray_ok start g ->
  0 <= begin -> begin <= j < end_ ->
  nth_error bounds (Z.to_nat j) = Some b ->
  encloses (range_bound g bounds begin end_) b.
Proof.
  intros Hg Hb Hj E. unfold range_bound.
  apply (fold_Union_encloses_start (ok := ok) (start := start));
    [now apply (bound_start_default (ok := ok)) | apply range_ok |].
  apply nth_error_In with (n := (Z.to_nat j - Z.to_nat begin)%nat).
  rewrite nth_error_firstn.
  destruct (Nat.ltb_spec (Z.to_nat j - Z.to_nat begin) (Z.to_nat (end_ - begin)));
    [| lia].
  rewrite nth_error_skipn.
  replace (Z.to_nat begin + (Z.to_nat j - Z.to_nat begin))%nat with (Z.to_nat j) by lia.
  assumption.
Qed.

(** Every node bound of the built tree encloses the bound of every
    triangle below the node, and every such triangle has a bound. *)
Definition encloses_at (B : Bound T) (j : Z) : Prop :=
  exists b, 0 <= j /\ nth_error bounds (Z.to_nat j) = Some b /\ encloses B b.

Lemma range_encloses_at (g : Stray T) (begin end_ j : Z) :
  stray_ok start g ->
  0 <= begin -> begin <= j < end_ -> end_ <= Z.of_nat (length bounds) ->
  encloses_at (range_bound g bounds begin end_) j.
Proof.
  intros Hg Hb Hj He.
  destruct (nth_error bounds (Z.to_nat j)) as [b|] eqn:E.
  - exists b. split; [lia |]. split; [assumption |].
    eapply range_bound_encloses; eauto.
  - apply nth_error_None in E. lia.
Qed.

Lemma build_tree_encloses (fuel : nat) :
  forall base begin end_,
    0 <= begin <= end_ -> end_ <= Z.of_nat (length bounds) ->
    (Z.to_nat (end_ - begin) < fuel)%nat ->
    tree_all encloses_at (build_tree fuel bounds base begin end_).
Proof.
  induction fuel as [|fuel IH]; intros base begin end_ Hb He Hfuel; [lia |].
  cbn [build_tree].
  destruct (Z.ltb_spec (end_ - begin) LeafNumNodes) as [Hlt | Hge]; cbn [tree_all].
  - intros j Hj. apply range_encloses_at; [apply nodes_ok | lia ..].
  - pose proof (mid_bounds _ _ Hge) as [Hm1 Hm2].
    split; [| split].
    + intros j Hj.
      rewrite !covers_build_tree in Hj by lia.
      apply range_encloses_at; [apply nodes_ok | lia ..].
    + apply IH; lia.
    + apply IH; lia.
Qed.

End BuildBounds.

(* ===================================================================== *)
(** * Intersect_: the traversal of the tree *)

Section Traversal.
Context {T : Type} `{Arith T} `{Ordered T}.
Variable ok : T -> Prop.
Context `{!OrderOn T ok}.
Variable TriData : Type.
Variable TriIntersect : TriData -> Ray T -> T -> T -> option (T * T * T).
Variable BoundIntersect : Bound T -> Ray T -> T -> T -> bool.
Variable self : Accel_BVH T TriData.
Variable ray : Ray T.
Variable minT : T.

Local Abbreviation leaf_loop' := (leaf_loop TriIntersect self ray minT).
Local Abbreviation Intersect_' := (Intersect_ TriIntersect BoundIntersect self ray minT).

(** The traversal of [Intersect_] on the tree. *)
Fixpoint intersect_tree (t : tree T) (s : Locals T) : result (bool * Locals T) :=
  match t with
  | TLeaf b begin end_ =>
      if negb (BoundIntersect b ray minT (maxT s)) then Ok (false, s)
      else leaf_loop' (Z.to_nat (end_ - begin)) begin false s
  | TNode b l r =>
      if negb (BoundIntersect b ray minT (maxT s)) then Ok (false, s)
      else
        '(hit1, s) <- intersect_tree l s ;;
        '(hit2, s) <- intersect_tree r s ;;
        Ok (hit1 || hit2, s)
  end.

(** On the layout of a tree, [Intersect_] is the traversal of the tree. *)
Lemma Intersect_flat (t : tree T) :
  forall (base : Z) (pre post : list (BVHNode T)) (fuel : nat) (s : Locals T),
    nodes_ self = pre ++ flat base t ++ post ->
    base = Z.of_nat (length pre) ->
    (depth t <= fuel)%nat ->
    Intersect_' fuel base s = intersect_tree t s.
Proof.
  induction t as [b bg en | b l IHl r IHr];
    intros base pre post fuel s Hnodes -> Hfuel;
    (destruct fuel as [|fuel]; [cbn [depth] in Hfuel; lia |]);
    cbn [Intersect_ intersect_tree flat depth] in *.
  - rewrite Hnodes. cbn [app]. rewrite at_length. cbn [bind bound isleaf].
    reflexivity.
  - rewrite Hnodes. cbn [app]. rewrite at_length.
    cbn [bind bound isleaf internal_child1 internal_child2 slot1 slot2].
    destruct (negb (BoundIntersect b ray minT (maxT s))); [reflexivity |].
    set (n := mkNode false b _ _) in *.
    rewrite (IHl _ (pre ++ [n])
               (flat (Z.of_nat (length pre) + 1 + Z.of_nat (size l)) r ++ post));
      [ | rewrite Hnodes; cbn [app]; rewrite <- ?app_assoc; cbn [app];
          rewrite <- ?app_assoc; reflexivity
        | rewrite length_app; simpl length; lia
        | lia ].
    destruct (intersect_tree l s) as [[hit1 s1] | f]; cbn [bind]; [| reflexivity].
    rewrite (IHr _ (pre ++ [n] ++ flat (Z.of_nat (length pre) + 1) l) post);
      [ reflexivity
      | rewrite Hnodes; cbn [app]; rewrite <- ?app_assoc; cbn [app];
        rewrite <- ?app_assoc; reflexivity
      | rewrite !length_app, length_flat; simpl length; lia
      | lia ].
Qed.

(** ** The nearest hit *)

Variable maxT0 : T.

Hypothesis maxT0_ok : ok maxT0.

(** The contract of the triangle test of triaccel.h, as far as the
    traversal relies on it: an accepted [t] is a number of the order and
    is not beyond the window; the test is for a fixed hit of the triangle,
    which a wider window still accepts, and which a narrower window
    rejects only when it ends before that hit. *)
Hypothesis Tri_ok :
  forall d r a b u v t, TriIntersect d r a b = Some (u, v, t) -> ok t.
Hypothesis Tri_window :
  forall d r a b u v t, TriIntersect d r a b = Some (u, v, t) -> fle t b.
Hypothesis Tri_widen :
  forall d r a b b' h,
    TriIntersect d r a b' = Some h -> fle b' b -> TriIntersect d r a b = Some h.
Hypothesis Tri_narrow :
  forall d r a b b' u v t,
    TriIntersect d r a b = Some (u, v, t) -> fle b' b ->
    TriIntersect d r a b' = None -> fle b' t.

(** Triangle [j] has the intersection [h = (u, v, t)] inside [minT, maxT0]. *)
Definition hit_at (j : Z) (h : T * T * T) : Prop :=
  exists tri,
    0 <= j /\ nth_error (triangles_ self) (Z.to_nat j) = Some tri
    /\ TriIntersect (tridata tri) ray minT maxT0 = Some h.

(** The invariant of the locals once the triangles in [V] are dealt with:
    the window has only shrunk; either nothing is recorded and the window
    is the initial one, or the recorded triangle has the recorded hit at
    the current [maxT]; and no triangle of [V] has a nearer hit. *)
Definition Inv (V : Z -> Prop) (s : Locals T) : Prop :=
  ok (maxT s)
  /\ fle (maxT s) maxT0
  /\ ((minIndex s = None /\ minB s = None /\ maxT s = maxT0)
      \/ (exists i u v, minIndex s = Some i /\ minB s = Some (Vec2 u v)
                        /\ hit_at i (u, v, maxT s)))
  /\ (forall j u v t, V j -> hit_at j (u, v, t) ->
                      minIndex s <> None /\ fle (maxT s) t).

Lemma Inv_mono (V V' : Z -> Prop) (s : Locals T) :
  (forall j, V j -> V' j) -> Inv V' s -> Inv V s.
Proof.
  intros HV (I0 & I1 & I2 & I3).
  split; [exact I0 |]. split; [exact I1 |]. split; [exact I2 |].
  intros j u v t Hj Hh. eapply I3; eauto.
Qed.

Lemma Inv_init : Inv (fun _ => False) (mkLocals maxT0 None None).
Proof.
  split; [exact maxT0_ok |].
  split; [apply (on_refl (ok := ok)); exact maxT0_ok |]. split; [left; auto |].
  intros j u v t [].
Qed.

Lemma Inv_reject (V W : Z -> Prop) (s : Locals T) :
  Inv V s ->
  (forall j tri, W j -> 0 <= j ->
                 nth_error (triangles_ self) (Z.to_nat j) = Some tri ->
                 TriIntersect (tridata tri) ray minT (maxT s) = None) ->
  Inv (fun j => V j \/ W j) s.
Proof.
  intros (I0 & I1 & I2 & I3) HW.
  split; [assumption |]. split; [assumption |]. split; [assumption |].
  intros j u v t [Hv | Hw] Hh; [eapply I3; eauto |].
  destruct Hh as (tri & Hj & E & Eh).
  specialize (HW j tri Hw Hj E). split.
  - intros Hnone.
    destruct I2 as [(_ & _ & Em) | (i & ? & ? & Hi & _)]; [| congruence].
    rewrite Em in HW. congruence.
  - eapply Tri_narrow; eauto.
Qed.

Lemma Inv_accept (V : Z -> Prop) (s : Locals T) (j : Z) tri u v t :
  Inv V s -> 0 <= j ->
  nth_error (triangles_ self) (Z.to_nat j) = Some tri ->
  TriIntersect (tridata tri) ray minT (maxT s) = Some (u, v, t) ->
  Inv (fun k => V k \/ k = j) (mkLocals t (Some j) (Some (Vec2 u v))).
Proof.
  intros (I0 & I1 & I2 & I3) Hj E Eh.
  assert (Ht : fle t (maxT s)) by (eapply Tri_window; eauto).
  assert (Hok : ok t) by (eapply Tri_ok; eauto).
  assert (Hw : TriIntersect (tridata tri) ray minT maxT0 = Some (u, v, t))
    by (eapply Tri_widen; eauto).
  split; [| split; [| split]]; cbn [maxT minIndex minB].
  - exact Hok.
  - apply (on_trans (ok := ok)) with (b := maxT s); assumption.
  - right. exists j, u, v. repeat split; auto. exists tri. auto.
  - intros k u' v' t' [Hk | ->] Hh.
    + split; [discriminate |].
      destruct (I3 k u' v' t' Hk Hh) as [_ Hle].
      destruct Hh as (tri' & _ & _ & Eh').
      apply (on_trans (ok := ok)) with (b := maxT s);
        [assumption | assumption | eapply Tri_ok; eauto | assumption | assumption].
    + split; [discriminate |].
      destruct Hh as (tri' & _ & E' & Eh').
      rewrite E in E'. injection E' as <-.
      rewrite Hw in Eh'. injection Eh' as _ _ <-.
      now apply (on_refl (ok := ok)).
Qed.

Lemma leaf_loop_Inv (n : nat) :
  forall (i : Z) (hit : bool) (s : Locals T) (V : Z -> Prop),
    0 <= i -> (Z.to_nat i + n <= length (triangles_ self))%nat ->
    Inv V s ->
    exists hit' s',
      leaf_loop' n i hit s = Ok (hit', s')
      /\ Inv (fun j => V j \/ i <= j < i + Z.of_nat n) s'
      /\ ((s' = s /\ hit' = hit) \/ (hit' = true /\ minIndex s' <> None)).
Proof.
  induction n as [|n IH]; intros i hit s V Hi Hlen HI; cbn [leaf_loop].
  - exists hit, s. split; [reflexivity |]. split; [| left; auto].
    eapply Inv_mono; [| exact HI]. intros j [? | ?]; [assumption | lia].
  - destruct (nth_error (triangles_ self) (Z.to_nat i)) as [tri|] eqn:E;
      [| apply nth_error_None in E; lia].
    assert (Hr : read (triangles_ self) i = Ok tri) by (apply read_Ok; auto).
    rewrite Hr. cbn [bind].
    destruct (TriIntersect (tridata tri) ray minT (maxT s))
      as [[[u v] t]|] eqn:Eh.
    + pose proof (Inv_accept HI Hi E Eh) as HI'.
      destruct (IH (i + 1) true _ _ ltac:(lia) ltac:(lia) HI')
        as (hit' & s' & Hrun & HI'' & Hflag).
      exists hit', s'. split; [assumption |]. split.
      * eapply Inv_mono; [| exact HI'']. cbn beta.
        intros j [? | ?]; [auto |].
        assert (j = i \/ i + 1 <= j < i + 1 + Z.of_nat n) as [? | ?] by lia; auto.
      * right. destruct Hflag as [[-> ->] | ?]; [| assumption].
        split; [reflexivity | discriminate].
    + assert (HI' : Inv (fun k => V k \/ k = i) s).
      { apply Inv_reject; [assumption |].
        intros j tri' -> _ E'. rewrite E in E'. now injection E' as <-. }
      destruct (IH (i + 1) hit _ _ ltac:(lia) ltac:(lia) HI')
        as (hit' & s' & Hrun & HI'' & Hflag).
      exists hit', s'. split; [assumption |]. split; [| assumption].
      eapply Inv_mono; [| exact HI'']. cbn beta.
        intros j [? | ?]; [auto |].
        assert (j = i \/ i + 1 <= j < i + 1 + Z.of_nat n) as [? | ?] by lia; auto.
Qed.

(** What the box test must allow to prune: a ray that misses the box
    misses the triangle. *)
Definition prunes (B : Bound T) (j : Z) : Prop :=
  0 <= j < Z.of_nat (length (triangles_ self))
  /\ forall tri m,
       nth_error (triangles_ self) (Z.to_nat j) = Some tri ->
       BoundIntersect B ray minT m = false ->
       TriIntersect (tridata tri) ray minT m = None.

Lemma intersect_tree_Inv (t : tree T) :
  tree_all prunes t ->
  forall (s : Locals T) (V : Z -> Prop),
    Inv V s ->
    exists hit' s',
      intersect_tree t s = Ok (hit', s')
      /\ Inv (fun j => V j \/ covers t j) s'
      /\ ((s' = s /\ hit' = false) \/ (hit' = true /\ minIndex s' <> None)).
Proof.
  induction t as [b bg en | b l IHl r IHr]; intros Hall s V HI;
    cbn [intersect_tree tree_all covers] in *.
  - destruct (BoundIntersect b ray minT (maxT s)) eqn:Eb; cbn [negb].
    + destruct (Z.le_gt_cases en bg) as [Hle | Hgt].
      * replace (Z.to_nat (en - bg)) with O by lia. cbn [leaf_loop].
        exists false, s. split; [reflexivity |]. split; [| left; auto].
        eapply Inv_mono; [| exact HI]. intros j [? | ?]; [assumption | lia].
      * destruct (Hall bg ltac:(lia)) as [Hbg _].
        destruct (Hall (en - 1) ltac:(lia)) as [Hen _].
        destruct (@leaf_loop_Inv (Z.to_nat (en - bg)) bg false s V
                    ltac:(lia) ltac:(lia) HI)
          as (hit' & s' & Hrun & HI' & Hflag).
        exists hit', s'. split; [assumption |]. split; [| assumption].
        eapply Inv_mono; [| exact HI']. cbn beta.
        intros j [? | ?]; [auto | right; lia].
    + exists false, s. split; [reflexivity |]. split; [| left; auto].
      apply Inv_reject; [assumption |].
      intros j tri Hj _ E. destruct (Hall j Hj) as [_ Hp]. eapply Hp; eauto.
  - destruct Hall as (Hroot & Hl & Hr).
    destruct (BoundIntersect b ray minT (maxT s)) eqn:Eb; cbn [negb].
    + destruct (IHl Hl s V HI) as (h1 & s1 & Hrun1 & HI1 & Hflag1).
      destruct (IHr Hr s1 _ HI1) as (h2 & s2 & Hrun2 & HI2 & Hflag2).
      rewrite Hrun1. cbn [bind]. rewrite Hrun2. cbn [bind].
      exists (h1 || h2), s2. split; [reflexivity |]. split.
      * eapply Inv_mono; [| exact HI2]. cbn beta. tauto.
      * destruct Hflag2 as [[-> ->] | [-> Hrec]].
        -- rewrite orb_false_r. assumption.
        -- right. rewrite orb_true_r. auto.
    + exists false, s. split; [reflexivity |]. split; [| left; auto].
      apply Inv_reject; [assumption |].
      intros j tri Hj _ E. destruct (Hroot j Hj) as [_ Hp]. eapply Hp; eauto.
Qed.

(** The traversal from the root of a tree that covers every triangle:
    when some triangle has an intersection in the window, the locals end
    with a triangle whose own intersection is at the final [maxT], and no
    triangle has an intersection nearer than that. *)
Lemma traversal_nearest (t : tree T) :
  nodes_ self = flat 0 t ->
  tree_all prunes t ->
  (forall j, 0 <= j < Z.of_nat (length (triangles_ self)) -> covers t j) ->
  forall j0 h0, hit_at j0 h0 ->
    exists i u v t',
      Intersect_' (S (length (nodes_ self))) 0 (mkLocals maxT0 None None)
      = Ok (true, mkLocals t' (Some i) (Some (Vec2 u v)))
      /\ hit_at i (u, v, t')
      /\ forall j u' v' t'', hit_at j (u', v', t'') -> fle t' t''.
Proof.
  intros Hnodes Hall Hcov j0 [[u0 v0] t0] Hh0.
  rewrite (@Intersect_flat t 0 [] [] _ _);
    [ | rewrite app_nil_r; exact Hnodes | reflexivity
      | rewrite Hnodes, length_flat; pose proof (depth_le_size t); lia ].
  destruct (intersect_tree_Inv t Hall Inv_init)
    as (hit' & s' & Hrun & (I0 & I1 & I2 & I3) & Hflag).
  assert (Hin : forall j h, hit_at j h -> covers t j).
  { intros j h (tri & Hj & E & _). apply Hcov.
    assert (Z.to_nat j < length (triangles_ self))%nat
      by (apply nth_error_Some; congruence).
    lia. }
  destruct (I3 j0 u0 v0 t0 (or_intror (Hin _ _ Hh0)) Hh0) as [Hrec _].
  destruct I2 as [(Hnone & _) | (i & u & v & Hi & Hb & Hhit)]; [contradiction |].
  exists i, u, v, (maxT s'). split; [| split].
  - rewrite Hrun. destruct Hflag as [[-> _] | [-> _]]; [discriminate |].
    destruct s' as [m mi mb]; cbn in *. now subst.
  - assumption.
  - intros j u' v' t'' Hh. eapply I3; [right; eapply Hin; eauto | eauto].
Qed.

(** When no triangle has an intersection in the window, the traversal
    reports no hit. *)
Lemma traversal_miss (t : tree T) :
  nodes_ self = flat 0 t ->
  tree_all prunes t ->
  (forall j h, ~ hit_at j h) ->
  exists s',
    Intersect_' (S (length (nodes_ self))) 0 (mkLocals maxT0 None None)
    = Ok (false, s').
Proof.
  intros Hnodes Hall Hno.
  rewrite (@Intersect_flat t 0 [] [] _ _);
    [ | rewrite app_nil_r; exact Hnodes | reflexivity
      | rewrite Hnodes, length_flat; pose proof (depth_le_size t); lia ].
  destruct (intersect_tree_Inv t Hall Inv_init)
    as (hit' & s' & Hrun & (I0 & I1 & I2 & I3) & Hflag).
  exists s'. rewrite Hrun.
  destruct Hflag as [[_ ->] | [_ Hrec]]; [reflexivity |].
  destruct I2 as [(Hnone & _) | (i & u & v & _ & _ & Hhit)]; [contradiction |].
  exfalso. eapply Hno; eauto.
Qed.

End Traversal.

(* ===================================================================== *)
(** * Build: the triangles and their bounds *)

Section Create.
Context {T : Type} `{Arith T} `{Ordered T} `{Indeterminate T}.
Variable TriData : Type.
Variable Load : TVec3 T -> TVec3 T -> TVec3 T -> TriData.

(** Triangle [tri] and bound [b] are what one iteration of the face loop
    pushes for a face of mesh [m] of primitive [prim], the [i]-th of the
    scene; [k] is the index in [bounds_] at which the bound is pushed. *)
Definition made_from (prim : Primitive T) (m : TriangleMesh T) (i : Z)
           (tri : TriAccelTriangle TriData) (b : Bound T) : Prop :=
  exists k p1 p2 p3,
    face_vertices prim m (faceIndex tri) = Ok (p1, p2, p3)
    /\ primIndex tri = i
    /\ tridata tri = Load p1 p2 p3
    /\ b = triangle_bound (bound_stray k) p1 p2 p3.

Definition made_in (scene : Scene T)
           (tri : TriAccelTriangle TriData) (b : Bound T) : Prop :=
  exists prim m,
    read scene (primIndex tri) = Ok prim
    /\ mesh prim = Some m
    /\ made_from prim m (primIndex tri) tri b.

Lemma face_loop_spec (prim : Primitive T) (m : TriangleMesh T) (i : Z) (n : nat) :
  forall j tris bounds tris' bounds',
    face_loop Load prim m i n j tris bounds = Ok (tris', bounds') ->
    exists nt nb,
      tris' = tris ++ nt /\ bounds' = bounds ++ nb
      /\ length nt = n
      /\ Forall2 (made_from prim m i) nt nb.
Proof.
  induction n as [|n IH]; intros j tris bounds tris' bounds' Hrun;
    cbn [face_loop] in Hrun.
  - injection Hrun as <- <-. exists [], []. rewrite !app_nil_r. auto.
  - destruct (face_vertices prim m j) as [[[p1 p2] p3]|f] eqn:Ev;
      cbn [bind] in Hrun; [| discriminate].
    apply IH in Hrun as (nt & nb & -> & -> & Hlen & Hall).
    exists (mkTri j i (Load p1 p2 p3) :: nt),
           (triangle_bound (bound_stray (Z.of_nat (length bounds))) p1 p2 p3 :: nb).
    rewrite <- !app_assoc. repeat split; [simpl; lia |].
    constructor; [| assumption].
    exists (Z.of_nat (length bounds)), p1, p2, p3. cbn. auto.
Qed.

Lemma prim_loop_spec (prims : list (Primitive T)) :
  forall (pre : list (Primitive T)) i tris bounds tris' bounds',
    i = Z.of_nat (length pre) ->
    prim_loop Load prims i tris bounds = Ok (tris', bounds') ->
    exists nt nb,
      tris' = tris ++ nt /\ bounds' = bounds ++ nb
      /\ Forall2 (made_in (pre ++ prims)) nt nb.
Proof.
  induction prims as [|prim rest IH];
    intros pre i tris bounds tris' bounds' Hi Hrun; cbn [prim_loop] in Hrun.
  - injection Hrun as <- <-. exists [], []. rewrite !app_nil_r. auto.
  - assert (Hnext : i + 1 = Z.of_nat (length (pre ++ [prim])))
      by (rewrite length_app; simpl; lia).
    assert (Hscene : (pre ++ [prim]) ++ rest = pre ++ prim :: rest)
      by (now rewrite <- app_assoc).
    destruct (mesh prim) as [m|] eqn:Em.
    + destruct (face_loop Load prim m i (Z.to_nat (NumFaces m)) 0 tris bounds)
        as [[tris1 bounds1]|f] eqn:Ef; cbn [bind] in Hrun; [| discriminate].
      apply face_loop_spec in Ef as (nt1 & nb1 & -> & -> & _ & Hall1).
      apply (IH (pre ++ [prim])) in Hrun as (nt2 & nb2 & -> & -> & Hall2);
        [| assumption].
      rewrite Hscene in Hall2.
      exists (nt1 ++ nt2), (nb1 ++ nb2). rewrite !app_assoc.
      repeat split. apply Forall2_app; [| assumption].
      eapply Forall2_impl; [| exact Hall1].
      intros tri b Hm. exists prim, m.
      destruct Hm as (k & p1 & p2 & p3 & Hv & Hp & Hd & Hb).
      split; [| split; [assumption |]].
      * rewrite Hp, Hi. apply read_length.
      * exists k, p1, p2, p3. rewrite Hp. auto.
    + apply (IH (pre ++ [prim])) in Hrun as (nt2 & nb2 & -> & -> & Hall2);
        [| assumption].
      rewrite Hscene in Hall2. eauto.
Qed.

(** Every triangle that "Create triaccels" appends comes with its bound. *)
Lemma CreateTriaccels_spec (scene : Scene T) tris tris' bounds :
  CreateTriaccels Load scene tris = Ok (tris', bounds) ->
  exists nt, tris' = tris ++ nt /\ Forall2 (made_in scene) nt bounds.
Proof.
  intros Hrun. apply (@prim_loop_spec scene []) in Hrun; [| reflexivity].
  destruct Hrun as (nt & nb & -> & -> & Hall). eauto.
Qed.

(** ** Scenes whose indices are in range *)

(** The vertex index [i] is in range of the position array [ps]. *)
Definition vertex_ok (ps : list T) (i : Z) : Prop :=
  0 <= i /\ 3 * i + 2 < Z.of_nat (length ps) /\ 3 * i + 2 < 4294967296.

(** Face [j] of mesh [m] is in range of the face array, and its three
    vertex indices are in range of the position array. *)
Definition face_ok (m : TriangleMesh T) (j : Z) : Prop :=
  3 * j + 2 <= INT_MAX
  /\ 3 * j + 2 < Z.of_nat (length (Faces m))
  /\ forall k i, 3 * j <= k <= 3 * j + 2 ->
                 nth_error (Faces m) (Z.to_nat k) = Some i ->
                 vertex_ok (Positions m) i.

Definition mesh_ok (m : TriangleMesh T) : Prop :=
  forall j, 0 <= j < NumFaces m -> face_ok m j.

Definition scene_ok (scene : Scene T) : Prop :=
  forall prim m, In prim scene -> mesh prim = Some m -> mesh_ok m.

(** The number of faces Build enumerates. *)
Fixpoint num_faces (scene : Scene T) : Z :=
  match scene with
  | [] => 0
  | prim :: rest =>
      match mesh prim with
      | Some m => Z.max 0 (NumFaces m) + num_faces rest
      | None => num_faces rest
      end
  end.

Lemma vertex_Ok (prim : Primitive T) (ps : list T) (i : Z) :
  vertex_ok ps i -> exists p, vertex prim ps i = Ok p.
Proof.
  intros (Hi & Hlen & Hu). unfold vertex.
  rewrite !u32_small by lia.
  destruct (@read_in_range _ ps (3 * i) ltac:(lia)) as [a ->].
  destruct (@read_in_range _ ps (3 * i + 1) ltac:(lia)) as [b ->].
  destruct (@read_in_range _ ps (3 * i + 2) ltac:(lia)) as [c ->].
  cbn [bind]. eauto.
Qed.

Lemma face_vertices_Ok (prim : Primitive T) (m : TriangleMesh T) (j : Z) :
  0 <= j -> face_ok m j -> exists p, face_vertices prim m j = Ok p.
Proof.
  intros Hj (Hint & Hlen & Hv). unfold face_vertices.
  rewrite !int_val_small by lia. cbn [bind].
  destruct (@read_in_range _ (Faces m) (3 * j) ltac:(lia)) as [i1 E1].
  destruct (@read_in_range _ (Faces m) (3 * j + 1) ltac:(lia)) as [i2 E2].
  destruct (@read_in_range _ (Faces m) (3 * j + 2) ltac:(lia)) as [i3 E3].
  rewrite E1, E2, E3. cbn [bind].
  apply read_Ok in E1 as [_ E1], E2 as [_ E2], E3 as [_ E3].
  destruct (@vertex_Ok prim _ _ (Hv (3 * j) _ ltac:(lia) E1)) as [p1 ->].
  destruct (@vertex_Ok prim _ _ (Hv (3 * j + 1) _ ltac:(lia) E2)) as [p2 ->].
  destruct (@vertex_Ok prim _ _ (Hv (3 * j + 2) _ ltac:(lia) E3)) as [p3 ->].
  cbn [bind]. eauto.
Qed.

Lemma face_loop_Ok (prim : Primitive T) (m : TriangleMesh T) (i : Z) (n : nat) :
  forall j tris bounds,
    0 <= j -> (forall j', j <= j' < j + Z.of_nat n -> face_ok m j') ->
    exists tris' bounds',
      face_loop Load prim m i n j tris bounds = Ok (tris', bounds').
Proof.
  induction n as [|n IH]; intros j tris bounds Hj Hok; cbn [face_loop].
  - eauto.
  - destruct (@face_vertices_Ok prim m j Hj (Hok j ltac:(lia)))
      as [[[p1 p2] p3] ->].
    cbn [bind]. apply IH; [lia |]. intros j' Hj'. apply Hok. lia.
Qed.

Lemma prim_loop_Ok (prims : list (Primitive T)) :
  forall i tris bounds,
    scene_ok prims ->
    exists tris' bounds', prim_loop Load prims i tris bounds = Ok (tris', bounds').
Proof.
  induction prims as [|prim rest IH]; intros i tris bounds Hok; cbn [prim_loop].
  - eauto.
  - assert (Hrest : scene_ok rest).
    { intros p m Hin. apply Hok. now right. }
    destruct (mesh prim) as [m|] eqn:Em.
    + assert (Hm : mesh_ok m) by (eapply Hok; [now left | assumption]).
      destruct (@face_loop_Ok prim m i (Z.to_nat (NumFaces m)) 0 tris bounds
                  ltac:(lia)) as (tris1 & bounds1 & ->).
      { intros j Hj. apply Hm. lia. }
      cbn [bind]. apply IH. assumption.
    + apply IH. assumption.
Qed.

Lemma prim_loop_length (prims : list (Primitive T)) :
  forall i tris bounds tris' bounds',
    prim_loop Load prims i tris bounds = Ok (tris', bounds') ->
    Z.of_nat (length tris') = Z.of_nat (length tris) + num_faces prims
    /\ Z.of_nat (length bounds') = Z.of_nat (length bounds) + num_faces prims.
Proof.
  induction prims as [|prim rest IH]; intros i tris bounds tris' bounds' Hrun;
    cbn [prim_loop num_faces] in *.
  - injection Hrun as <- <-. lia.
  - destruct (mesh prim) as [m|] eqn:Em.
    + destruct (face_loop Load prim m i (Z.to_nat (NumFaces m)) 0 tris bounds)
        as [[tris1 bounds1]|f] eqn:Ef; cbn [bind] in Hrun; [| discriminate].
      apply face_loop_spec in Ef as (nt1 & nb1 & -> & -> & Hlen & Hall).
      apply Forall2_length in Hall.
      apply IH in Hrun. rewrite !length_app in Hrun. lia.
    + now apply IH in Hrun.
Qed.

End Create.

(* ===================================================================== *)
(** * Build on a new accelerator *)

Section BuildFresh.
Context {T : Type} `{Arith T} `{Ordered T} `{Indeterminate T}.
Variable TriData : Type.
Variable Load : TVec3 T -> TVec3 T -> TVec3 T -> TriData.

(** The tree of the nodes of an accelerator built over [n] triangles with
    the bounds [bounds]. *)
Definition built_tree (bounds : list (Bound T)) (n : nat) : tree T :=
  build_tree (Build_fuel 0 (Z.of_nat n)) bounds 0 0 (Z.of_nat n).

Lemma BuildBVH_flat (bounds : list (Bound T))
      (triangles : list (TriAccelTriangle TriData)) :
  length bounds = length triangles ->
  2 * Z.of_nat (length triangles) <= INT_MAX ->
  BuildBVH bounds triangles = Ok (flat 0 (built_tree bounds (length triangles))).
Proof.
  intros Hlen Hsize. unfold BuildBVH, built_tree.
  rewrite to_int_small by lia.
  pose proof (size_build_tree (Build_fuel 0 (Z.of_nat (length triangles)))
                bounds 0 0 (Z.of_nat (length triangles))) as Hs.
  rewrite Build_flat; [reflexivity | lia | rewrite Hlen; lia | unfold Build_fuel; lia |].
  simpl length. change (Z.of_nat 0) with 0. unfold INT_MAX in *. lia.
Qed.

Lemma CreateTriaccels_length (scene : Scene T) tris bounds :
  CreateTriaccels Load scene [] = Ok (tris, bounds) ->
  length bounds = length tris /\ Z.of_nat (length tris) = num_faces scene.
Proof.
  intros Hrun. apply prim_loop_length in Hrun. simpl length in Hrun. lia.
Qed.

(** Build on a new accelerator, as long as the node indices fit in an
    [int]: the triangles and bounds of "Create triaccels", and the layout
    of the tree over them. *)
Lemma Build_fresh (scene : Scene T) tris bounds :
  CreateTriaccels Load scene [] = Ok (tris, bounds) ->
  2 * Z.of_nat (length tris) <= INT_MAX ->
  Build Load scene Accel_new
  = Ok (true, mkAccel tris (flat 0 (built_tree bounds (length tris)))).
Proof.
  intros Hrun Hsize. unfold Build. cbn [triangles_ Accel_new].
  rewrite Hrun. cbn [bind].
  destruct (CreateTriaccels_length _ Hrun) as [Hlen _].
  rewrite BuildBVH_flat by assumption. reflexivity.
Qed.

Lemma Build_fresh_inv (scene : Scene T) flag a :
  Build Load scene Accel_new = Ok (flag, a) ->
  exists bounds, CreateTriaccels Load scene [] = Ok (triangles_ a, bounds).
Proof.
  unfold Build. cbn [triangles_ Accel_new].
  destruct (CreateTriaccels Load scene []) as [[tris bounds]|f];
    cbn [bind]; [| discriminate].
  destruct (BuildBVH bounds tris) as [nodes|f]; cbn [bind]; [| discriminate].
  intros [= <- <-]. eauto.
Qed.

(** Build has one [return], and it returns [true]. *)
Lemma Build_flag (scene : Scene T) self flag a :
  Build Load scene self = Ok (flag, a) -> flag = true.
Proof.
  unfold Build.
  destruct (CreateTriaccels Load scene (triangles_ self)) as [[tris bounds]|f];
    cbn [bind]; [| discriminate].
  destruct (BuildBVH bounds tris) as [nodes|f]; cbn [bind]; [| discriminate].
  now intros [= <- _].
Qed.

(** Build appends to the triangles the accelerator already holds. *)
Lemma Build_keeps_triangles (scene : Scene T) self flag a :
  Build Load scene self = Ok (flag, a) ->
  exists nt, triangles_ a = triangles_ self ++ nt.
Proof.
  unfold Build.
  destruct (CreateTriaccels Load scene (triangles_ self))
    as [[tris bounds]|f] eqn:Hrun; cbn [bind]; [| discriminate].
  destruct (BuildBVH bounds tris) as [nodes|f]; cbn [bind]; [| discriminate].
  intros [= _ <-]. cbn [triangles_].
  apply CreateTriaccels_spec in Hrun as (nt & -> & _). eauto.
Qed.

End BuildFresh.

(* ===================================================================== *)
(** * The nodes a node reaches *)

(** [reach nodes idx j]: from the node at index [idx], following child
    indices, a leaf is reached whose range holds triangle [j]. *)
Inductive reach {T : Type} (nodes : list (BVHNode T)) : Z -> Z -> Prop :=
| reach_leaf idx n j :
    at_ nodes idx = Ok n -> isleaf n = true ->
    leaf_begin n <= j < leaf_end n ->
    reach nodes idx j
| reach_child1 idx n j :
    at_ nodes idx = Ok n -> isleaf n = false ->
    reach nodes (internal_child1 n) j ->
    reach nodes idx j
| reach_child2 idx n j :
    at_ nodes idx = Ok n -> isleaf n = false ->
    reach nodes (internal_child2 n) j ->
    reach nodes idx j.

Section Reach.
Context {T : Type} `{Arith T} `{Ordered T}.

Lemma tree_all_root (P : Bound T -> Z -> Prop) (t : tree T) (j : Z) :
  tree_all P t -> covers t j -> P (root_bound t) j.
Proof.
  destruct t as [b bg en | b l r]; cbn.
  - auto.
  - intros (Hroot & _ & _) Hc. auto.
Qed.

(** On the layout of a tree, what the root reaches the tree covers. *)
Lemma flat_reach_covers (t : tree T) :
  forall (base : Z) (pre post nodes : list (BVHNode T)) (j : Z),
    nodes = pre ++ flat base t ++ post ->
    base = Z.of_nat (length pre) ->
    reach nodes base j -> covers t j.
Proof.
  induction t as [b bg en | b l IHl r IHr];
    intros base pre post nodes j Hnodes Hbase Hreach; cbn [flat covers] in *.
  - assert (Hat : at_ nodes base = Ok (mkNode true b bg en))
      by (subst; cbn [app]; apply at_length).
    inversion Hreach as [? n ? Hn Hleaf Hj | ? n ? Hn Hleaf _ | ? n ? Hn Hleaf _];
      subst idx j0; rewrite Hat in Hn; injection Hn as <-;
      cbn in *; [assumption | discriminate | discriminate].
  - set (root := mkNode false b (base + 1) (base + 1 + Z.of_nat (size l))) in *.
    assert (Hat : at_ nodes base = Ok root)
      by (subst nodes base; cbn [app]; apply at_length).
    inversion Hreach as [? n ? Hn Hleaf Hj | ? n ? Hn Hleaf Hc | ? n ? Hn Hleaf Hc];
      subst idx j0; rewrite Hat in Hn; injection Hn as <-;
      cbn [isleaf root internal_child1 internal_child2 slot1 slot2] in *.
    + discriminate.
    + left. eapply (IHl (base + 1) (pre ++ [root])); [| | exact Hc].
      * rewrite Hnodes. cbn [app]. rewrite <- ?app_assoc. cbn [app].
        rewrite <- ?app_assoc. reflexivity.
      * rewrite length_app. simpl length. lia.
    + right.
      eapply (IHr _ (pre ++ [root] ++ flat (base + 1) l)); [| | exact Hc].
      * rewrite Hnodes. cbn [app]. rewrite <- ?app_assoc. cbn [app].
        rewrite <- ?app_assoc. reflexivity.
      * rewrite !length_app, length_flat. simpl length. lia.
Qed.

(** Every node of the layout is the root of the layout of a subtree. *)
Lemma flat_subtree (t : tree T) :
  forall (base : Z) (k : nat) (n : BVHNode T),
    nth_error (flat base t) k = Some n ->
    exists t' pre post,
      flat base t = pre ++ flat (base + Z.of_nat k) t' ++ post
      /\ length pre = k
      /\ bound n = root_bound t'
      /\ forall P, tree_all P t -> tree_all P t'.
Proof.
  induction t as [b bg en | b l IHl r IHr]; intros base k n Hn.
  - destruct k as [|k]; cbn in Hn.
    + injection Hn as <-. exists (TLeaf b bg en), [], [].
      split; [reflexivity |]. split; [reflexivity |]. split; [reflexivity | auto].
    + now rewrite nth_error_nil in Hn.
  - destruct k as [|k].
    + cbn in Hn. injection Hn as <-. exists (TNode b l r), [], [].
      rewrite Z.add_0_r, app_nil_r. cbn [app].
      split; [reflexivity |]. split; [reflexivity |]. split; [reflexivity | auto].
    + cbn [flat nth_error] in Hn.
      set (root := mkNode false b (base + 1) (base + 1 + Z.of_nat (size l))) in *.
      destruct (Nat.lt_ge_cases k (size l)) as [Hk | Hk].
      * rewrite nth_error_app1 in Hn by (now rewrite length_flat).
        destruct (IHl _ _ _ Hn) as (t' & pre & post & Hflat & Hlen & Hb & Hall).
        exists t', (root :: pre), (post ++ flat (base + 1 + Z.of_nat (size l)) r).
        split; [| split; [| split]].
        -- cbn [flat]. fold root. rewrite Hflat.
           replace (base + Z.of_nat (S k)) with (base + 1 + Z.of_nat k) by lia.
           cbn [app]. rewrite <- !app_assoc. reflexivity.
        -- simpl. lia.
        -- assumption.
        -- intros P (_ & Hl & _). auto.
      * rewrite nth_error_app2 in Hn by (now rewrite length_flat).
        rewrite length_flat in Hn.
        destruct (IHr _ _ _ Hn) as (t' & pre & post & Hflat & Hlen & Hb & Hall).
        exists t', (root :: flat (base + 1) l ++ pre), post.
        split; [| split; [| split]].
        -- cbn [flat]. fold root. rewrite Hflat.
           replace (base + Z.of_nat (S k))
             with (base + 1 + Z.of_nat (size l) + Z.of_nat (k - size l)) by lia.
           cbn [app]. rewrite <- !app_assoc. reflexivity.
        -- simpl. rewrite length_app, length_flat. lia.
        -- assumption.
        -- intros P (_ & _ & Hr). auto.
Qed.

(** What holds of every node of the tree and the triangles the node
    covers, holds of every node of the layout and the triangles the node
    reaches. *)
Lemma flat_reach_all (P : Bound T -> Z -> Prop) (t : tree T)
      (idx j : Z) (n : BVHNode T) :
  tree_all P t ->
  at_ (flat 0 t) idx = Ok n ->
  reach (flat 0 t) idx j ->
  P (bound n) j.
Proof.
  intros Hall Hat Hreach.
  apply at_Ok in Hat as [Hidx Hn].
  destruct (flat_subtree _ _ _ Hn) as (t' & pre & post & Hflat & Hlen & Hb & Hsub).
  rewrite Hb. apply tree_all_root; [auto |].
  eapply flat_reach_covers; [exact Hflat | lia |].
  replace (0 + Z.of_nat (Z.to_nat idx)) with idx by lia. assumption.
Qed.

End Reach.

(* ===================================================================== *)
(** * The order of IEEE numbers *)

Module FloatOrder.

(** The place of a number in the order that [SFcompare] decides: the
    class (negative infinity, negative, zero, positive, positive
    infinity), then exponent and mantissa. *)
Definition key (f : spec_float) : Z * Z * Z :=
  match f with
  | S754_nan => (0, 0, 0)
  | S754_infinity true => (-2, 0, 0)
  | S754_finite true m e => (-1, - e, - Zpos m)
  | S754_zero _ => (0, 0, 0)
  | S754_finite false m e => (1, e, Zpos m)
  | S754_infinity false => (2, 0, 0)
  end.

Definition lex_le (a b : Z * Z * Z) : Prop :=
  let '(a1, a2, a3) := a in
  let '(b1, b2, b3) := b in
  a1 < b1 \/ (a1 = b1 /\ (a2 < b2 \/ (a2 = b2 /\ a3 <= b3))).

Lemma SFleb_nan_free (a b : spec_float) :
  SFleb a b = true -> nan_free a = true /\ nan_free b = true.
Proof. destruct a, b; cbn; try discriminate; auto. Qed.

Lemma SFleb_key (a b : spec_float) :
  nan_free a = true -> nan_free b = true ->
  (SFleb a b = true <-> lex_le (key a) (key b)).
Proof.
  destruct a as [[|] | [|] | | [|] ma ea], b as [[|] | [|] | | [|] mb eb];
    intros Ha Hb; try discriminate;
    unfold SFleb, SFcompare, key, lex_le;
    try (split; [intros _; lia | reflexivity]);
    try (split; [discriminate | intros; lia]);
    change (Pos.compare_cont Eq ma mb) with (Pos.compare ma mb);
    destruct (Z.compare_spec ea eb); destruct (Pos.compare_spec ma mb);
    cbn [CompOpp];
    try (split; [intros _; lia | reflexivity]);
    try (split; [discriminate | intros; lia]).
Qed.

Lemma SFleb_refl (a : spec_float) : nan_free a = true -> SFleb a a = true.
Proof.
  intros Ha. apply SFleb_key; [assumption | assumption |].
  unfold lex_le. destruct (key a) as [[a1 a2] a3]. lia.
Qed.

Lemma SFleb_trans (a b c : spec_float) :
  SFleb a b = true -> SFleb b c = true -> SFleb a c = true.
Proof.
  intros Hab Hbc.
  destruct (SFleb_nan_free _ _ Hab) as [Ha Hb].
  destruct (SFleb_nan_free _ _ Hbc) as [_ Hc].
  apply SFleb_key in Hab; [| assumption | assumption].
  apply SFleb_key in Hbc; [| assumption | assumption].
  apply SFleb_key; [assumption | assumption |].
  unfold lex_le in *.
  destruct (key a) as [[a1 a2] a3], (key b) as [[b1 b2] b3],
           (key c) as [[c1 c2] c3].
  lia.
Qed.

Lemma SFcompare_swap (a b : spec_float) :
  SFcompare b a = option_map CompOpp (SFcompare a b).
Proof.
  destruct a as [[|] | [|] | | [|] ma ea], b as [[|] | [|] | | [|] mb eb];
    try reflexivity;
    unfold SFcompare;
    change (Pos.compare_cont Eq mb ma) with (Pos.compare mb ma);
    change (Pos.compare_cont Eq ma mb) with (Pos.compare ma mb);
    rewrite (Z.compare_antisym ea eb), (Pos.compare_antisym ma mb);
    destruct (ea ?= eb); destruct (ma ?= mb)%positive; reflexivity.
Qed.

Lemma SFcompare_nan_free (a b : spec_float) :
  nan_free a = true -> nan_free b = true -> SFcompare a b <> None.
Proof. destruct a, b; cbn; intros; try discriminate. Qed.

Lemma SFltb_leb (a b : spec_float) : SFltb a b = true -> SFleb a b = true.
Proof.
  unfold SFltb, SFleb. destruct (SFcompare a b) as [[| |]|]; auto.
Qed.

(** Of two numbers, the second is below the first or the first is not
    above the second. *)
Lemma SFltb_false_leb (a b : spec_float) :
  nan_free a = true -> nan_free b = true ->
  SFltb b a = false -> SFleb a b = true.
Proof.
  intros Ha Hb. pose proof (SFcompare_nan_free _ _ Ha Hb) as Hc.
  unfold SFltb, SFleb. rewrite SFcompare_swap.
  destruct (SFcompare a b) as [[| |]|]; cbn; auto; contradiction.
Qed.

End FloatOrder.

(** The numbers of binary32, NaN excluded, obey the order laws that the
    enclosure of boxes needs, with the minimum and maximum of
    [Ordered_float]. *)
#[export] Instance OrderOn_float : OrderOn float (fun f => nan_free f = true).
Proof.
  constructor.
  - reflexivity.
  - reflexivity.
  - intros a b Ha Hb. cbn. destruct (SFltb a b); assumption.
  - intros a b Ha Hb. cbn. destruct (SFltb b a); assumption.
  - intros a Ha. now apply FloatOrder.SFleb_refl.
  - intros a b c _ _ _. apply FloatOrder.SFleb_trans.
  - intros a b Ha Hb. cbn. destruct (SFltb a b) eqn:E.
    + now apply FloatOrder.SFleb_refl.
    + now apply FloatOrder.SFltb_false_leb.
  - intros a b Ha Hb. cbn. destruct (SFltb a b) eqn:E.
    + now apply FloatOrder.SFltb_leb.
    + now apply FloatOrder.SFleb_refl.
  - intros a b Ha Hb. cbn. destruct (SFltb b a) eqn:E.
    + now apply FloatOrder.SFleb_refl.
    + now apply FloatOrder.SFltb_false_leb.
  - intros a b Ha Hb. cbn. destruct (SFltb b a) eqn:E.
    + now apply FloatOrder.SFltb_leb.
    + now apply FloatOrder.SFleb_refl.
Qed.

(** With the minimum and maximum of [Ordered_float], the first Union
    absorbs every start value, NaN too. *)
#[export] Instance Absorbs_float :
  Absorbs float (fun f => nan_free f = true) (fun _ => True).
Proof.
  constructor.
  - exact I.
  - exact I.
  - intros g a _ Ha. cbn. destruct (SFltb g a) eqn:E.
    + apply FloatOrder.SFltb_leb in E.
      split; [exact (proj1 (FloatOrder.SFleb_nan_free _ _ E)) | exact E].
    + split; [assumption | now apply FloatOrder.SFleb_refl].
  - intros g a _ Ha. cbn. destruct (SFltb a g) eqn:E.
    + apply FloatOrder.SFltb_leb in E.
      split; [exact (proj2 (FloatOrder.SFleb_nan_free _ _ E)) | exact E].
    + split; [assumption | now apply FloatOrder.SFleb_refl].
Qed.

(** With the minimum and maximum of [Ordered_float_std], the numbers obey
    the same laws, and the first Union absorbs the start values that are
    not NaN (by [Absorbs_ok]). *)
Lemma OrderOn_float_std :
  @OrderOn float Arith_float Ordered_float_std (fun f => nan_free f = true).
Proof.
  constructor.
  - reflexivity.
  - reflexivity.
  - intros a b Ha Hb. cbn. destruct (SFltb b a); assumption.
  - intros a b Ha Hb. cbn. destruct (SFltb a b); assumption.
  - intros a Ha. now apply FloatOrder.SFleb_refl.
  - intros a b c _ _ _. apply FloatOrder.SFleb_trans.
  - intros a b Ha Hb. cbn. destruct (SFltb b a) eqn:E.
    + now apply FloatOrder.SFltb_leb.
    + now apply FloatOrder.SFleb_refl.
  - intros a b Ha Hb. cbn. destruct (SFltb b a) eqn:E.
    + now apply FloatOrder.SFleb_refl.
    + now apply FloatOrder.SFltb_false_leb.
  - intros a b Ha Hb. cbn. destruct (SFltb a b) eqn:E.
    + now apply FloatOrder.SFltb_leb.
    + now apply FloatOrder.SFleb_refl.
  - intros a b Ha Hb. cbn. destruct (SFltb a b) eqn:E.
    + now apply FloatOrder.SFleb_refl.
    + now apply FloatOrder.SFltb_false_leb.
Qed.

(** With [std::min], a NaN among the start values stays: the minimum of
    NaN and 1 is NaN, not a number below 1, and the union of a default box
    whose stray values are NaN with a box does not enclose that box. *)
Example std_min_keeps_NaN :
  let b := mkBound (Vec3 (float_of_Z 0) (float_of_Z 0) (float_of_Z 0))
                   (Vec3 (float_of_Z 1) (float_of_Z 1) (float_of_Z 1)) in
  let g := mkStray S754_nan S754_nan S754_nan S754_nan in
  @fmin float Ordered_float_std S754_nan (float_of_Z 1) = S754_nan
  /\ @fmin float Ordered_float S754_nan (float_of_Z 1) = float_of_Z 1
  /\ ~ @encloses float Ordered_float_std
        (@Math.Union float Ordered_float_std
           (@Bound_default float Arith_float Ordered_float_std g) b) b
  /\ @encloses float Ordered_float
       (@Math.Union float Ordered_float
          (@Bound_default float Arith_float Ordered_float g) b) b.
Proof.
  cbv zeta. split; [reflexivity |]. split; [reflexivity |]. split.
  - intros [(_ & Hy & _) _]. vm_compute in Hy. discriminate.
  - repeat split; vm_compute; reflexivity.
Qed.

(* ===================================================================== *)
(** * The exact scalars satisfy the laws *)

Module ExtZLaws.

Ltac cases :=
  repeat match goal with
         | a : ExtZ |- _ => destruct a
         end;
  unfold ExtZ.le, ExtZ.min, ExtZ.max, ExtZ.leb in *; cbn in *;
  repeat match goal with
         | |- context [?n <=? ?m] => destruct (Z.leb_spec n m)
         | H : context [?n <=? ?m] |- _ => destruct (Z.leb_spec n m)
         end;
  try reflexivity; try discriminate; try (f_equal; lia).

Lemma le_refl (a : ExtZ) : ExtZ.le a a.
Proof. cases. Qed.

Lemma le_trans (a b c : ExtZ) : ExtZ.le a b -> ExtZ.le b c -> ExtZ.le a c.
Proof. intros Hab Hbc. cases. Qed.

Lemma le_antisym (a b : ExtZ) : ExtZ.le a b -> ExtZ.le b a -> a = b.
Proof. intros Hab Hba. cases. Qed.

Lemma le_total (a b : ExtZ) : ExtZ.le a b \/ ExtZ.le b a.
Proof. cases; auto. Qed.

Lemma min_l (a b : ExtZ) : ExtZ.le (ExtZ.min a b) a.
Proof. cases. Qed.

Lemma min_r (a b : ExtZ) : ExtZ.le (ExtZ.min a b) b.
Proof. cases. Qed.

Lemma min_glb (a b c : ExtZ) :
  ExtZ.le c a -> ExtZ.le c b -> ExtZ.le c (ExtZ.min a b).
Proof. intros Ha Hb. cases. Qed.

Lemma max_l (a b : ExtZ) : ExtZ.le a (ExtZ.max a b).
Proof. cases. Qed.

Lemma max_r (a b : ExtZ) : ExtZ.le b (ExtZ.max a b).
Proof. cases. Qed.

Lemma max_lub (a b c : ExtZ) :
  ExtZ.le a c -> ExtZ.le b c -> ExtZ.le (ExtZ.max a b) c.
Proof. intros Ha Hb. cases. Qed.

Lemma le_PosInfty (a : ExtZ) : ExtZ.le a PosInfty.
Proof. cases. Qed.

Lemma le_NegInfty (a : ExtZ) : ExtZ.le NegInfty a.
Proof. cases. Qed.

End ExtZLaws.

#[export] Instance OrderLaws_ExtZ : OrderLaws ExtZ := {|
  fle_refl    := ExtZLaws.le_refl;
  fle_trans   := ExtZLaws.le_trans;
  fle_antisym := ExtZLaws.le_antisym;
  fmin_l      := ExtZLaws.min_l;
  fmin_r      := ExtZLaws.min_r;
  fmin_glb    := ExtZLaws.min_glb;
  fmax_l      := ExtZLaws.max_l;
  fmax_r      := ExtZLaws.max_r;
  fmax_lub    := ExtZLaws.max_lub;
  fle_Inf     := ExtZLaws.le_PosInfty;
  fle_NegInf  := ExtZLaws.le_NegInfty
|}.

#[export] Instance ExactAdd_Z : ExactAdd Z := {|
  fadd_comm  := Z.add_comm;
  fadd_assoc := fun a b c => eq_sym (Z.add_assoc a b c);
  fadd_0_r   := Z.add_0_r;
  fmul_0_0   := eq_refl
|}.

(* ===================================================================== *)
(** * An exact instance of the triangle test and of the box test

    Over the exact scalars [ExtZ]: rays that run along +z from a finite
    origin, triangles parallel to the xy-plane. The triangle test is the
    two-sided edge-function test, its barycentric coordinates are scaled by
    twice the area of the triangle; the box test is the slab test on the x
    and y axes. *)

Module ExactGeometry.

Definition TriData : Type := (TVec3 ExtZ * TVec3 ExtZ * TVec3 ExtZ)%type.

Definition Load (p1 p2 p3 : TVec3 ExtZ) : TriData := (p1, p2, p3).

Definition fin3 (v : TVec3 ExtZ) : option (Z * Z * Z) :=
  match v with
  | Vec3 (Fin a) (Fin b) (Fin c) => Some (a, b, c)
  | _ => None
  end.

(** The origin of a ray along +z. *)
Definition vertical (r : Ray ExtZ) : option (Z * Z * Z) :=
  match d r with
  | Vec3 (Fin 0) (Fin 0) (Fin 1) => fin3 (o r)
  | _ => None
  end.

(** Twice the signed area of the triangle (a, b, p) in the xy-plane. *)
Definition orient (ax ay bx by_ px py : Z) : Z :=
  (bx - ax) * (py - ay) - (by_ - ay) * (px - ax).

Definition inside (ax ay bx by_ cx cy px py : Z) : bool :=
  let w0 := orient bx by_ cx cy px py in
  let w1 := orient cx cy ax ay px py in
  let w2 := orient ax ay bx by_ px py in
  ((0 <? w0 + w1 + w2) && (0 <=? w0) && (0 <=? w1) && (0 <=? w2))
  || ((w0 + w1 + w2 <? 0) && (w0 <=? 0) && (w1 <=? 0) && (w2 <=? 0)).

Definition TriIntersect (tri : TriData) (r : Ray ExtZ) (a b : ExtZ)
  : option (ExtZ * ExtZ * ExtZ) :=
  let '(p1, p2, p3) := tri in
  match vertical r, fin3 p1, fin3 p2, fin3 p3 with
  | Some (ox, oy, oz), Some (ax, ay, az), Some (bx, by_, bz), Some (cx, cy, cz) =>
      if (az =? bz) && (bz =? cz)
         && inside ax ay bx by_ cx cy ox oy
         && ExtZ.leb a (Fin (az - oz)) && ExtZ.leb (Fin (az - oz)) b
      then Some (Fin (orient cx cy ax ay ox oy),
                 Fin (orient ax ay bx by_ ox oy),
                 Fin (az - oz))
      else None
  | _, _, _, _ => None
  end.

Definition BoundIntersect (B : Bound ExtZ) (r : Ray ExtZ) (a b : ExtZ) : bool :=
  match vertical r with
  | Some (ox, oy, oz) =>
      ExtZ.leb (x (min B)) (Fin ox) && ExtZ.leb (Fin ox) (x (max B))
      && ExtZ.leb (y (min B)) (Fin oy) && ExtZ.leb (Fin oy) (y (max B))
  | None => false
  end.

(** A point inside a triangle is inside the bounding box of its vertices. *)
Lemma inside_between (ax ay bx by_ cx cy px py : Z) :
  inside ax ay bx by_ cx cy px py = true ->
  Z.min (Z.min ax bx) cx <= px <= Z.max (Z.max ax bx) cx
  /\ Z.min (Z.min ay by_) cy <= py <= Z.max (Z.max ay by_) cy.
Proof.
  unfold inside.
  set (w0 := orient bx by_ cx cy px py).
  set (w1 := orient cx cy ax ay px py).
  set (w2 := orient ax ay bx by_ px py).
  assert (Hx : (w0 + w1 + w2) * px = w0 * ax + w1 * bx + w2 * cx)
    by (unfold w0, w1, w2, orient; ring).
  assert (Hy : (w0 + w1 + w2) * py = w0 * ay + w1 * by_ + w2 * cy)
    by (unfold w0, w1, w2, orient; ring).
  clearbody w0 w1 w2.
  rewrite orb_true_iff, !andb_true_iff, !Z.ltb_lt, !Z.leb_le.
  intros [(((Ha & H0) & H1) & H2) | (((Ha & H0) & H1) & H2)];
    repeat split; nia.
Qed.

Lemma Tri_window (tri : TriData) r a b u v t :
  TriIntersect tri r a b = Some (u, v, t) -> ExtZ.le t b.
Proof.
  unfold TriIntersect. destruct tri as [[p1 p2] p3].
  destruct (vertical r) as [[[ox oy] oz]|]; [| discriminate].
  destruct (fin3 p1) as [[[ax ay] az]|]; [| discriminate].
  destruct (fin3 p2) as [[[bx by_] bz]|]; [| discriminate].
  destruct (fin3 p3) as [[[cx cy] cz]|]; [| discriminate].
  destruct (_ && _) eqn:E; [| discriminate].
  intros [= _ _ <-]. apply andb_true_iff in E as [_ E]. exact E.
Qed.

Lemma Tri_widen (tri : TriData) r a b b' h :
  TriIntersect tri r a b' = Some h -> ExtZ.le b' b ->
  TriIntersect tri r a b = Some h.
Proof.
  unfold TriIntersect. destruct tri as [[p1 p2] p3].
  destruct (vertical r) as [[[ox oy] oz]|]; [| discriminate].
  destruct (fin3 p1) as [[[ax ay] az]|]; [| discriminate].
  destruct (fin3 p2) as [[[bx by_] bz]|]; [| discriminate].
  destruct (fin3 p3) as [[[cx cy] cz]|]; [| discriminate].
  destruct (_ && ExtZ.leb (Fin (az - oz)) b') eqn:E; [| discriminate].
  intros [= <-] Hb. apply andb_true_iff in E as [E1 E2].
  rewrite E1. cbn [andb].
  replace (ExtZ.leb (Fin (az - oz)) b) with true; [reflexivity |].
  symmetry. exact (ExtZLaws.le_trans E2 Hb).
Qed.

Lemma Tri_narrow (tri : TriData) r a b b' u v t :
  TriIntersect tri r a b = Some (u, v, t) -> ExtZ.le b' b ->
  TriIntersect tri r a b' = None -> ExtZ.le b' t.
Proof.
  unfold TriIntersect. destruct tri as [[p1 p2] p3].
  destruct (vertical r) as [[[ox oy] oz]|]; [| discriminate].
  destruct (fin3 p1) as [[[ax ay] az]|]; [| discriminate].
  destruct (fin3 p2) as [[[bx by_] bz]|]; [| discriminate].
  destruct (fin3 p3) as [[[cx cy] cz]|]; [| discriminate].
  destruct (_ && ExtZ.leb (Fin (az - oz)) b) eqn:E; [| discriminate].
  intros [= _ _ <-] Hb. apply andb_true_iff in E as [E1 E2].
  rewrite E1. cbn [andb].
  destruct (ExtZ.leb (Fin (az - oz)) b') eqn:E'; [discriminate |].
  intros _. destruct (ExtZLaws.le_total b' (Fin (az - oz))) as [Hle | Hle];
    [assumption |].
  unfold ExtZ.le in Hle. congruence.
Qed.

Lemma min_Fin (a b : Z) : ExtZ.min (Fin a) (Fin b) = Fin (Z.min a b).
Proof.
  unfold ExtZ.min, ExtZ.leb. destruct (Z.leb_spec a b); f_equal; lia.
Qed.

Lemma max_Fin (a b : Z) : ExtZ.max (Fin a) (Fin b) = Fin (Z.max a b).
Proof.
  unfold ExtZ.max, ExtZ.leb. destruct (Z.leb_spec a b); f_equal; lia.
Qed.

Lemma fin3_Some (v : TVec3 ExtZ) a b c :
  fin3 v = Some (a, b, c) -> v = Vec3 (Fin a) (Fin b) (Fin c).
Proof.
  destruct v as [[| vx |] [| vy |] [| vz |]]; cbn; try discriminate.
  now intros [= -> -> ->].
Qed.

(** The padded minimum and maximum of three finite coordinates, whatever
    value [g] the fold starts from, are not inside the three. *)
Lemma padded_min_le (g : ExtZ) (a b c : Z) :
  ExtZ.le (ExtZ.sub (ExtZ.min (ExtZ.min (ExtZ.min g (Fin a)) (Fin b)) (Fin c))
                    (Fin 1))
          (Fin (Z.min (Z.min a b) c)).
Proof. destruct g; ExtZLaws.cases; apply Z.leb_le; lia. Qed.

Lemma padded_max_ge (g : ExtZ) (a b c : Z) :
  ExtZ.le (Fin (Z.max (Z.max a b) c))
          (ExtZ.add (ExtZ.max (ExtZ.max (ExtZ.max g (Fin a)) (Fin b)) (Fin c))
                    (Fin 1)).
Proof. destruct g; ExtZLaws.cases; apply Z.leb_le; lia. Qed.

(** The box test does not miss a triangle whose padded bounding box lies
    inside the box, whatever the stray values of that bounding box. *)
Lemma Bound_conservative (g : Stray ExtZ) (p1 p2 p3 : TVec3 ExtZ)
      (B : Bound ExtZ) r a b :
  encloses B (triangle_bound g p1 p2 p3) ->
  BoundIntersect B r a b = false ->
  TriIntersect (Load p1 p2 p3) r a b = None.
Proof.
  intros Henc Hmiss.
  destruct (TriIntersect (Load p1 p2 p3) r a b) as [h|] eqn:Eh; [| reflexivity].
  exfalso. revert Hmiss Eh. unfold TriIntersect, BoundIntersect, Load.
  destruct (vertical r) as [[[ox oy] oz]|]; [| discriminate].
  destruct (fin3 p1) as [[[ax ay] az]|] eqn:E1; [| discriminate].
  destruct (fin3 p2) as [[[bx by_] bz]|] eqn:E2; [| discriminate].
  destruct (fin3 p3) as [[[cx cy] cz]|] eqn:E3; [| discriminate].
  apply fin3_Some in E1, E2, E3. subst p1 p2 p3.
  destruct (_ && ExtZ.leb (Fin (az - oz)) b) eqn:E; [| discriminate].
  intros Hmiss _.
  apply andb_true_iff in E as [E _]. apply andb_true_iff in E as [E _].
  apply andb_true_iff in E as [_ Hin].
  apply inside_between in Hin as [[Hx1 Hx2] [Hy1 Hy2]].
  destruct Henc as [(Hminx & Hminy & _) (Hmaxx & Hmaxy & _)].
  destruct g as [gy gz hy hz].
  cbn [triangle_bound expand Bound_default Math.Union_point Math.Min Math.Max
       min max x y z vec3_sub vec3_add Vec3_splat
       stray_min_y stray_min_z stray_max_y stray_max_z]
    in Hminx, Hminy, Hmaxx, Hmaxy.
  assert (G1 : ExtZ.leb (x (min B)) (Fin ox) = true).
  { eapply ExtZLaws.le_trans; [exact Hminx |].
    eapply ExtZLaws.le_trans; [apply padded_min_le |]. apply Z.leb_le. lia. }
  assert (G2 : ExtZ.leb (Fin ox) (x (max B)) = true).
  { eapply ExtZLaws.le_trans; [| exact Hmaxx].
    eapply ExtZLaws.le_trans; [| apply padded_max_ge]. apply Z.leb_le. lia. }
  assert (G3 : ExtZ.leb (y (min B)) (Fin oy) = true).
  { eapply ExtZLaws.le_trans; [exact Hminy |].
    eapply ExtZLaws.le_trans; [apply padded_min_le |]. apply Z.leb_le. lia. }
  assert (G4 : ExtZ.leb (Fin oy) (y (max B)) = true).
  { eapply ExtZLaws.le_trans; [| exact Hmaxy].
    eapply ExtZLaws.le_trans; [| apply padded_max_ge]. apply Z.leb_le. lia. }
  rewrite G1, G2, G3, G4 in Hmiss. discriminate.
Qed.

End ExactGeometry.

(* ===================================================================== *)
(** * Sample scenes over the exact scalars *)

Module Samples.

Definition P (a b c : Z) : list ExtZ := [Fin a; Fin b; Fin c].

(** Two triangles parallel to the xy-plane, one at z = 5 (vertices 0..2)
    and one at z = 2 (vertices 3..5), one above the other. *)
Definition positions : list ExtZ :=
  P 0 0 5 ++ P 4 0 5 ++ P 0 4 5 ++ P 0 0 2 ++ P 4 0 2 ++ P 0 4 2.

Definition far_then_near : TriangleMesh ExtZ := mkMesh positions [0; 1; 2; 3; 4; 5] 2.
Definition near_then_far : TriangleMesh ExtZ := mkMesh positions [3; 4; 5; 0; 1; 2] 2.
Definition one_triangle : TriangleMesh ExtZ := mkMesh positions [0; 1; 2] 1.

(** A face whose third vertex index, 7, is out of range of the six
    positions. *)
Definition bad_mesh : TriangleMesh ExtZ := mkMesh positions [0; 1; 7] 1.

Definition with_mesh (m : TriangleMesh ExtZ) : Primitive ExtZ :=
  mkPrimitive (Some m) TMat4.Identity.
Definition without_mesh : Primitive ExtZ := mkPrimitive None TMat4.Identity.

Definition scene_far_near : Scene ExtZ := [without_mesh; with_mesh far_then_near].
Definition scene_near_far : Scene ExtZ := [with_mesh near_then_far].
Definition scene_one : Scene ExtZ := [with_mesh one_triangle].
Definition scene_bad : Scene ExtZ := [with_mesh bad_mesh].
Definition scene_empty : Scene ExtZ := [without_mesh; without_mesh].

(** Twelve triangles parallel to the xy-plane, one above the other, at the
    heights [zs] in this order: enough for internal nodes. *)
Definition stack (zs : list Z) : list ExtZ :=
  flat_map (fun k => P 0 0 k ++ P 4 0 k ++ P 0 4 k) zs.
Definition stack_mesh : TriangleMesh ExtZ :=
  mkMesh (stack [12; 3; 7; 1; 9; 5; 11; 2; 8; 4; 10; 6])
         (map Z.of_nat (seq 0 36)) 12.
Definition scene_stack : Scene ExtZ := [without_mesh; with_mesh stack_mesh].

(** The ray from (1, 1, 0) along +z. *)
Definition ray_up : Ray ExtZ :=
  mkRay (Vec3 (Fin 1) (Fin 1) (Fin 0)) (Vec3 (Fin 0) (Fin 0) (Fin 1)).

Definition build (scene : Scene ExtZ) (self : Accel_BVH ExtZ ExactGeometry.TriData) :=
  Build ExactGeometry.Load scene self.

Definition intersect (self : Accel_BVH ExtZ ExactGeometry.TriData)
           (scene : Scene ExtZ) (ray : Ray ExtZ) (minT maxT_ : ExtZ) :=
  Intersect ExactGeometry.TriIntersect ExactGeometry.BoundIntersect
            self scene ray minT maxT_.

(** The accelerator that Build leaves on a new accelerator. *)
Definition built (scene : Scene ExtZ) : Accel_BVH ExtZ ExactGeometry.TriData :=
  match build scene Accel_new with
  | Ok (_, a) => a
  | Fault _ => Accel_new
  end.

End Samples.

(** * Sample scenes in binary32 *)

Module FloatSamples.

Definition of_ExtZ (a : ExtZ) : float :=
  match a with
  | NegInfty => S754_infinity true
  | Fin n => float_of_Z n
  | PosInfty => S754_infinity false
  end.

(** The stack of twelve triangles of [Samples.stack_mesh], in binary32. *)
Definition stack_mesh : TriangleMesh float :=
  mkMesh (map of_ExtZ (Positions Samples.stack_mesh))
         (Faces Samples.stack_mesh) (NumFaces Samples.stack_mesh).
Definition scene_stack : Scene float :=
  [mkPrimitive None (TMat4.Identity (T := float));
   mkPrimitive (Some stack_mesh) (TMat4.Identity (T := float))].

(** One triangle, the first of [Samples.positions], in binary32. *)
Definition one_triangle : TriangleMesh float :=
  mkMesh (map of_ExtZ Samples.positions) [0; 1; 2] 1.
Definition scene_one : Scene float :=
  [mkPrimitive (Some one_triangle) (TMat4.Identity (T := float))].

(** The triangle data are the three vertices. *)
Definition TriData : Type := (TVec3 float * TVec3 float * TVec3 float)%type.
Definition Load (p1 p2 p3 : TVec3 float) : TriData := (p1, p2, p3).

(** The accelerator that Build leaves on a new accelerator. *)
Definition built : Accel_BVH float TriData :=
  match Build Load scene_stack Accel_new with
  | Ok (_, a) => a
  | Fault _ => Accel_new
  end.

End FloatSamples.

(* ===================================================================== *)
(** * Build: success and failure *)

Section BuildResult.
Context {T : Type} `{Arith T} `{Ordered T} `{Indeterminate T}.
Variable TriData : Type.
Variable Load : TVec3 T -> TVec3 T -> TVec3 T -> TriData.

(** C1, as the code has it: Build never returns false, whatever the scene
    and the accelerator; on a new accelerator it returns true for every
    scene whose faces and vertex indices are in range and whose number of
    faces, doubled, is at most [INT_MAX] (the node indices then fit in an
    [int]), whatever the stray values of the default boxes. Out-of-range
    mesh data is never reported: Build has no check and no failure
    path. *)
Theorem Build_never_fails_in_range_succeeds (scene : Scene T) :
  (forall self a, Build Load scene self <> Ok (false, a))
  /\ (scene_ok scene -> 2 * num_faces scene <= INT_MAX ->
      exists a, Build Load scene Accel_new = Ok (true, a)).
Proof.
  split.
  - intros self a Hb. apply Build_flag in Hb. discriminate.
  - intros Hok Hsize.
    destruct (prim_loop_Ok Load 0 [] [] Hok) as (tris & bounds & Hrun).
    fold (CreateTriaccels Load scene []) in Hrun.
    destruct (CreateTriaccels_length _ _ Hrun) as [_ Hn].
    exists (mkAccel tris (flat 0 (built_tree bounds (length tris)))).
    apply Build_fresh; [exact Hrun | lia].
Qed.

End BuildResult.

(** The witness of C1: the scene of one in-range triangle is built, in
    binary32 and with every stray value NaN. *)
Lemma Build_never_fails_in_range_succeeds_witness :
  scene_ok FloatSamples.scene_one
  /\ exists a,
       Build FloatSamples.Load FloatSamples.scene_one Accel_new = Ok (true, a).
Proof.
  assert (Hok : scene_ok FloatSamples.scene_one).
  { intros prim m [<- | []] [= <-] j Hj. cbn in Hj.
    assert (j = 0) as -> by lia.
    split; [cbv; discriminate |]. split; [cbn; lia |].
    intros k i Hk Hi.
    assert (k = 0 \/ k = 1 \/ k = 2) as [-> | [-> | ->]] by lia;
      cbn in Hi; injection Hi as <-; repeat split; cbn; lia. }
  split; [exact Hok |].
  apply (Build_never_fails_in_range_succeeds
           FloatSamples.Load FloatSamples.scene_one);
    [exact Hok | cbn; unfold INT_MAX; lia].
Defined.

(** The counterexample to C1 as stated: the face (0, 1, 7) indexes a
    position array of six vertices out of range, and Build does not return
    false: it reads out of bounds. *)
Lemma Build_out_of_range_not_reported :
  ~ scene_ok Samples.scene_bad
  /\ Samples.build Samples.scene_bad Accel_new = Fault UndefinedBehaviour
  /\ forall a, Samples.build Samples.scene_bad Accel_new <> Ok (false, a).
Proof.
  split; [| split].
  - intros Hok.
    specialize (Hok (Samples.with_mesh Samples.bad_mesh) Samples.bad_mesh
                    (or_introl eq_refl) eq_refl 0 ltac:(cbn; lia)).
    destruct Hok as (_ & _ & Hv).
    destruct (Hv 2 7 ltac:(lia) eq_refl) as (_ & Hlen & _).
    cbn in Hlen. lia.
  - reflexivity.
  - intros a Hb. discriminate Hb.
Qed.

(** An out-of-range vertex index need not even lead to a read out of
    bounds: the offset [3 * i] is computed in [unsigned int], and for
    i = 1431655766 it wraps around to 2, so that Build reads the positions
    2, 3 and 4 and returns true. *)
Example Build_accepts_wrapped_vertex_index :
  let m := mkMesh Samples.positions [0; 1; 1431655766] 1 in
  ~ scene_ok [Samples.with_mesh m]
  /\ exists a, Samples.build [Samples.with_mesh m] Accel_new = Ok (true, a).
Proof.
  cbv zeta. split.
  - intros Hok.
    specialize (Hok _ _ (or_introl eq_refl) eq_refl 0 ltac:(cbn; lia)).
    destruct Hok as (_ & _ & Hv).
    destruct (Hv 2 1431655766 ltac:(lia) eq_refl) as (_ & Hlen & _).
    cbn in Hlen. lia.
  - eexists. vm_compute. reflexivity.
Qed.

(** C2, the code at a failing input: after a first Build of a scene of one
    triangle, the second Build keeps the first triangle and appends it
    again (two triangles, one bound) and then reads [bounds_[1]] out of
    bounds. *)
Theorem Build_twice_keeps_triangles :
  exists a1,
    Samples.build Samples.scene_one Accel_new = Ok (true, a1)
    /\ length (triangles_ a1) = 1%nat
    /\ (exists tris2 bounds2,
          CreateTriaccels ExactGeometry.Load Samples.scene_one (triangles_ a1)
          = Ok (tris2, bounds2)
          /\ length tris2 = 2%nat /\ length bounds2 = 1%nat)
    /\ Samples.build Samples.scene_one a1 = Fault UndefinedBehaviour.
Proof.
  eexists. split; [reflexivity |]. split; [reflexivity |].
  split; [| reflexivity].
  eexists _, _. split; [reflexivity |]. split; reflexivity.
Qed.

(* ===================================================================== *)
(** * The built accelerator *)

Lemma Forall2_nth_r {A B : Type} (R : A -> B -> Prop) (l : list A) (l' : list B) :
  Forall2 R l l' ->
  forall k b, nth_error l' k = Some b ->
              exists a, nth_error l k = Some a /\ R a b.
Proof.
  induction 1 as [| a b l l' Hab _ IH]; intros k c Hk.
  - now rewrite nth_error_nil in Hk.
  - destruct k as [|k]; cbn in *.
    + injection Hk as <-. eauto.
    + eauto.
Qed.

Lemma Forall2_nth_l {A B : Type} (R : A -> B -> Prop) (l : list A) (l' : list B) :
  Forall2 R l l' ->
  forall k a, nth_error l k = Some a ->
              exists b, nth_error l' k = Some b /\ R a b.
Proof.
  induction 1 as [| a b l l' Hab _ IH]; intros k c Hk.
  - now rewrite nth_error_nil in Hk.
  - destruct k as [|k]; cbn in *.
    + injection Hk as <-. eauto.
    + eauto.
Qed.

Lemma tree_all_impl {T : Type} (P Q : Bound T -> Z -> Prop) (t : tree T) :
  (forall B j, P B j -> Q B j) -> tree_all P t -> tree_all Q t.
Proof.
  intros HPQ. induction t as [b bg en | b l IHl r IHr]; cbn.
  - auto.
  - intros (Hroot & Hl & Hr). auto.
Qed.

Section Built.
Context {T : Type} `{Arith T} `{Ordered T} `{Indeterminate T}.
Variables ok start : T -> Prop.
Context `{!OrderOn T ok} `{!Absorbs T ok start}.
Variable TriData : Type.
Variable Load : TVec3 T -> TVec3 T -> TVec3 T -> TriData.
Variable TriIntersect : TriData -> Ray T -> T -> T -> option (T * T * T).
Variable BoundIntersect : Bound T -> Ray T -> T -> T -> bool.

(** Every component of every bound that "Create triaccels" stores for
    [scene] satisfies [ok] (in floating point: is not NaN), the stray
    components included. *)
Definition bounds_ok (scene : Scene T) : Prop :=
  forall tris bounds,
    CreateTriaccels Load scene [] = Ok (tris, bounds) ->
    Forall (bound_ok ok) bounds.

(** The stray values of the default box of every node satisfy [start]. *)
Definition nodes_ok : Prop := forall idx, stray_ok start (node_stray idx).

(** What Build on a new accelerator leaves, as long as the node indices
    fit in an [int]. *)
Lemma Build_fresh_shape (scene : Scene T) (a : Accel_BVH T TriData) :
  nodes_ok -> bounds_ok scene ->
  Build Load scene Accel_new = Ok (true, a) ->
  2 * Z.of_nat (length (triangles_ a)) <= INT_MAX ->
  exists bounds,
    CreateTriaccels Load scene [] = Ok (triangles_ a, bounds)
    /\ Forall2 (made_in Load scene) (triangles_ a) bounds
    /\ nodes_ a = flat 0 (built_tree bounds (length (triangles_ a)))
    /\ tree_all (encloses_at bounds) (built_tree bounds (length (triangles_ a)))
    /\ forall j, covers (built_tree bounds (length (triangles_ a))) j
                 <-> 0 <= j < Z.of_nat (length (triangles_ a)).
Proof.
  intros Hnodes_ok Hbounds_ok Hb Hsize.
  destruct (Build_fresh_inv _ _ Hb) as (bounds & Hrun).
  pose proof (Build_fresh _ _ Hrun Hsize) as Hb'.
  rewrite Hb in Hb'. injection Hb' as Ha.
  destruct (CreateTriaccels_length _ _ Hrun) as [Hlen _].
  exists bounds. split; [assumption |]. split; [| split; [| split]].
  - apply CreateTriaccels_spec in Hrun as (nt & Hnt & Hall).
    cbn [app] in Hnt. now rewrite Hnt.
  - rewrite Ha at 1. reflexivity.
  - apply (build_tree_encloses (ok := ok) (start := start));
      [eapply Hbounds_ok; eassumption | exact Hnodes_ok | ..];
      unfold Build_fuel; lia.
  - intros j. apply covers_build_tree. lia.
Qed.

(** C4: after Build, the bound stored in any node encloses the
    epsilon-expanded bound of every triangle that the node reaches
    through its leaf range or through its children: no such triangle
    bound exceeds the node bound on any axis. This holds when the
    components of the stored triangle bounds are scalars of the order (in
    floating point: when none of them is NaN), for all stray values of the
    default boxes of the nodes that the first Union absorbs (see
    [Absorbs]: every value, or every value but NaN, as Math::Min and
    Math::Max have it). *)
Theorem node_bound_encloses_triangle_bounds
        (scene : Scene T) (a : Accel_BVH T TriData) :
  nodes_ok -> bounds_ok scene ->
  Build Load scene Accel_new = Ok (true, a) ->
  2 * Z.of_nat (length (triangles_ a)) <= INT_MAX ->
  exists bounds,
    CreateTriaccels Load scene [] = Ok (triangles_ a, bounds)
    /\ forall idx n j,
         at_ (nodes_ a) idx = Ok n ->
         reach (nodes_ a) idx j ->
         exists tri b,
           read (triangles_ a) j = Ok tri
           /\ read bounds j = Ok b
           /\ made_in Load scene tri b
           /\ encloses (bound n) b.
Proof.
  intros Hnodes_ok Hbounds_ok Hb Hsize.
  destruct (Build_fresh_shape Hnodes_ok Hbounds_ok Hb Hsize)
    as (bounds & Hrun & Hmade & Hnodes & Hall & _).
  exists bounds. split; [assumption |].
  intros idx n j Hat Hreach. rewrite Hnodes in Hat, Hreach.
  destruct (flat_reach_all _ _ Hall Hat Hreach) as (b & Hj & Eb & Henc).
  destruct (Forall2_nth_r Hmade _ Eb) as (tri & Et & Hm).
  exists tri, b.
  split; [apply read_Ok; auto |]. split; [apply read_Ok; auto |]. auto.
Qed.

(** The contract of the two tests that are not part of the sources at
    hand; see [Tri_ok], [Tri_window], [Tri_widen] and [Tri_narrow] above
    for the triangle test. The box test does not miss a triangle whose
    padded bounding box, as Build computes and stores it, lies inside the
    box. *)
Hypothesis Tri_ok :
  forall d r a b u v t, TriIntersect d r a b = Some (u, v, t) -> ok t.
Hypothesis Tri_window :
  forall d r a b u v t, TriIntersect d r a b = Some (u, v, t) -> fle t b.
Hypothesis Tri_widen :
  forall d r a b b' h,
    TriIntersect d r a b' = Some h -> fle b' b -> TriIntersect d r a b = Some h.
Hypothesis Tri_narrow :
  forall d r a b b' u v t,
    TriIntersect d r a b = Some (u, v, t) -> fle b' b ->
    TriIntersect d r a b' = None -> fle b' t.
Hypothesis Bound_conservative :
  forall k p1 p2 p3 B r a b,
    encloses B (triangle_bound (bound_stray k) p1 p2 p3) ->
    BoundIntersect B r a b = false ->
    TriIntersect (Load p1 p2 p3) r a b = None.

(** The box of every node of the built tree allows to prune. *)
Lemma built_tree_prunes (scene : Scene T) (a : Accel_BVH T TriData)
      (bounds : list (Bound T)) (ray : Ray T) (minT : T) :
  Forall2 (made_in Load scene) (triangles_ a) bounds ->
  tree_all (encloses_at bounds) (built_tree bounds (length (triangles_ a))) ->
  tree_all (prunes TriIntersect BoundIntersect a ray minT)
           (built_tree bounds (length (triangles_ a))).
Proof.
  intros Hmade Hall.
  eapply tree_all_impl; [| exact Hall].
  intros B j (b & Hj & Eb & Henc).
  destruct (Forall2_nth_r Hmade _ Eb) as (tri & Et & Hm).
  split.
  - assert (Z.to_nat j < length (triangles_ a))%nat
      by (apply nth_error_Some; congruence).
    lia.
  - intros tri' m Et' Hmiss. rewrite Et in Et'. injection Et' as <-.
    destruct Hm as (prim & msh & _ & _ & k & p1 & p2 & p3 & _ & _ & Hd & ->).
    rewrite Hd. eapply Bound_conservative; eauto.
Qed.

(** C3: on a built accelerator, when some triangle has an intersection
    with parameter inside [minT, maxT], Intersect reports a triangle whose
    own intersection has the smallest such parameter, with that
    triangle's barycentric coordinates, face and primitive, whatever the
    order of the triangles. This holds when [maxT] and the components of
    the stored triangle bounds are scalars of the order (in floating point:
    when none of them is NaN), for all stray values of the default boxes
    of the nodes that the first Union absorbs (see [Absorbs]). *)
Theorem Intersect_reports_nearest
        (scene : Scene T) (a : Accel_BVH T TriData) (ray : Ray T) (minT maxT_ : T) :
  nodes_ok -> bounds_ok scene -> ok maxT_ ->
  Build Load scene Accel_new = Ok (true, a) ->
  2 * Z.of_nat (length (triangles_ a)) <= INT_MAX ->
  forall j0 tri0 h0,
    read (triangles_ a) j0 = Ok tri0 ->
    TriIntersect (tridata tri0) ray minT maxT_ = Some h0 ->
    exists i tri prim u v t,
      read (triangles_ a) i = Ok tri
      /\ TriIntersect (tridata tri) ray minT maxT_ = Some (u, v, t)
      /\ (forall j tri' u' v' t',
            read (triangles_ a) j = Ok tri' ->
            TriIntersect (tridata tri') ray minT maxT_ = Some (u', v', t') ->
            fle t t')
      /\ read scene (primIndex tri) = Ok prim
      /\ Intersect TriIntersect BoundIntersect a scene ray minT maxT_
         = Ok (Some (mkIntersection prim (ray_at ray t) (Vec2 u v) (faceIndex tri))).
Proof.
  intros Hnodes_ok Hbounds_ok Hmax Hb Hsize j0 tri0 h0 Hr0 Hh0.
  destruct (Build_fresh_shape Hnodes_ok Hbounds_ok Hb Hsize)
    as (bounds & Hrun & Hmade & Hnodes & Hall & Hcov).
  pose proof (built_tree_prunes a ray minT Hmade Hall) as Hprunes.
  set (t := built_tree bounds (length (triangles_ a))) in *.
  apply read_Ok in Hr0 as [Hj0 E0].
  destruct (@traversal_nearest _ _ _ ok _ _ TriIntersect BoundIntersect a ray minT
              maxT_ Hmax Tri_ok Tri_window Tri_widen Tri_narrow t Hnodes Hprunes
              (fun j Hj => proj2 (Hcov j) Hj) j0 h0)
    as (i & u & v & t' & Hrun' & (tri & Hi & Ei & Hhit) & Hmin).
  { exists tri0. auto. }
  destruct (Forall2_nth_l Hmade _ Ei) as (b & _ & prim & msh & Hprim & _).
  exists i, tri, prim, u, v, t'.
  assert (Hri : read (triangles_ a) i = Ok tri) by (apply read_Ok; auto).
  split; [assumption |]. split; [assumption |]. split; [| split; [assumption |]].
  - intros j tri' u' v' t'' Hr Hh. apply read_Ok in Hr as [Hj Ej].
    eapply Hmin. exists tri'. eauto.
  - unfold Intersect. rewrite Hrun'.
    cbn [bind negb minIndex minB maxT]. rewrite Hri. cbn [bind].
    rewrite Hprim. reflexivity.
Qed.

End Built.

(** Where the order laws hold of every scalar, every stray value and
    every bound qualifies. *)
Lemma nodes_ok_all {T : Type} `{Indeterminate T} : nodes_ok (fun _ : T => True).
Proof. intros idx. repeat split. Qed.

Lemma bound_ok_Forall {T : Type} (ok : T -> bool) (l : list (Bound T)) :
  forallb (fun b => ok (x (min b)) && ok (y (min b)) && ok (z (min b))
                    && ok (x (max b)) && ok (y (max b)) && ok (z (max b))) l
  = true ->
  Forall (bound_ok (fun c => ok c = true)) l.
Proof.
  intros Hall. apply Forall_forall. intros b Hin.
  rewrite forallb_forall in Hall. specialize (Hall b Hin).
  rewrite !andb_true_iff in Hall.
  destruct Hall as (((((? & ?) & ?) & ?) & ?) & ?).
  repeat split; assumption.
Qed.

Lemma bounds_ok_all {T : Type} `{Arith T} `{Ordered T} `{Indeterminate T}
      (TriData : Type) (Load : TVec3 T -> TVec3 T -> TVec3 T -> TriData)
      (scene : Scene T) :
  bounds_ok (fun _ : T => True) Load scene.
Proof.
  intros tris bounds _. apply Forall_forall. intros b _. repeat split.
Qed.

(* ===================================================================== *)
(** * The bound of a triangle *)

Section TriangleBound.
Context {T : Type} `{Arith T} `{Ordered T}.

(** The bound of lines 102-105, before the expansion, from the
    [Bound bound;] whose stray values are [g]. *)
Definition union3 (g : Stray T) (p1 p2 p3 : TVec3 T) : Bound T :=
  Math.Union_point (Math.Union_point (Math.Union_point (Bound_default g) p1) p2) p3.

(** The union of three points in the words of the spec: the componentwise
    minimum for the min corner and the componentwise maximum for the max
    corner. *)
Definition spec_union3 (p1 p2 p3 : TVec3 T) : Bound T :=
  mkBound (Math.Min (Math.Min p1 p2) p3) (Math.Max (Math.Max p1 p2) p3).

(** The stored bound is the expansion of the bound of lines 102-105. *)
Lemma triangle_bound_expand (g : Stray T) (p1 p2 p3 : TVec3 T) :
  triangle_bound g p1 p2 p3 = expand (union3 g p1 p2 p3).
Proof. reflexivity. Qed.

(** The stray values enter the y and z components of both corners. *)
Lemma union3_components (g : Stray T) (p1 p2 p3 : TVec3 T) :
  union3 g p1 p2 p3
  = mkBound
      (Vec3 (fmin (fmin (fmin Inf (x p1)) (x p2)) (x p3))
            (fmin (fmin (fmin (stray_min_y g) (y p1)) (y p2)) (y p3))
            (fmin (fmin (fmin (stray_min_z g) (z p1)) (z p2)) (z p3)))
      (Vec3 (fmax (fmax (fmax (fneg Inf) (x p1)) (x p2)) (x p3))
            (fmax (fmax (fmax (stray_max_y g) (y p1)) (y p2)) (y p3))
            (fmax (fmax (fmax (stray_max_z g) (z p1)) (z p2)) (z p3))).
Proof. reflexivity. Qed.

(** With scalars that obey the order laws, the bound of lines 102-105 is
    the union of the default box with the union of the three points. *)
Lemma union3_is_default_joined `{!OrderLaws T} (g : Stray T) (p1 p2 p3 : TVec3 T) :
  union3 g p1 p2 p3 = Math.Union (Bound_default g) (spec_union3 p1 p2 p3).
Proof.
  unfold union3, spec_union3, Math.Union_point, Math.Union. cbn [min max].
  now rewrite !Min_assoc, !Max_assoc.
Qed.

End TriangleBound.

(** A triangle away from the origin: its vertices span the box from
    (10, 20, 35) to (14, 24, 35). *)
Definition offset_mesh : TriangleMesh ExtZ :=
  mkMesh (Samples.P 10 20 35 ++ Samples.P 14 20 35 ++ Samples.P 10 24 35)
         [0; 1; 2] 1.
Definition scene_offset : Scene ExtZ := [Samples.with_mesh offset_mesh].

(** C5, the code at a failing input: for the triangle with the vertices
    (10, 20, 35), (14, 20, 35), (10, 24, 35) and the stray values 0, Build
    stores the bound from (9, -1, -1) to (15, 25, 36), where the union of
    the three vertices expanded by [Eps = 1] is the box from (9, 19, 34)
    to (15, 25, 36): the y and z components of the corners start from the
    stray values of [Vec3 min{ Math::Inf() }] and [Vec3 max{ -Math::Inf() }],
    whose initializer list has one element where the constructor reads
    three. *)
Theorem triangle_bound_picks_up_stray_values :
  let p1 := Vec3 (Fin 10) (Fin 20) (Fin 35) in
  let p2 := Vec3 (Fin 14) (Fin 20) (Fin 35) in
  let p3 := Vec3 (Fin 10) (Fin 24) (Fin 35) in
  CreateTriaccels ExactGeometry.Load scene_offset []
  = Ok ([mkTri 0 0 (ExactGeometry.Load p1 p2 p3)],
        [mkBound (Vec3 (Fin 9) (Fin (-1)) (Fin (-1)))
                 (Vec3 (Fin 15) (Fin 25) (Fin 36))])
  /\ expand (spec_union3 p1 p2 p3)
     = mkBound (Vec3 (Fin 9) (Fin 19) (Fin 34)) (Vec3 (Fin 15) (Fin 25) (Fin 36))
  /\ TVec3_of_list [@Inf ExtZ _] = Fault UndefinedBehaviour
  /\ @Bound_by_the_letter ExtZ _ _ = Fault UndefinedBehaviour.
Proof. repeat split. Qed.


(* ===================================================================== *)
(** * The accelerator over no triangle *)

Section NoTriangles.
Context {T : Type} `{Arith T} `{Ordered T} `{Indeterminate T}.
Variable TriData : Type.
Variable Load : TVec3 T -> TVec3 T -> TVec3 T -> TriData.
Variable TriIntersect : TriData -> Ray T -> T -> T -> option (T * T * T).
Variable BoundIntersect : Bound T -> Ray T -> T -> T -> bool.

Lemma prim_loop_no_faces (prims : list (Primitive T)) :
  (forall prim m, In prim prims -> mesh prim = Some m -> NumFaces m <= 0) ->
  forall i tris bounds,
    prim_loop Load prims i tris bounds = Ok (tris, bounds).
Proof.
  induction prims as [|prim rest IH]; intros Hno i tris bounds; cbn [prim_loop].
  - reflexivity.
  - assert (Hrest : forall p m, In p rest -> mesh p = Some m -> NumFaces m <= 0)
      by (intros p m Hin; apply Hno; now right).
    destruct (mesh prim) as [m|] eqn:Em.
    + assert (Hm : NumFaces m <= 0) by (eapply Hno; [now left | eassumption]).
      replace (Z.to_nat (NumFaces m)) with O by lia.
      cbn [face_loop bind]. now apply IH.
    + now apply IH.
Qed.

(** C6: Build over a scene that contributes no triangle (every primitive
    is without mesh or without faces), on an accelerator that holds no
    triangle (a new one, or one built over no triangle before), leaves no
    triangle and exactly one node, a leaf over the empty range [0, 0), and
    every Intersect on that accelerator, for every ray and every window,
    returns no hit, whatever the box of the leaf and whatever the box test
    answers. *)
Theorem Build_no_triangles_single_leaf_no_hit
        (scene : Scene T) (self : Accel_BVH T TriData) :
  triangles_ self = [] ->
  (forall prim m, In prim scene -> mesh prim = Some m -> NumFaces m <= 0) ->
  exists a n,
    Build Load scene self = Ok (true, a)
    /\ triangles_ a = []
    /\ nodes_ a = [n]
    /\ isleaf n = true /\ leaf_begin n = 0 /\ leaf_end n = 0
    /\ forall (scene' : Scene T) (ray : Ray T) (minT maxT_ : T),
         Intersect TriIntersect BoundIntersect a scene' ray minT maxT_ = Ok None.
Proof.
  intros Hnew Hno.
  exists (mkAccel [] [mkNode true (Bound_default (node_stray 0)) 0 0]),
         (mkNode true (Bound_default (node_stray 0)) 0 0).
  split; [| repeat split].
  - unfold Build, CreateTriaccels. rewrite Hnew.
    rewrite prim_loop_no_faces by assumption. reflexivity.
  - intros scene' ray minT maxT_. unfold Intersect.
    cbn [nodes_ length Intersect_ at_ nth_error Z.to_nat Z.ltb Z.compare bind
         bound isleaf maxT].
    destruct (BoundIntersect _ ray minT maxT_); reflexivity.
Qed.

End NoTriangles.

(* ===================================================================== *)
(** * Primitives without a mesh *)

Section NullMesh.
Context {T : Type} `{Arith T} `{Ordered T} `{Indeterminate T}.
Variable TriData : Type.
Variable Load : TVec3 T -> TVec3 T -> TVec3 T -> TriData.
Variable TriIntersect : TriData -> Ray T -> T -> T -> option (T * T * T).
Variable BoundIntersect : Bound T -> Ray T -> T -> T -> bool.

Definition has_mesh (prim : Primitive T) : bool :=
  match mesh prim with
  | Some _ => true
  | None => false
  end.

(** The scene with the primitives without a mesh removed. *)
Definition remove_null (scene : Scene T) : Scene T := filter has_mesh scene.

(** Triangles of accelerators over two scenes that are the same face with
    the same data of the same primitive (at its index in either scene). *)
Definition same_tri (scene1 scene2 : Scene T)
           (t t' : TriAccelTriangle TriData) : Prop :=
  faceIndex t = faceIndex t'
  /\ tridata t = tridata t'
  /\ read scene1 (primIndex t) = read scene2 (primIndex t').

(** Two runs of "Create triaccels" end alike: with the same fault, or
    with the same bounds and the same triangles. *)
Definition same_created (scene1 scene2 : Scene T)
           (r1 r2 : result (list (TriAccelTriangle TriData) * list (Bound T)))
  : Prop :=
  match r1, r2 with
  | Ok (t1, b1), Ok (t2, b2) => Forall2 (same_tri scene1 scene2) t1 t2 /\ b1 = b2
  | Fault f1, Fault f2 => f1 = f2
  | _, _ => False
  end.

Section Simulation.
Variables scene1 scene2 : Scene T.

Lemma face_loop_sim (prim : Primitive T) (m : TriangleMesh T) (i i' : Z) (n : nat) :
  read scene1 i = read scene2 i' ->
  forall j tris tris' bounds,
    Forall2 (same_tri scene1 scene2) tris tris' ->
    same_created scene1 scene2
      (face_loop Load prim m i n j tris bounds)
      (face_loop Load prim m i' n j tris' bounds).
Proof.
  intros Hprim. induction n as [|n IH]; intros j tris tris' bounds Hsame;
    cbn [face_loop].
  - split; auto.
  - destruct (face_vertices prim m j) as [[[p1 p2] p3]|f]; cbn [bind].
    + apply IH. apply Forall2_app; [assumption |].
      constructor; [| constructor]. repeat split; assumption.
    + reflexivity.
Qed.

Lemma prim_loop_sim (prims : list (Primitive T)) :
  forall (pre pre' : list (Primitive T)) i i' tris tris' bounds,
    scene1 = pre ++ prims -> scene2 = pre' ++ remove_null prims ->
    i = Z.of_nat (length pre) -> i' = Z.of_nat (length pre') ->
    Forall2 (same_tri scene1 scene2) tris tris' ->
    same_created scene1 scene2
      (prim_loop Load prims i tris bounds)
      (prim_loop Load (remove_null prims) i' tris' bounds).
Proof.
  induction prims as [|prim rest IH];
    intros pre pre' i i' tris tris' bounds H1' H2' Hi Hi' Hsame.
  - cbn. auto.
  - cbn [remove_null filter prim_loop]. unfold has_mesh at 1.
    destruct (mesh prim) as [m|] eqn:Em.
    + cbn [prim_loop]. rewrite Em.
      assert (Hprim : read scene1 i = read scene2 i').
      { rewrite H1', H2', Hi, Hi'. cbn [remove_null filter].
        unfold has_mesh at 1. rewrite Em. now rewrite !read_length. }
      pose proof (@face_loop_sim prim m i i' (Z.to_nat (NumFaces m)) Hprim
                    0 tris tris' bounds Hsame) as Hf.
      destruct (face_loop Load prim m i (Z.to_nat (NumFaces m)) 0 tris bounds)
        as [[t1 b1]|f1];
        destruct (face_loop Load prim m i' (Z.to_nat (NumFaces m)) 0 tris' bounds)
        as [[t2 b2]|f2]; cbn [same_created] in Hf; try contradiction.
      * destruct Hf as [Hsame' ->]. cbn [bind].
        apply (IH (pre ++ [prim]) (pre' ++ [prim])).
        -- now rewrite <- app_assoc.
        -- rewrite <- app_assoc. rewrite H2'. cbn [remove_null filter].
           unfold has_mesh at 1. now rewrite Em.
        -- rewrite length_app. simpl length. lia.
        -- rewrite length_app. simpl length. lia.
        -- assumption.
      * cbn [bind same_created]. assumption.
    + apply (IH (pre ++ [prim]) pre').
      * now rewrite <- app_assoc.
      * rewrite H2'. cbn [remove_null filter].
        unfold has_mesh at 1. now rewrite Em.
      * rewrite length_app. simpl length. lia.
      * assumption.
      * assumption.
Qed.

(** The traversal reads of the triangles only their data. *)
Variables a1 a2 : Accel_BVH T TriData.
Hypothesis Hnodes : nodes_ a1 = nodes_ a2.
Hypothesis Htris : Forall2 (same_tri scene1 scene2) (triangles_ a1) (triangles_ a2).

Lemma read_sim (k : Z) :
  match read (triangles_ a1) k, read (triangles_ a2) k with
  | Ok t, Ok t' => same_tri scene1 scene2 t t'
  | Fault f, Fault f' => f = f'
  | _, _ => False
  end.
Proof.
  unfold read. destruct (k <? 0); [reflexivity |].
  destruct (nth_error (triangles_ a1) (Z.to_nat k)) as [t|] eqn:E1.
  - destruct (Forall2_nth_l Htris _ E1) as (t' & -> & Hs). assumption.
  - destruct (nth_error (triangles_ a2) (Z.to_nat k)) as [t'|] eqn:E2;
      [| reflexivity].
    destruct (Forall2_nth_r Htris _ E2) as (t & E & _). congruence.
Qed.

Lemma leaf_loop_sim (ray : Ray T) (minT : T) (n : nat) :
  forall i hit s,
    leaf_loop TriIntersect a1 ray minT n i hit s
    = leaf_loop TriIntersect a2 ray minT n i hit s.
Proof.
  induction n as [|n IH]; intros i hit s; cbn [leaf_loop]; [reflexivity |].
  pose proof (read_sim i) as Hr.
  destruct (read (triangles_ a1) i) as [t|f];
    destruct (read (triangles_ a2) i) as [t'|f']; try contradiction.
  - destruct Hr as (_ & Hd & _). cbn [bind]. rewrite Hd.
    destruct (TriIntersect (tridata t') ray minT (maxT s)) as [[[u v] t0]|];
      apply IH.
  - cbn [bind]. now rewrite Hr.
Qed.

Lemma Intersect__sim (ray : Ray T) (minT : T) (fuel : nat) :
  forall idx s,
    Intersect_ TriIntersect BoundIntersect a1 ray minT fuel idx s
    = Intersect_ TriIntersect BoundIntersect a2 ray minT fuel idx s.
Proof.
  induction fuel as [|fuel IH]; intros idx s; cbn [Intersect_]; [reflexivity |].
  rewrite Hnodes.
  destruct (at_ (nodes_ a2) idx) as [node|f]; cbn [bind]; [| reflexivity].
  destruct (negb (BoundIntersect (bound node) ray minT (maxT s))); [reflexivity |].
  destruct (isleaf node).
  - apply leaf_loop_sim.
  - rewrite IH.
    destruct (Intersect_ TriIntersect BoundIntersect a2 ray minT fuel
                (internal_child1 node) s) as [[hit1 s1]|f]; cbn [bind];
      [| reflexivity].
    now rewrite IH.
Qed.

Lemma Intersect_sim (ray : Ray T) (minT maxT_ : T) :
  Intersect TriIntersect BoundIntersect a1 scene1 ray minT maxT_
  = Intersect TriIntersect BoundIntersect a2 scene2 ray minT maxT_.
Proof.
  unfold Intersect. rewrite Intersect__sim, Hnodes.
  destruct (Intersect_ TriIntersect BoundIntersect a2 ray minT
              (S (length (nodes_ a2))) 0 (mkLocals maxT_ None None))
    as [[hit s]|f]; cbn [bind]; [| reflexivity].
  destruct (negb hit); [reflexivity |].
  destruct (minIndex s) as [i|]; [| reflexivity].
  destruct (minB s) as [b|]; [| reflexivity].
  pose proof (read_sim i) as Hr.
  destruct (read (triangles_ a1) i) as [t|f];
    destruct (read (triangles_ a2) i) as [t'|f']; try contradiction.
  - destruct Hr as (Hf & _ & Hp). cbn [bind]. now rewrite Hp, Hf.
  - cbn [bind]. now rewrite Hr.
Qed.

End Simulation.

(** C7: a primitive without a mesh contributes no triangle and no bound:
    building a scene and building the scene with those primitives removed
    fail alike or succeed alike, and then give the same bounds, the same
    nodes, the same faces as triangles (each of the same primitive, at
    its index in either scene), and the same result of Intersect for every
    ray and window. *)
Theorem null_mesh_primitives_are_skipped (scene : Scene T) :
  same_created scene (remove_null scene)
    (CreateTriaccels Load scene []) (CreateTriaccels Load (remove_null scene) [])
  /\ match Build Load scene Accel_new, Build Load (remove_null scene) Accel_new with
     | Ok (flag1, a1), Ok (flag2, a2) =>
         flag1 = flag2
         /\ nodes_ a1 = nodes_ a2
         /\ Forall2 (same_tri scene (remove_null scene)) (triangles_ a1) (triangles_ a2)
         /\ forall ray minT maxT_,
              Intersect TriIntersect BoundIntersect a1 scene ray minT maxT_
              = Intersect TriIntersect BoundIntersect a2 (remove_null scene)
                          ray minT maxT_
     | Fault f1, Fault f2 => f1 = f2
     | _, _ => False
     end.
Proof.
  assert (Hc : same_created scene (remove_null scene)
                 (CreateTriaccels Load scene [])
                 (CreateTriaccels Load (remove_null scene) [])).
  { unfold CreateTriaccels.
    apply (@prim_loop_sim scene (remove_null scene) scene [] []); auto. }
  split; [exact Hc |].
  unfold Build. cbn [triangles_ Accel_new].
  destruct (CreateTriaccels Load scene []) as [[t1 b1]|f1];
    destruct (CreateTriaccels Load (remove_null scene) []) as [[t2 b2]|f2];
    cbn [same_created] in Hc; try contradiction; cbn [bind]; [| assumption].
  destruct Hc as [Hsame <-].
  assert (Hbvh : BuildBVH b1 t1 = BuildBVH b1 t2).
  { unfold BuildBVH. now rewrite (Forall2_length Hsame). }
  rewrite <- Hbvh.
  destruct (BuildBVH b1 t1) as [nodes|f]; cbn [bind]; [| reflexivity].
  split; [reflexivity |]. split; [reflexivity |]. split; [exact Hsame |].
  intros ray minT maxT_. apply Intersect_sim; [reflexivity | exact Hsame].
Qed.

End NullMesh.

(* ===================================================================== *)
(** * A triangle test and a box test in binary32

    For rays that run along +z and triangles parallel to the xy-plane, as
    in [ExactGeometry], with the arithmetic of binary32: the triangle test
    first rejects a ray outside the padded bounding rectangle of the three
    vertices, then applies the edge functions; the box test is the slab
    test on the x and y axes. *)

Module FloatGeometry.

Definition f0 : float := zero.
Definition f1 : float := one.
Definition inf : float := Inf.

Definition vertical (r : Ray float) : bool :=
  SFeqb (x (d r)) f0 && SFeqb (y (d r)) f0 && SFeqb (z (d r)) f1.

(** The origin of the ray lies in the box on the x and y axes. *)
Definition in_box (B : Bound float) (r : Ray float) : bool :=
  SFleb (x (min B)) (x (o r)) && SFleb (x (o r)) (x (max B))
  && SFleb (y (min B)) (y (o r)) && SFleb (y (o r)) (y (max B)).

Definition BoundIntersect (B : Bound float) (r : Ray float) (a b : float) : bool :=
  vertical r && in_box B r.

(** The edge function of the edge from a to b at the point p. *)
Definition orient (ax ay bx by_ px py : float) : float :=
  fsub (fmul (fsub bx ax) (fsub py ay)) (fmul (fsub by_ ay) (fsub px ax)).

Definition w0 (p1 p2 p3 : TVec3 float) (r : Ray float) : float :=
  orient (x p2) (y p2) (x p3) (y p3) (x (o r)) (y (o r)).
Definition w1 (p1 p2 p3 : TVec3 float) (r : Ray float) : float :=
  orient (x p3) (y p3) (x p1) (y p1) (x (o r)) (y (o r)).
Definition w2 (p1 p2 p3 : TVec3 float) (r : Ray float) : float :=
  orient (x p1) (y p1) (x p2) (y p2) (x (o r)) (y (o r)).

Definition inside (p1 p2 p3 : TVec3 float) (r : Ray float) : bool :=
  (SFleb f0 (w0 p1 p2 p3 r) && SFleb f0 (w1 p1 p2 p3 r)
   && SFleb f0 (w2 p1 p2 p3 r))
  || (SFleb (w0 p1 p2 p3 r) f0 && SFleb (w1 p1 p2 p3 r) f0
      && SFleb (w2 p1 p2 p3 r) f0).

(** What the tests before the window accept. *)
Definition candidate (p1 p2 p3 : TVec3 float) (r : Ray float) : bool :=
  vertical r
  && SFeqb (z p1) (z p2) && SFeqb (z p2) (z p3)
  && in_box (expand (spec_union3 p1 p2 p3)) r
  && inside p1 p2 p3 r.

Definition TriIntersect (tri : FloatSamples.TriData) (r : Ray float) (a b : float)
  : option (float * float * float) :=
  let '(p1, p2, p3) := tri in
  let t := fsub (z p1) (z (o r)) in
  if candidate p1 p2 p3 r && SFleb a t && SFleb t b
  then Some (w1 p1 p2 p3 r, w2 p1 p2 p3 r, t)
  else None.

(** The ray from (1, 1, 0) along +z. *)
Definition ray_up : Ray float :=
  mkRay (Vec3 (float_of_Z 1) (float_of_Z 1) (float_of_Z 0))
        (Vec3 (float_of_Z 0) (float_of_Z 0) (float_of_Z 1)).

Lemma float_Tri_ok (tri : FloatSamples.TriData) r a b u v t :
  TriIntersect tri r a b = Some (u, v, t) -> nan_free t = true.
Proof.
  unfold TriIntersect. destruct tri as [[p1 p2] p3].
  destruct (_ && _) eqn:E; [| discriminate].
  intros [= _ _ <-]. apply andb_true_iff in E as [_ E].
  exact (proj1 (FloatOrder.SFleb_nan_free _ _ E)).
Qed.

Lemma float_Tri_window (tri : FloatSamples.TriData) r a b u v t :
  TriIntersect tri r a b = Some (u, v, t) -> fle t b.
Proof.
  unfold TriIntersect. destruct tri as [[p1 p2] p3].
  destruct (_ && _) eqn:E; [| discriminate].
  intros [= _ _ <-]. apply andb_true_iff in E as [_ E]. exact E.
Qed.

Lemma float_Tri_widen (tri : FloatSamples.TriData) r a b b' h :
  TriIntersect tri r a b' = Some h -> fle b' b ->
  TriIntersect tri r a b = Some h.
Proof.
  unfold TriIntersect. destruct tri as [[p1 p2] p3].
  destruct (_ && SFleb _ b') eqn:E; [| discriminate].
  intros [= <-] Hb. apply andb_true_iff in E as [E1 E2].
  rewrite E1. cbn [andb].
  now rewrite (FloatOrder.SFleb_trans _ _ _ E2 Hb).
Qed.

Lemma float_Tri_narrow (tri : FloatSamples.TriData) r a b b' u v t :
  TriIntersect tri r a b = Some (u, v, t) -> fle b' b ->
  TriIntersect tri r a b' = None -> fle b' t.
Proof.
  unfold TriIntersect. destruct tri as [[p1 p2] p3].
  destruct (_ && SFleb _ b) eqn:E; [| discriminate].
  intros [= _ _ <-] Hb. apply andb_true_iff in E as [E1 E2].
  rewrite E1. cbn [andb].
  destruct (SFleb (fsub (z p1) (z (o r))) b') eqn:E'; [discriminate |].
  intros _.
  destruct (FloatOrder.SFleb_nan_free _ _ E2) as [Ht _].
  destruct (FloatOrder.SFleb_nan_free _ _ Hb) as [Hb' _].
  assert (El : SFltb (fsub (z p1) (z (o r))) b' = false).
  { destruct (SFltb (fsub (z p1) (z (o r))) b') eqn:El; [| reflexivity].
    apply FloatOrder.SFltb_leb in El. congruence. }
  now apply FloatOrder.SFltb_false_leb.
Qed.

(** With the minimum and maximum of [Ordered_float] and stray values that
    are NaN, the bound that Build stores for a triangle is the padded
    union of its vertices. *)
Lemma triangle_bound_padded (k : Z) (p1 p2 p3 : TVec3 float) :
  triangle_bound (bound_stray k) p1 p2 p3 = expand (spec_union3 p1 p2 p3).
Proof.
  assert (Hinf : forall a : float, SFltb (S754_infinity false) a = false)
    by (intros [[|] | [|] | | [|] m e]; reflexivity).
  assert (Hneg : forall a : float, SFltb a (S754_infinity true) = false)
    by (intros [[|] | [|] | | [|] m e]; reflexivity).
  assert (Hnan : forall a : float, SFltb a S754_nan = false)
    by (intros [[|] | [|] | | [|] m e]; reflexivity).
  destruct p1 as [x1 y1 z1], p2 as [x2 y2 z2], p3 as [x3 y3 z3].
  unfold triangle_bound, spec_union3, expand, Math.Union_point, Math.Min,
    Math.Max, Bound_default.
  cbn [min max x y z bound_stray Indeterminate_float stray_min_y stray_min_z
       stray_max_y stray_max_z fmin fmax Inf fneg Ordered_float Arith_float].
  change (SFopp (S754_infinity false)) with (S754_infinity true).
  change (SFltb S754_nan y1) with false. change (SFltb S754_nan z1) with false.
  now rewrite !Hinf, !Hneg, !Hnan.
Qed.

(** The box test does not miss a triangle whose stored bound lies inside
    the box. *)
Lemma float_Bound_conservative (k : Z) (p1 p2 p3 : TVec3 float)
      (B : Bound float) r a b :
  encloses B (triangle_bound (bound_stray k) p1 p2 p3) ->
  BoundIntersect B r a b = false ->
  TriIntersect (FloatSamples.Load p1 p2 p3) r a b = None.
Proof.
  rewrite triangle_bound_padded. intros Henc Hmiss.
  unfold TriIntersect, FloatSamples.Load.
  destruct (candidate p1 p2 p3 r) eqn:Ec; [| reflexivity].
  exfalso. unfold candidate in Ec.
  apply andb_true_iff in Ec as [Ec _]. apply andb_true_iff in Ec as [Ec Hbox].
  apply andb_true_iff in Ec as [Ec _]. apply andb_true_iff in Ec as [Hv _].
  unfold BoundIntersect in Hmiss. rewrite Hv in Hmiss. cbn [andb] in Hmiss.
  unfold in_box in Hbox, Hmiss.
  rewrite !andb_true_iff in Hbox. destruct Hbox as [[[Hx1 Hx2] Hy1] Hy2].
  destruct Henc as [(Hminx & Hminy & _) (Hmaxx & Hmaxy & _)].
  rewrite (FloatOrder.SFleb_trans _ _ _ Hminx Hx1) in Hmiss.
  rewrite (FloatOrder.SFleb_trans _ _ _ Hx2 Hmaxx) in Hmiss.
  rewrite (FloatOrder.SFleb_trans _ _ _ Hminy Hy1) in Hmiss.
  rewrite (FloatOrder.SFleb_trans _ _ _ Hy2 Hmaxy) in Hmiss.
  discriminate.
Qed.

End FloatGeometry.

(** No component of the bounds stored for the stack of twelve triangles in
    binary32 is NaN. *)
Lemma FloatSamples_bounds_ok :
  bounds_ok (fun f : float => nan_free f = true)
            FloatSamples.Load FloatSamples.scene_stack.
Proof.
  intros tris bounds Hrun.
  assert (Hb : exists bs,
             CreateTriaccels FloatSamples.Load FloatSamples.scene_stack []
             = Ok (triangles_ FloatSamples.built, bs)
             /\ forallb (fun b =>
                           nan_free (x (min b)) && nan_free (y (min b))
                           && nan_free (z (min b)) && nan_free (x (max b))
                           && nan_free (y (max b)) && nan_free (z (max b)))
                        bs = true)
    by (eexists; split; vm_compute; reflexivity).
  destruct Hb as (bs & Hrun' & Hall).
  rewrite Hrun' in Hrun. injection Hrun as _ <-.
  now apply bound_ok_Forall.
Qed.

(* ===================================================================== *)
(** * Witnesses on the sample scenes *)

(** The witness of C4, in binary32 on the stack of twelve triangles (three
    nodes), every stray value being NaN: the root reaches triangle 3
    through its first child, and so do all the conclusions of the theorem
    hold of the root and that triangle. *)
Lemma node_bound_encloses_triangle_bounds_witness :
  reach (nodes_ FloatSamples.built) 0 3
  /\ exists bounds,
       CreateTriaccels FloatSamples.Load FloatSamples.scene_stack []
       = Ok (triangles_ FloatSamples.built, bounds)
       /\ forall idx n j,
            at_ (nodes_ FloatSamples.built) idx = Ok n ->
            reach (nodes_ FloatSamples.built) idx j ->
            exists tri b,
              read (triangles_ FloatSamples.built) j = Ok tri
              /\ read bounds j = Ok b
              /\ made_in FloatSamples.Load FloatSamples.scene_stack tri b
              /\ encloses (bound n) b.
Proof.
  split.
  - eapply reach_child1; [vm_compute; reflexivity | reflexivity |].
    eapply reach_leaf; [vm_compute; reflexivity | reflexivity |].
    cbv. split; [discriminate | reflexivity].
  - apply (@node_bound_encloses_triangle_bounds
             float Arith_float Ordered_float Indeterminate_float
             (fun f => nan_free f = true) (fun _ => True)
             OrderOn_float Absorbs_float
             FloatSamples.TriData FloatSamples.Load
             FloatSamples.scene_stack FloatSamples.built).
    + intros idx. repeat split.
    + exact FloatSamples_bounds_ok.
    + vm_compute. reflexivity.
    + vm_compute. discriminate.
Defined.

(** The witness of C3, in binary32 on the stack of twelve triangles, every
    stray value being NaN: the ray from (1, 1, 0) along +z meets all
    twelve, the first of them (index 0) at t = 12; the reported hit is no
    farther than any. *)
Lemma Intersect_reports_nearest_witness :
  exists i tri prim u v t,
    read (triangles_ FloatSamples.built) i = Ok tri
    /\ FloatGeometry.TriIntersect (tridata tri) FloatGeometry.ray_up
                                  FloatGeometry.f0 FloatGeometry.inf
       = Some (u, v, t)
    /\ (forall j tri' u' v' t',
          read (triangles_ FloatSamples.built) j = Ok tri' ->
          FloatGeometry.TriIntersect (tridata tri') FloatGeometry.ray_up
                                     FloatGeometry.f0 FloatGeometry.inf
          = Some (u', v', t') ->
          fle t t')
    /\ read FloatSamples.scene_stack (primIndex tri) = Ok prim
    /\ Intersect FloatGeometry.TriIntersect FloatGeometry.BoundIntersect
                 FloatSamples.built FloatSamples.scene_stack
                 FloatGeometry.ray_up FloatGeometry.f0 FloatGeometry.inf
       = Ok (Some (mkIntersection prim (ray_at FloatGeometry.ray_up t) (Vec2 u v)
                                  (faceIndex tri))).
Proof.
  eapply (@Intersect_reports_nearest
            float Arith_float Ordered_float Indeterminate_float
            (fun f => nan_free f = true) (fun _ => True)
            OrderOn_float Absorbs_float FloatSamples.TriData
            FloatSamples.Load FloatGeometry.TriIntersect FloatGeometry.BoundIntersect
            FloatGeometry.float_Tri_ok FloatGeometry.float_Tri_window FloatGeometry.float_Tri_widen
            FloatGeometry.float_Tri_narrow FloatGeometry.float_Bound_conservative
            FloatSamples.scene_stack FloatSamples.built
            FloatGeometry.ray_up FloatGeometry.f0 FloatGeometry.inf)
    with (j0 := 0).
  - intros idx. repeat split.
  - exact FloatSamples_bounds_ok.
  - reflexivity.
  - vm_compute. reflexivity.
  - vm_compute. discriminate.
  - vm_compute. reflexivity.
  - vm_compute. reflexivity.
Defined.

(** On the exact scalars, with the exact triangle and box tests: the ray
    from (1, 1, 0) along +z meets the stack of twelve triangles first at
    t = 1, in triangle 3. *)
Example nearest_on_the_exact_stack :
  exists prim,
    Samples.intersect (Samples.built Samples.scene_stack) Samples.scene_stack
                      Samples.ray_up (Fin 0) PosInfty
    = Ok (Some (mkIntersection prim (Vec3 (Fin 1) (Fin 1) (Fin 1))
                               (Vec2 (Fin 4) (Fin 4)) 3)).
Proof. eexists. vm_compute. reflexivity. Qed.

(** Two triangles one above the other, inserted far-then-near and
    near-then-far: Intersect reports the near one (t = 2, hit point
    (1, 1, 2)) in either order. *)
Example nearest_in_either_order :
  (exists prim,
      Samples.intersect (Samples.built Samples.scene_far_near) Samples.scene_far_near
                        Samples.ray_up (Fin 0) PosInfty
      = Ok (Some (mkIntersection prim (Vec3 (Fin 1) (Fin 1) (Fin 2))
                                 (Vec2 (Fin 4) (Fin 4)) 1)))
  /\ (exists prim,
        Samples.intersect (Samples.built Samples.scene_near_far) Samples.scene_near_far
                          Samples.ray_up (Fin 0) PosInfty
        = Ok (Some (mkIntersection prim (Vec3 (Fin 1) (Fin 1) (Fin 2))
                                   (Vec2 (Fin 4) (Fin 4)) 0))).
Proof.
  split; eexists; vm_compute; reflexivity.
Qed.

(** The witness of C6, on a scene of two primitives without mesh. *)
Lemma Build_no_triangles_single_leaf_no_hit_witness :
  exists a n,
    Samples.build Samples.scene_empty Accel_new = Ok (true, a)
    /\ triangles_ a = []
    /\ nodes_ a = [n]
    /\ isleaf n = true /\ leaf_begin n = 0 /\ leaf_end n = 0
    /\ forall (scene' : Scene ExtZ) (ray : Ray ExtZ) (minT maxT_ : ExtZ),
         Samples.intersect a scene' ray minT maxT_ = Ok None.
Proof.
  apply (Build_no_triangles_single_leaf_no_hit
           ExactGeometry.Load ExactGeometry.TriIntersect ExactGeometry.BoundIntersect
           Samples.scene_empty Accel_new).
  - reflexivity.
  - intros prim m [<- | [<- | []]]; discriminate.
Defined.

(* ===================================================================== *)
(** * Union and the default-constructed bound *)

(** C8, the code at a failing input: with the stray values 0, the
    default-constructed [Bound] is the box from (+inf, 0, 0) to
    (-inf, 0, 0). Its union with the box [a] from (10, 20, 35) to
    (14, 24, 36) is the box from (10, 0, 0) to (14, 24, 36), not [a]: the
    default bound is not an identity of Union, and the fold of Union over
    the one box [a] from it is not the minimal enclosing box ([a] encloses
    [a] and does not enclose the fold). The empty box of the spec, with
    all components infinite, is an identity. By the letter of the
    language the construction reads past the end of a one-element
    initializer list. *)
Theorem Union_default_bound_is_not_identity :
  let a := mkBound (Vec3 (Fin 10) (Fin 20) (Fin 35)) (Vec3 (Fin 14) (Fin 24) (Fin 36)) in
  let e := Bound_default (bound_stray 0) in
  e = mkBound (Vec3 PosInfty (Fin 0) (Fin 0)) (Vec3 NegInfty (Fin 0) (Fin 0))
  /\ Math.Union e a
     = mkBound (Vec3 (Fin 10) (Fin 0) (Fin 0)) (Vec3 (Fin 14) (Fin 24) (Fin 36))
  /\ Math.Union e a <> a
  /\ Math.Union a e <> a
  /\ encloses a a
  /\ ~ encloses a (fold_left Math.Union [a] e)
  /\ Math.Union spec_empty_bound a = a
  /\ Math.Union a spec_empty_bound = a
  /\ @Bound_by_the_letter ExtZ _ _ = Fault UndefinedBehaviour.
Proof.
  cbv zeta.
  split; [reflexivity |]. split; [reflexivity |].
  split; [discriminate |]. split; [discriminate |].
  split; [repeat split |].
  split; [intros [(_ & Hy & _) _]; discriminate Hy |].
  repeat split.
Qed.

(* ===================================================================== *)
(** * SIMD and scalar vector operations *)

(** ** Facts of IEEE addition and multiplication *)

Section FloatFacts.
Variables prec emax : Z.

Lemma SFadd_comm (a b : spec_float) : SFadd prec emax a b = SFadd prec emax b a.
Proof.
  destruct a as [[|] | [|] | | sa ma ea], b as [[|] | [|] | | sb mb eb];
    try reflexivity.
  cbn [SFadd]. now rewrite Z.min_comm, Z.add_comm.
Qed.

(** Adding +0 changes nothing but -0, which becomes +0. *)
Lemma SFadd_pzero_r (q : spec_float) :
  q <> S754_zero true -> SFadd prec emax q (S754_zero false) = q.
Proof.
  destruct q as [[|] | [|] | | sq mq eq]; intros Hq;
    try reflexivity; now contradiction Hq.
Qed.

(** [p + (q + 0)] against [p + q]: equal, or +0 against -0. *)
Lemma SFadd_zero_inside (p q : spec_float) :
  SFadd prec emax p (SFadd prec emax q (S754_zero false)) = SFadd prec emax p q
  \/ (SFadd prec emax p (SFadd prec emax q (S754_zero false)) = S754_zero false
      /\ SFadd prec emax p q = S754_zero true).
Proof.
  destruct q as [[|] | [|] | | sq mq eq];
    try (left; reflexivity);
    destruct p as [[|] | [|] | | sp mp ep];
    try (left; reflexivity).
  right. split; reflexivity.
Qed.

(** A square is never -0. *)
Lemma SFmul_square (a : spec_float) : SFmul prec emax a a <> S754_zero true.
Proof.
  destruct a as [[|] | [|] | | sa ma ea]; try discriminate.
  cbn [SFmul]. rewrite xorb_nilpotent. unfold binary_round_aux.
  destruct (shr_fexp _ _ _ _ _) as [mrs' e'].
  destruct (shr_fexp _ _ _ _ _) as [mrs'' e''].
  destruct (shr_m mrs''); try discriminate.
  destruct (_ <=? _); discriminate.
Qed.

Lemma SFmul_zero_zero :
  SFmul prec emax (S754_zero false) (S754_zero false) = S754_zero false.
Proof. reflexivity. Qed.

End FloatFacts.

(** The SIMD result equals the scalar one, or is +0 where the scalar one
    is -0. *)
Definition same_up_to_zero_sign (simd scalar : spec_float) : Prop :=
  simd = scalar \/ (simd = S754_zero false /\ scalar = S754_zero true).

Lemma Dot_SSE_float (v1 v2 : TVec3_SIMD float) :
  same_up_to_zero_sign (Math.Dot_SSE v1 v2) (Math.Dot (scalar3 v1) (scalar3 v2)).
Proof.
  destruct v1 as [[a0 a1 a2 a3]], v2 as [[b0 b1 b2 b3]].
  apply SFadd_zero_inside.
Qed.

Lemma Dot_AVX_double (v1 v2 : TVec3_SIMD double) :
  same_up_to_zero_sign (Math.Dot_AVX v1 v2) (Math.Dot (scalar3 v1) (scalar3 v2)).
Proof.
  destruct v1 as [[a0 a1 a2 a3]], v2 as [[b0 b1 b2 b3]].
  unfold same_up_to_zero_sign, Math.Dot_AVX, Math.Dot. cbn.
  rewrite SFadd_comm. apply SFadd_zero_inside.
Qed.

Lemma Length2_SSE_float (v : TVec3_SIMD float) :
  Math.Length2_with Math.Dot_SSE v = Math.Length2 (scalar3 v).
Proof.
  destruct v as [[a0 a1 a2 a3]].
  unfold Math.Length2_with, Math.Length2, Math.Dot_SSE, Math.Dot. cbn.
  now rewrite SFadd_pzero_r by apply SFmul_square.
Qed.

Lemma Length2_AVX_double (v : TVec3_SIMD double) :
  Math.Length2_with Math.Dot_AVX v = Math.Length2 (scalar3 v).
Proof.
  destruct v as [[a0 a1 a2 a3]].
  unfold Math.Length2_with, Math.Length2, Math.Dot_AVX, Math.Dot. cbn.
  rewrite SFadd_pzero_r by apply SFmul_square.
  apply SFadd_comm.
Qed.

(** C9, as the code has it: the SSE/AVX [+ - * /] compute on every
    component what the scalar per-component operators compute. The
    SSE/AVX dot products add the same products in another association:
    [(xx + yy) + (zz + ww)] for SSE and [(zz + ww) + (xx + yy)] for AVX,
    against the scalar [((xx + yy) + zz) + ww]; on 3-vectors
    [(xx + yy) + (zz + 0)] for SSE and [(zz + 0 * 0) + (xx + yy)] for AVX,
    against the scalar [(xx + yy) + zz]. On 3-vectors, in binary32 for SSE
    and in binary64 for AVX, the SIMD dot product is the scalar one, or +0
    where the scalar one is -0, and the squared length and the length are
    the scalar ones. *)
Theorem SIMD_agrees_with_scalar :
  (forall (T : Type) `(Arith T) (v1 v2 : TVec3_SIMD T),
      scalar3 (vec3_add_SIMD v1 v2) = vec3_add (scalar3 v1) (scalar3 v2)
      /\ scalar3 (vec3_sub_SIMD v1 v2) = vec3_sub (scalar3 v1) (scalar3 v2)
      /\ scalar3 (vec3_mul_SIMD v1 v2) = vec3_mul (scalar3 v1) (scalar3 v2)
      /\ scalar3 (vec3_div_SIMD v1 v2) = vec3_div (scalar3 v1) (scalar3 v2))
  /\ (forall (T : Type) `(Arith T) (w1 w2 : TVec4_SIMD T),
        scalar4 (vec4_add_SIMD w1 w2) = vec4_add (scalar4 w1) (scalar4 w2)
        /\ scalar4 (vec4_sub_SIMD w1 w2) = vec4_sub (scalar4 w1) (scalar4 w2)
        /\ scalar4 (vec4_mul_SIMD w1 w2) = vec4_mul (scalar4 w1) (scalar4 w2)
        /\ scalar4 (vec4_div_SIMD w1 w2) = vec4_div (scalar4 w1) (scalar4 w2))
  /\ (forall (T : Type) `(Arith T) (w1 w2 : TVec4_SIMD T),
        let xx := fmul (e0 (v4_ w1)) (e0 (v4_ w2)) in
        let yy := fmul (e1 (v4_ w1)) (e1 (v4_ w2)) in
        let zz := fmul (e2 (v4_ w1)) (e2 (v4_ w2)) in
        let ww := fmul (e3 (v4_ w1)) (e3 (v4_ w2)) in
        Math.Dot4 (scalar4 w1) (scalar4 w2) = fadd (fadd (fadd xx yy) zz) ww
        /\ Math.Dot4_SSE w1 w2 = fadd (fadd xx yy) (fadd zz ww)
        /\ Math.Dot4_AVX w1 w2 = fadd (fadd zz ww) (fadd xx yy))
  /\ (forall (T : Type) `(Arith T) (v1 v2 : TVec3_SIMD T),
        let xx := fmul (e0 (v3_ v1)) (e0 (v3_ v2)) in
        let yy := fmul (e1 (v3_ v1)) (e1 (v3_ v2)) in
        let zz := fmul (e2 (v3_ v1)) (e2 (v3_ v2)) in
        Math.Dot (scalar3 v1) (scalar3 v2) = fadd (fadd xx yy) zz
        /\ Math.Dot_SSE v1 v2 = fadd (fadd xx yy) (fadd zz zero)
        /\ Math.Dot_AVX v1 v2 = fadd (fadd zz (fmul zero zero)) (fadd xx yy))
  /\ (forall v1 v2 : TVec3_SIMD float,
        same_up_to_zero_sign (Math.Dot_SSE v1 v2)
                             (Math.Dot (scalar3 v1) (scalar3 v2))
        /\ Math.Length2_with Math.Dot_SSE v1 = Math.Length2 (scalar3 v1)
        /\ Math.Length_with Math.Dot_SSE v1 = Math.Length (scalar3 v1))
  /\ (forall v1 v2 : TVec3_SIMD double,
        same_up_to_zero_sign (Math.Dot_AVX v1 v2)
                             (Math.Dot (scalar3 v1) (scalar3 v2))
        /\ Math.Length2_with Math.Dot_AVX v1 = Math.Length2 (scalar3 v1)
        /\ Math.Length_with Math.Dot_AVX v1 = Math.Length (scalar3 v1)).
Proof.
  split; [intros T A [[a0 a1 a2 a3]] [[b0 b1 b2 b3]]; repeat split |].
  split; [intros T A [[a0 a1 a2 a3]] [[b0 b1 b2 b3]]; repeat split |].
  split; [intros T A [[a0 a1 a2 a3]] [[b0 b1 b2 b3]]; repeat split |].
  split; [intros T A [[a0 a1 a2 a3]] [[b0 b1 b2 b3]]; repeat split |].
  split; intros v1 v2.
  - split; [apply Dot_SSE_float |]. split; [apply Length2_SSE_float |].
    unfold Math.Length_with, Math.Length. now rewrite Length2_SSE_float.
  - split; [apply Dot_AVX_double |]. split; [apply Length2_AVX_double |].
    unfold Math.Length_with, Math.Length. now rewrite Length2_AVX_double.
Qed.

(** The sign of a zero is all that can differ on 3-vectors, and it does:
    in binary32, on (-0, -0, -0) and (1, 1, 1), the scalar dot product is
    -0 and the SSE one is +0. *)
Example Dot_SSE_zero_sign :
  let v1 := Vec3_SIMD_of (T := float)
              (S754_zero true) (S754_zero true) (S754_zero true) in
  let v2 := Vec3_SIMD_of (T := float)
              (float_of_Z 1) (float_of_Z 1) (float_of_Z 1) in
  Math.Dot (T := float) (scalar3 v1) (scalar3 v2) = S754_zero true
  /\ Math.Dot_SSE (T := float) v1 v2 = S754_zero false.
Proof. split; vm_compute; reflexivity. Qed.

(** The counterexample to C9 as stated: in binary32, on
    (2^24, 0, 1, -2^24) and (1, 1, 1, 1), the scalar dot product is 0 and the
    SSE dot product is 1; in binary64, on (2^53, 0, 1, -2^53) and
    (1, 1, 1, 1), the scalar dot product is 0 and the AVX one is 1. *)
Lemma SIMD_dot_differs_from_scalar :
  let w1 := Vec4_SIMD_of (float_of_Z 16777216) (float_of_Z 0)
                         (float_of_Z 1) (float_of_Z (-16777216)) in
  let w2 := Vec4_SIMD_of (float_of_Z 1) (float_of_Z 1) (float_of_Z 1) (float_of_Z 1) in
  let d1 := Vec4_SIMD_of (double_of_Z 9007199254740992) (double_of_Z 0)
                         (double_of_Z 1) (double_of_Z (-9007199254740992)) in
  let d2 := Vec4_SIMD_of (double_of_Z 1) (double_of_Z 1) (double_of_Z 1) (double_of_Z 1) in
  Math.Dot4 (T := float) (scalar4 w1) (scalar4 w2) = float_of_Z 0
  /\ Math.Dot4_SSE (T := float) w1 w2 = float_of_Z 1
  /\ Math.Dot4_SSE (T := float) w1 w2 <> Math.Dot4 (T := float) (scalar4 w1) (scalar4 w2)
  /\ Math.Dot4 (T := double) (scalar4 d1) (scalar4 d2) = double_of_Z 0
  /\ Math.Dot4_AVX (T := double) d1 d2 = double_of_Z 1
  /\ Math.Dot4_AVX (T := double) d1 d2 <> Math.Dot4 (T := double) (scalar4 d1) (scalar4 d2).
Proof.
  cbv zeta. repeat split; try (vm_compute; reflexivity); vm_compute; discriminate.
Qed.

(* ===================================================================== *)
(** * TMat3::Identity *)

(** C10, the code at a failing input: the third column of
    [TMat3::Identity()] is (0, 1, 0), not (0, 0, 1); in binary32,
    [Identity() * (0, 0, 1)] is (0, 1, 0), and over the integers
    [Identity() * v] is [(x, y + z, 0)]. *)
Theorem TMat3_Identity_third_column :
  let e1 := Vec3 (float_of_Z 1) (float_of_Z 0) (float_of_Z 0) in
  let e2 := Vec3 (float_of_Z 0) (float_of_Z 1) (float_of_Z 0) in
  let e3 := Vec3 (float_of_Z 0) (float_of_Z 0) (float_of_Z 1) in
  TMat3.Identity (T := float) = Mat3 e1 e2 e2
  /\ mat3_mul_vec (T := float) TMat3.Identity e3 = e2
  /\ e2 <> e3
  /\ mat3_mul (T := float) TMat3.Identity (Mat3 e1 e2 e3) = Mat3 e1 e2 e2
  /\ forall v : TVec3 Z,
       mat3_mul_vec TMat3.Identity v = Vec3 (x v) (y v + z v)%Z 0.
Proof.
  cbv zeta. split; [vm_compute; reflexivity |].
  split; [vm_compute; reflexivity |].
  split; [vm_compute; discriminate |].
  split; [vm_compute; reflexivity |].
  intros [vx vy vz].
  assert (HI : TMat3.Identity (T := Z) = Mat3 (Vec3 1 0 0) (Vec3 0 1 0) (Vec3 0 1 0))
    by (vm_compute; reflexivity).
  rewrite HI. destruct vx, vy, vz; reflexivity.
Qed.

(* ===================================================================== *)
(** * More on Build: the shape of the tree in [nodes_] *)

Section TreeShape.
Context {T : Type} `{Arith T} `{Ordered T} `{Indeterminate T}.

(** The ranges of the leaves of a tree, from left to right. *)
Fixpoint leaves (t : tree T) : list (Z * Z) :=
  match t with
  | TLeaf _ begin end_ => [(begin, end_)]
  | TNode _ l r => leaves l ++ leaves r
  end.

(** The ranges [leaf.begin, leaf.end) of the leaf nodes of [nodes_], in the
    order of the vector. *)
Definition leaf_ranges (nodes : list (BVHNode T)) : list (Z * Z) :=
  map (fun n => (leaf_begin n, leaf_end n)) (filter (@isleaf T) nodes).

(** The ranges follow each other without gap or overlap from [b] to [e]. *)
Fixpoint consecutive (b e : Z) (l : list (Z * Z)) : Prop :=
  match l with
  | [] => b = e
  | (b', e') :: l' => b' = b /\ consecutive e' e l'
  end.

Lemma leaf_ranges_app (l1 l2 : list (BVHNode T)) :
  leaf_ranges (l1 ++ l2) = leaf_ranges l1 ++ leaf_ranges l2.
Proof. unfold leaf_ranges. now rewrite filter_app, map_app. Qed.

Lemma leaf_ranges_flat (t : tree T) (base : Z) :
  leaf_ranges (flat base t) = leaves t.
Proof.
  revert base. induction t as [b bg en | b l IHl r IHr]; intros base.
  - reflexivity.
  - cbn [flat leaves].
    change (?n :: ?l1 ++ ?l2) with ([n] ++ l1 ++ l2).
    rewrite !leaf_ranges_app, IHl, IHr. reflexivity.
Qed.

Lemma consecutive_app (l1 l2 : list (Z * Z)) (b m e : Z) :
  consecutive b m l1 -> consecutive m e l2 -> consecutive b e (l1 ++ l2).
Proof.
  revert b. induction l1 as [|[b' e'] l1 IH]; intros b H1' H2'; cbn in *.
  - now subst.
  - destruct H1' as [-> H1']. split; [reflexivity |]. now apply IH.
Qed.

Lemma consecutive_later (l : list (Z * Z)) :
  forall b e k r,
    consecutive b e l -> Forall (fun r => fst r <= snd r) l ->
    nth_error l k = Some r -> b <= fst r.
Proof.
  induction l as [|[b' e'] l IH]; intros b e k r Hc Hwf Hk.
  - now rewrite nth_error_nil in Hk.
  - cbn in Hc. destruct Hc as [-> Hc].
    inversion Hwf as [| ? ? Hbe Hwf']; subst. cbn in Hbe.
    destruct k as [|k]; cbn in Hk.
    + injection Hk as <-. cbn. lia.
    + specialize (IH e' e k r Hc Hwf' Hk). lia.
Qed.

(** In a chain of well-formed ranges, an index of the whole range lies in
    one range and in no other. *)
Lemma consecutive_unique (l : list (Z * Z)) :
  forall b e j,
    consecutive b e l -> Forall (fun r => fst r <= snd r) l -> b <= j < e ->
    exists k r,
      nth_error l k = Some r /\ fst r <= j < snd r
      /\ forall k' r', nth_error l k' = Some r' -> fst r' <= j < snd r' -> k' = k.
Proof.
  induction l as [|[b' e'] l IH]; intros b e j Hc Hwf Hj; cbn in Hc.
  - lia.
  - destruct Hc as [-> Hc]. inversion Hwf as [| ? ? Hbe Hwf']; subst. cbn in Hbe.
    destruct (Z.lt_ge_cases j e') as [Hlt | Hge].
    + exists O, (b, e'). cbn. split; [reflexivity |]. split; [lia |].
      intros [|k'] r' Hk' Hr'; [reflexivity |]. cbn in Hk'.
      pose proof (@consecutive_later l e' e k' r' Hc Hwf' Hk'). lia.
    + destruct (IH e' e j Hc Hwf' ltac:(lia)) as (k & r & Hk & Hr & Huniq).
      exists (S k), r. cbn. split; [assumption |]. split; [assumption |].
      intros [|k'] r' Hk' Hr'; cbn in Hk'.
      * injection Hk' as <-. cbn in Hr'. lia.
      * f_equal. eapply Huniq; eauto.
Qed.

Lemma build_tree_leaves_consecutive (fuel : nat) (bounds : list (Bound T)) :
  forall base begin end_,
    consecutive begin end_ (leaves (build_tree fuel bounds base begin end_)).
Proof.
  induction fuel as [|fuel IH]; intros base begin end_; cbn [build_tree].
  - cbn. auto.
  - destruct (end_ - begin <? LeafNumNodes); cbn [leaves].
    + cbn. auto.
    + eapply consecutive_app; apply IH.
Qed.

(** The leaves of the built tree hold fewer than [LeafNumNodes] triangles,
    and at least five below an internal node. *)
Lemma build_tree_leaf_sizes (fuel : nat) (bounds : list (Bound T)) :
  forall base begin end_,
    begin <= end_ -> (Z.to_nat (end_ - begin) < fuel)%nat ->
    Forall (fun r => begin <= fst r /\ fst r <= snd r /\ snd r <= end_
                     /\ snd r - fst r < LeafNumNodes
                     /\ (5 <= end_ - begin -> 5 <= snd r - fst r))
           (leaves (build_tree fuel bounds base begin end_)).
Proof.
  induction fuel as [|fuel IH]; intros base begin end_ Hle Hfuel; [lia |].
  cbn [build_tree].
  destruct (Z.ltb_spec (end_ - begin) LeafNumNodes) as [Hlt | Hge]; cbn [leaves].
  - constructor; [| constructor]. cbn. lia.
  - pose proof (mid_bounds _ _ Hge) as [Hm1 Hm2].
    apply Forall_app. split.
    + eapply Forall_impl; [| apply IH; lia]. cbn beta. intros r Hr. lia.
    + eapply Forall_impl; [| apply IH; lia]. cbn beta. intros r Hr. lia.
Qed.

(** The number of nodes: one less than twice the number of leaves, and, from
    five triangles on, at most the number of triangles less four. *)
Lemma size_leaves (t : tree T) : (size t + 1 = 2 * length (leaves t))%nat.
Proof.
  induction t as [b bg en | b l IHl r IHr]; cbn [size leaves].
  - reflexivity.
  - rewrite length_app. lia.
Qed.

Lemma size_build_tree_tight (fuel : nat) (bounds : list (Bound T)) :
  forall base begin end_,
    Z.of_nat (size (build_tree fuel bounds base begin end_))
    <= Z.max 1 (end_ - begin - 4).
Proof.
  induction fuel as [|fuel IH]; intros base begin end_; cbn [build_tree].
  - cbn [size]. lia.
  - destruct (Z.ltb_spec (end_ - begin) LeafNumNodes) as [Hlt | Hge]; cbn [size].
    + lia.
    + pose proof (mid_bounds _ _ Hge) as [Hm1 Hm2].
      set (l := build_tree fuel bounds (base + 1) begin _).
      pose proof (IH (base + 1) begin (begin + (end_ - begin) ÷ 2)) as Hl.
      fold l in Hl.
      pose proof (IH (base + 1 + Z.of_nat (size l))
                     (begin + (end_ - begin) ÷ 2) end_).
      unfold LeafNumNodes in Hge.
      rewrite Nat2Z.inj_succ, Nat2Z.inj_add. lia.
Qed.

Lemma depth_pos (t : tree T) : (1 <= depth t)%nat.
Proof. destruct t; cbn; lia. Qed.

(** The depth of the built tree is logarithmic in the number of triangles. *)
Lemma depth_build_tree (fuel : nat) (bounds : list (Bound T)) :
  forall base begin end_,
    5 <= end_ - begin ->
    4 * 2 ^ Z.of_nat (depth (build_tree fuel bounds base begin end_) - 1) + 1
    <= end_ - begin.
Proof.
  induction fuel as [|fuel IH]; intros base begin end_ Hlen; cbn [build_tree].
  - cbn. lia.
  - destruct (Z.ltb_spec (end_ - begin) LeafNumNodes) as [Hlt | Hge]; cbn [depth].
    + cbn. lia.
    + pose proof (mid_bounds _ _ Hge) as [Hm1 Hm2].
      set (mid := begin + (end_ - begin) ÷ 2) in *.
      assert (Hmid : 2 * (mid - begin) <= end_ - begin
                     /\ 2 * (end_ - mid) <= end_ - begin + 1).
      { unfold mid. unfold LeafNumNodes in Hge.
        rewrite Z.quot_div_nonneg by lia.
        pose proof (Z.div_mod (end_ - begin) 2 ltac:(lia)).
        pose proof (Z.mod_pos_bound (end_ - begin) 2 ltac:(lia)). lia. }
      set (l := build_tree fuel bounds (base + 1) begin mid) in *.
      pose proof (IH (base + 1) begin mid ltac:(lia)) as Hl. fold l in Hl.
      pose proof (IH (base + 1 + Z.of_nat (size l)) mid end_ ltac:(lia)) as Hr.
      set (dl := depth l) in *.
      set (dr := depth (build_tree fuel bounds _ mid end_)) in *.
      assert (Hdl : (1 <= dl)%nat) by apply depth_pos.
      assert (Hdr : (1 <= dr)%nat) by apply depth_pos.
      replace (S (Nat.max dl dr) - 1)%nat with (Nat.max dl dr) by lia.
      destruct (Nat.max_spec dl dr) as [[_ ->] | [_ ->]].
      * replace (Z.of_nat dr) with (Z.succ (Z.of_nat (dr - 1))) by lia.
        rewrite Z.pow_succ_r by lia. lia.
      * replace (Z.of_nat dl) with (Z.succ (Z.of_nat (dl - 1))) by lia.
        rewrite Z.pow_succ_r by lia. lia.
Qed.

End TreeShape.

Section BuiltShape.
Context {T : Type} `{Arith T} `{Ordered T} `{Indeterminate T}.
Variable TriData : Type.
Variable Load : TVec3 T -> TVec3 T -> TVec3 T -> TriData.
Variable TriIntersect : TriData -> Ray T -> T -> T -> option (T * T * T).
Variable BoundIntersect : Bound T -> Ray T -> T -> T -> bool.

Lemma Build_fresh_nodes (scene : Scene T) (a : Accel_BVH T TriData) :
  Build Load scene Accel_new = Ok (true, a) ->
  2 * Z.of_nat (length (triangles_ a)) <= INT_MAX ->
  exists bounds,
    CreateTriaccels Load scene [] = Ok (triangles_ a, bounds)
    /\ length bounds = length (triangles_ a)
    /\ nodes_ a = flat 0 (built_tree bounds (length (triangles_ a))).
Proof.
  intros Hb Hsize.
  destruct (Build_fresh_inv _ _ Hb) as (bounds & Hrun).
  pose proof (Build_fresh _ _ Hrun Hsize) as Hb'.
  rewrite Hb in Hb'. injection Hb' as Ha.
  destruct (CreateTriaccels_length _ _ Hrun) as [Hlen _].
  exists bounds. split; [assumption |]. split; [assumption |].
  rewrite Ha at 1. reflexivity.
Qed.

(** In the layout of a tree, an internal node at index [base + k] has its
    first child right after it and its second child farther on, inside the
    layout. *)
Lemma flat_internal (t : tree T) :
  forall (base : Z) (k : nat) (n : BVHNode T),
    nth_error (flat base t) k = Some n -> isleaf n = false ->
    internal_child1 n = base + Z.of_nat k + 1
    /\ base + Z.of_nat k + 1 < internal_child2 n < base + Z.of_nat (size t).
Proof.
  induction t as [b bg en | b l IHl r IHr]; intros base k n Hn Hleaf.
  - destruct k as [|k]; cbn in Hn.
    + injection Hn as <-. discriminate.
    + now rewrite nth_error_nil in Hn.
  - pose proof (size_pos l). pose proof (size_pos r).
    destruct k as [|k]; cbn [flat nth_error size] in *.
    + injection Hn as <-.
      cbn [internal_child1 internal_child2 slot1 slot2]. lia.
    + destruct (Nat.lt_ge_cases k (size l)) as [Hk | Hk].
      * rewrite nth_error_app1 in Hn by (now rewrite length_flat).
        destruct (IHl _ _ _ Hn Hleaf) as [H1' H2']. lia.
      * rewrite nth_error_app2 in Hn by (now rewrite length_flat).
        rewrite length_flat in Hn.
        destruct (IHr _ _ _ Hn Hleaf) as [H1' H2']. lia.
Qed.

(** X1: after Build on a new accelerator the nodes are in the order of their
    creation, root first: the first child of an internal node is the next
    node, the second child comes later, both inside [nodes_]; following
    child indices therefore never returns to a node. *)
Theorem Build_children_follow_parent (scene : Scene T) (a : Accel_BVH T TriData) :
  Build Load scene Accel_new = Ok (true, a) ->
  2 * Z.of_nat (length (triangles_ a)) <= INT_MAX ->
  (exists root, at_ (nodes_ a) 0 = Ok root)
  /\ forall idx n,
       at_ (nodes_ a) idx = Ok n -> isleaf n = false ->
       internal_child1 n = idx + 1
       /\ idx + 1 < internal_child2 n < Z.of_nat (length (nodes_ a)).
Proof.
  intros Hb Hsize.
  destruct (Build_fresh_nodes _ Hb Hsize) as (bounds & _ & _ & Hnodes).
  rewrite Hnodes. split.
  - destruct (built_tree bounds (length (triangles_ a))); cbn; eauto.
  - intros idx n Hat Hleaf. apply at_Ok in Hat as [Hidx Hn].
    destruct (flat_internal _ _ _ Hn Hleaf) as [H1' H2'].
    rewrite length_flat. lia.
Qed.

(** X2: after Build on a new accelerator over N triangles, the leaf ranges, in
    the order of [nodes_], follow each other without gap or overlap from 0
    to N: every triangle index lies in the range of one leaf and of no
    other. *)
Theorem Build_leaves_partition_triangles
        (scene : Scene T) (a : Accel_BVH T TriData) :
  Build Load scene Accel_new = Ok (true, a) ->
  2 * Z.of_nat (length (triangles_ a)) <= INT_MAX ->
  consecutive 0 (Z.of_nat (length (triangles_ a))) (leaf_ranges (nodes_ a))
  /\ forall j,
       0 <= j < Z.of_nat (length (triangles_ a)) ->
       exists k r,
         nth_error (leaf_ranges (nodes_ a)) k = Some r
         /\ fst r <= j < snd r
         /\ forall k' r',
              nth_error (leaf_ranges (nodes_ a)) k' = Some r' ->
              fst r' <= j < snd r' -> k' = k.
Proof.
  intros Hb Hsize.
  destruct (Build_fresh_nodes _ Hb Hsize) as (bounds & _ & _ & Hnodes).
  rewrite Hnodes, leaf_ranges_flat. unfold built_tree.
  pose proof (build_tree_leaves_consecutive
                (Build_fuel 0 (Z.of_nat (length (triangles_ a)))) bounds
                0 0 (Z.of_nat (length (triangles_ a)))) as Hc.
  split; [exact Hc |].
  intros j Hj. eapply consecutive_unique; [exact Hc | | exact Hj].
  eapply Forall_impl;
    [| apply build_tree_leaf_sizes; [lia | unfold Build_fuel; lia]].
  cbn beta. intros r Hr. lia.
Qed.

(** X3: after Build on a new accelerator over N triangles, every leaf holds
    fewer than [LeafNumNodes] = 10 triangles, inside [0, N], and, when
    N >= 5, at least five. *)
Theorem Build_leaf_sizes (scene : Scene T) (a : Accel_BVH T TriData) :
  Build Load scene Accel_new = Ok (true, a) ->
  2 * Z.of_nat (length (triangles_ a)) <= INT_MAX ->
  forall idx n,
    at_ (nodes_ a) idx = Ok n -> isleaf n = true ->
    0 <= leaf_begin n /\ leaf_begin n <= leaf_end n
    /\ leaf_end n <= Z.of_nat (length (triangles_ a))
    /\ leaf_end n - leaf_begin n < LeafNumNodes
    /\ (5 <= Z.of_nat (length (triangles_ a)) -> 5 <= leaf_end n - leaf_begin n).
Proof.
  intros Hb Hsize idx n Hat Hleaf.
  destruct (Build_fresh_nodes _ Hb Hsize) as (bounds & _ & _ & Hnodes).
  apply at_Ok in Hat as [_ Hn]. apply nth_error_In in Hn.
  assert (Hin : In (leaf_begin n, leaf_end n) (leaf_ranges (nodes_ a))).
  { unfold leaf_ranges. apply in_map_iff. exists n. split; [reflexivity |].
    apply filter_In. auto. }
  rewrite Hnodes, leaf_ranges_flat in Hin. unfold built_tree in Hin.
  pose proof (@build_tree_leaf_sizes _ _ _ _
                (Build_fuel 0 (Z.of_nat (length (triangles_ a)))) bounds
                0 0 (Z.of_nat (length (triangles_ a)))
                ltac:(lia) ltac:(unfold Build_fuel; lia)) as Hall.
  rewrite Forall_forall in Hall. specialize (Hall _ Hin). cbn in Hall. lia.
Qed.

(** X4: after Build on a new accelerator over N triangles, [nodes_] holds one
    node less than twice the number of leaves, and at most max(1, N - 4)
    nodes. *)
Theorem Build_node_count (scene : Scene T) (a : Accel_BVH T TriData) :
  Build Load scene Accel_new = Ok (true, a) ->
  2 * Z.of_nat (length (triangles_ a)) <= INT_MAX ->
  (length (nodes_ a) + 1 = 2 * length (leaf_ranges (nodes_ a)))%nat
  /\ Z.of_nat (length (nodes_ a))
     <= Z.max 1 (Z.of_nat (length (triangles_ a)) - 4).
Proof.
  intros Hb Hsize.
  destruct (Build_fresh_nodes _ Hb Hsize) as (bounds & _ & _ & Hnodes).
  rewrite Hnodes, leaf_ranges_flat, length_flat. split.
  - apply size_leaves.
  - unfold built_tree.
    pose proof (size_build_tree_tight
                  (Build_fuel 0 (Z.of_nat (length (triangles_ a)))) bounds
                  0 0 (Z.of_nat (length (triangles_ a)))).
    lia.
Qed.

(** X5: the recursion of Intersect_ on an accelerator built over N triangles is
    at most [d] deep for every [d >= 1] with N <= 4 * 2^d: with that depth
    the traversal from the root ends as it does with any greater depth. *)
Theorem Intersect_depth_logarithmic
        (scene : Scene T) (a : Accel_BVH T TriData)
        (ray : Ray T) (minT : T) (s : Locals T) (d : nat) :
  Build Load scene Accel_new = Ok (true, a) ->
  2 * Z.of_nat (length (triangles_ a)) <= INT_MAX ->
  (1 <= d)%nat ->
  Z.of_nat (length (triangles_ a)) <= 4 * 2 ^ Z.of_nat d ->
  Intersect_ TriIntersect BoundIntersect a ray minT d 0 s
  = Intersect_ TriIntersect BoundIntersect a ray minT (S (length (nodes_ a))) 0 s.
Proof.
  intros Hb Hsize Hd Hn.
  destruct (Build_fresh_nodes _ Hb Hsize) as (bounds & _ & _ & Hnodes).
  set (t := built_tree bounds (length (triangles_ a))) in *.
  assert (Hdepth : (depth t <= d)%nat).
  { destruct (Z.lt_ge_cases (Z.of_nat (length (triangles_ a))) 5) as [Hlt | Hge].
    - unfold t, built_tree, Build_fuel. cbn [build_tree].
      destruct (Z.ltb_spec (Z.of_nat (length (triangles_ a)) - 0) LeafNumNodes);
        [cbn; lia | unfold LeafNumNodes in *; lia].
    - pose proof (depth_build_tree
                    (Build_fuel 0 (Z.of_nat (length (triangles_ a)))) bounds
                    0 0 (Z.of_nat (length (triangles_ a))) ltac:(lia)) as Hlog.
      fold (built_tree bounds (length (triangles_ a))) in Hlog. fold t in Hlog.
      destruct (Nat.le_gt_cases (depth t) d) as [Hle | Hgt]; [assumption |].
      exfalso.
      assert (2 ^ Z.of_nat d <= 2 ^ Z.of_nat (depth t - 1))
        by (apply Z.pow_le_mono_r; lia).
      lia. }
  rewrite (@Intersect_flat _ _ TriIntersect BoundIntersect a ray minT t
             0 [] [] d s);
    [ | rewrite app_nil_r; exact Hnodes | reflexivity | exact Hdepth ].
  rewrite (@Intersect_flat _ _ TriIntersect BoundIntersect a ray minT t
             0 [] [] (S (length (nodes_ a))) s);
    [ reflexivity | rewrite app_nil_r; exact Hnodes | reflexivity |].
  rewrite Hnodes, length_flat. pose proof (depth_le_size t). lia.
Qed.

(** Intersect on an accelerator that holds no node (never built) throws
    [std::out_of_range] from [nodes_.at(0)], whatever the ray, the window
    and the triangles. *)
Theorem Intersect_without_nodes_throws
        (triangles : list (TriAccelTriangle TriData))
        (scene : Scene T) (ray : Ray T) (minT maxT_ : T) :
  Intersect TriIntersect BoundIntersect (mkAccel triangles []) scene ray minT maxT_
  = Fault OutOfRangeException.
Proof. reflexivity. Qed.

End BuiltShape.

(* ===================================================================== *)
(** * Intersect returns on every built accelerator *)

Section IntersectSafe.
Context {T : Type} `{Arith T} `{Ordered T} `{Indeterminate T}.
Variable TriData : Type.
Variable Load : TVec3 T -> TVec3 T -> TVec3 T -> TriData.
Variable TriIntersect : TriData -> Ray T -> T -> T -> option (T * T * T).
Variable BoundIntersect : Bound T -> Ray T -> T -> T -> bool.

Lemma build_tree_in_range (fuel : nat) (bounds : list (Bound T)) (N : Z) :
  forall base begin end_,
    0 <= begin <= end_ -> end_ <= N ->
    tree_all (fun _ j => 0 <= j < N) (build_tree fuel bounds base begin end_).
Proof.
  induction fuel as [|fuel IH]; intros base begin end_ Hb He; cbn [build_tree].
  - cbn. intros; lia.
  - destruct (Z.ltb_spec (end_ - begin) LeafNumNodes) as [Hlt | Hge]; cbn [tree_all].
    + intros; lia.
    + pose proof (mid_bounds _ _ Hge) as [Hm1 Hm2].
      split; [| split].
      * intros j Hj. rewrite !covers_build_tree in Hj by lia. lia.
      * apply IH; lia.
      * apply IH; lia.
Qed.

Section Run.
Variable self : Accel_BVH T TriData.
Variable ray : Ray T.
Variable minT : T.

(** Whenever the locals hold a triangle index, it is an index of
    [triangles_], and the barycentric coordinates are assigned too. *)
Definition recorded_ok (s : Locals T) : Prop :=
  match minIndex s with
  | Some i => 0 <= i < Z.of_nat (length (triangles_ self)) /\ minB s <> None
  | None => True
  end.

(** How a run of the traversal changes the locals: a recorded index stays
    recorded and in range, and the flag is raised only with a recorded
    index. *)
Definition safe_run (s : Locals T) (r : result (bool * Locals T)) : Prop :=
  exists hit' s',
    r = Ok (hit', s')
    /\ recorded_ok s'
    /\ (minIndex s <> None -> minIndex s' <> None)
    /\ (hit' = true -> minIndex s' <> None).

Lemma leaf_loop_safe (n : nat) :
  forall (i : Z) (hit : bool) (s : Locals T),
    0 <= i -> i + Z.of_nat n <= Z.of_nat (length (triangles_ self)) ->
    recorded_ok s -> (hit = true -> minIndex s <> None) ->
    safe_run s (leaf_loop TriIntersect self ray minT n i hit s).
Proof.
  induction n as [|n IH]; intros i hit s Hi Hlen Hok Hhit; cbn [leaf_loop].
  - exists hit, s. auto.
  - destruct (@read_in_range _ (triangles_ self) i ltac:(lia)) as [tri ->].
    cbn [bind].
    destruct (TriIntersect (tridata tri) ray minT (maxT s)) as [[[u v] t]|].
    + destruct (IH (i + 1) true (mkLocals t (Some i) (Some (Vec2 u v))))
        as (h' & s' & Hrun & Hok' & Hkeep & Hh'); [lia | lia | | discriminate |].
      * unfold recorded_ok. cbn. split; [lia | discriminate].
      * exists h', s'. split; [assumption |]. split; [assumption |].
        split; [| assumption]. intros _. apply Hkeep. discriminate.
    + apply IH; [lia | lia | assumption | assumption].
Qed.

Lemma intersect_tree_safe (t : tree T) :
  tree_all (fun _ j => 0 <= j < Z.of_nat (length (triangles_ self))) t ->
  forall s : Locals T,
    recorded_ok s ->
    safe_run s (intersect_tree TriIntersect BoundIntersect self ray minT t s).
Proof.
  induction t as [b bg en | b l IHl r IHr]; intros Hall s Hok;
    cbn [intersect_tree tree_all] in *.
  - destruct (negb (BoundIntersect b ray minT (maxT s)));
      [exists false, s; repeat split; [assumption | auto | discriminate] |].
    destruct (Z.le_gt_cases en bg) as [Hle | Hgt].
    + replace (Z.to_nat (en - bg)) with O by lia. cbn [leaf_loop].
      exists false, s. repeat split; [assumption | auto | discriminate].
    + pose proof (Hall bg ltac:(lia)). pose proof (Hall (en - 1) ltac:(lia)).
      apply leaf_loop_safe; [lia | lia | assumption | discriminate].
  - destruct Hall as (_ & Hl & Hr).
    destruct (negb (BoundIntersect b ray minT (maxT s)));
      [exists false, s; repeat split; [assumption | auto | discriminate] |].
    destruct (IHl Hl s Hok) as (h1 & s1 & -> & Hok1 & Hk1 & Hh1). cbn [bind].
    destruct (IHr Hr s1 Hok1) as (h2 & s2 & -> & Hok2 & Hk2 & Hh2). cbn [bind].
    exists (h1 || h2), s2. split; [reflexivity |]. split; [assumption |].
    split; [auto |].
    intros Hh. apply orb_true_iff in Hh as [Hh | Hh]; auto.
Qed.

End Run.

(** X6: Intersect on an accelerator that Build has filled from a new one
    returns, for every ray and window and whatever the triangle and box
    tests answer: every node index it passes to [nodes_.at] is in range,
    every triangle it reads is in [triangles_], [minIndex] and [minB] are
    assigned when it reads them, and the primitive of the hit triangle is
    in the scene. *)
Theorem Intersect_after_Build_returns
        (scene : Scene T) (a : Accel_BVH T TriData)
        (ray : Ray T) (minT maxT_ : T) :
  Build Load scene Accel_new = Ok (true, a) ->
  2 * Z.of_nat (length (triangles_ a)) <= INT_MAX ->
  exists r, Intersect TriIntersect BoundIntersect a scene ray minT maxT_ = Ok r.
Proof.
  intros Hb Hsize.
  destruct (@Build_fresh_nodes _ _ _ _ _ Load scene a Hb Hsize)
    as (bounds & Hrun & Hlen & Hnodes).
  set (t := built_tree bounds (length (triangles_ a))) in *.
  unfold Intersect.
  rewrite (@Intersect_flat _ _ TriIntersect BoundIntersect a ray minT t
             0 [] [] (S (length (nodes_ a))));
    [ | rewrite app_nil_r; exact Hnodes | reflexivity
      | rewrite Hnodes, length_flat; pose proof (depth_le_size t); lia ].
  destruct (@intersect_tree_safe a ray minT t) with (s := mkLocals maxT_ None None)
    as (hit & s & -> & Hok & _ & Hhit).
  { unfold t, built_tree. apply build_tree_in_range; lia. }
  { exact I. }
  cbn [bind]. destruct hit; cbn [negb]; [| eauto].
  specialize (Hhit eq_refl). unfold recorded_ok in Hok.
  destruct (minIndex s) as [i|]; [| contradiction].
  destruct Hok as [Hi Hb']. destruct (minB s) as [b|]; [| contradiction].
  destruct (@read_in_range _ (triangles_ a) i Hi) as [tri Htri].
  rewrite Htri. cbn [bind].
  apply CreateTriaccels_spec in Hrun as (nt & Hnt & Hall). cbn [app] in Hnt.
  apply read_Ok in Htri as [_ Htri]. rewrite Hnt in Htri.
  destruct (Forall2_nth_l Hall _ Htri) as (bd & _ & prim & m & Hprim & _).
  rewrite Hprim. cbn [bind]. eauto.
Qed.

End IntersectSafe.

(* ===================================================================== *)
(** * The boxes of the nodes, and the rays that miss *)

Section NodeBounds.
Context {T : Type} `{Arith T} `{Ordered T} `{Indeterminate T}.
Variable bounds : list (Bound T).

(** The box of every node of a tree whose root is the node at index
    [base] is the union of the bounds of a range, folded from the default
    box of that node; the range of a leaf is its own. *)
Fixpoint default_folded (base : Z) (t : tree T) : Prop :=
  match t with
  | TLeaf b begin end_ => b = range_bound (node_stray base) bounds begin end_
  | TNode b l r =>
      (exists begin end_,
          0 <= begin <= end_
          /\ b = range_bound (node_stray base) bounds begin end_)
      /\ default_folded (base + 1) l
      /\ default_folded (base + 1 + Z.of_nat (size l)) r
  end.

Lemma root_bound_build_tree_range (fuel : nat) (base begin end_ : Z) :
  (0 < fuel)%nat ->
  root_bound (build_tree fuel bounds base begin end_)
  = range_bound (node_stray base) bounds begin end_.
Proof.
  destruct fuel as [|fuel]; [lia |]. intros _. cbn [build_tree].
  destruct (end_ - begin <? LeafNumNodes); reflexivity.
Qed.

Lemma build_tree_default_folded (fuel : nat) :
  forall base begin end_,
    0 <= begin <= end_ ->
    (Z.to_nat (end_ - begin) < fuel)%nat ->
    default_folded base (build_tree fuel bounds base begin end_).
Proof.
  induction fuel as [|fuel IH]; intros base begin end_ Hb Hfuel; [lia |].
  cbn [build_tree].
  destruct (Z.ltb_spec (end_ - begin) LeafNumNodes) as [Hlt | Hge];
    cbn [default_folded]; [reflexivity |].
  pose proof (mid_bounds _ _ Hge) as [Hm1 Hm2].
  unfold LeafNumNodes in Hge.
  split; [| split].
  - exists begin, end_. split; [lia | reflexivity].
  - apply IH; lia.
  - apply IH; lia.
Qed.

Lemma flat_root (t : tree T) (base : Z) :
  exists n, nth_error (flat base t) 0 = Some n /\ bound n = root_bound t.
Proof. destruct t; cbn; eauto. Qed.

Lemma flat_default_folded (t : tree T) :
  forall (base : Z) (k : nat) (n : BVHNode T),
    default_folded base t ->
    nth_error (flat base t) k = Some n ->
    (isleaf n = true ->
     bound n = range_bound (node_stray (base + Z.of_nat k)) bounds
                           (leaf_begin n) (leaf_end n))
    /\ (isleaf n = false ->
        exists begin end_,
          0 <= begin <= end_
          /\ bound n = range_bound (node_stray (base + Z.of_nat k)) bounds
                                   begin end_).
Proof.
  induction t as [b bg en | b l IHl r IHr]; intros base k n Hex Hn.
  - destruct k as [|k]; cbn in Hn; [| now rewrite nth_error_nil in Hn].
    injection Hn as <-. cbn in *. rewrite Z.add_0_r.
    split; [auto | discriminate].
  - destruct Hex as (Hb & Hl & Hr).
    destruct k as [|k]; cbn [flat nth_error] in Hn.
    + injection Hn as <-. rewrite Z.add_0_r.
      split; [discriminate | intros _; exact Hb].
    + destruct (Nat.lt_ge_cases k (size l)) as [Hk | Hk].
      * rewrite nth_error_app1 in Hn by (now rewrite length_flat).
        replace (base + Z.of_nat (S k)) with (base + 1 + Z.of_nat k) by lia.
        now apply IHl.
      * rewrite nth_error_app2 in Hn by (now rewrite length_flat).
        rewrite length_flat in Hn.
        replace (base + Z.of_nat (S k))
          with (base + 1 + Z.of_nat (size l) + Z.of_nat (k - size l)) by lia.
        now apply IHr.
Qed.

End NodeBounds.

Section BuiltBoxes.
Context {T : Type} `{Arith T} `{Ordered T} `{Indeterminate T}.
Variables ok start : T -> Prop.
Context `{!OrderOn T ok} `{!Absorbs T ok start}.
Variable TriData : Type.
Variable Load : TVec3 T -> TVec3 T -> TVec3 T -> TriData.

(** X7: after Build on a new accelerator the box of the node at index
    [idx] is the union of a range of [bounds_], the bounds of the triangles
    in the order of [triangles_], folded from the default box of that node,
    whose y and z components are its stray values: for a leaf the range is
    the leaf's own, for the root it is all of [bounds_]. *)
Theorem Build_node_boxes_from_default (scene : Scene T) (a : Accel_BVH T TriData) :
  Build Load scene Accel_new = Ok (true, a) ->
  2 * Z.of_nat (length (triangles_ a)) <= INT_MAX ->
  exists bounds,
    CreateTriaccels Load scene [] = Ok (triangles_ a, bounds)
    /\ (forall idx n,
          at_ (nodes_ a) idx = Ok n -> isleaf n = true ->
          bound n = range_bound (node_stray idx) bounds (leaf_begin n) (leaf_end n))
    /\ (forall idx n,
          at_ (nodes_ a) idx = Ok n -> isleaf n = false ->
          exists begin end_,
            0 <= begin <= end_
            /\ bound n = range_bound (node_stray idx) bounds begin end_)
    /\ (exists root,
          at_ (nodes_ a) 0 = Ok root
          /\ bound root
             = fold_left Math.Union bounds (Bound_default (node_stray 0))).
Proof.
  intros Hb Hsize.
  destruct (@Build_fresh_nodes _ _ _ _ _ Load scene a Hb Hsize)
    as (bounds & Hrun & Hlen & Hnodes).
  exists bounds. split; [assumption |].
  assert (Hex : default_folded bounds 0 (built_tree bounds (length (triangles_ a)))).
  { unfold built_tree.
    apply build_tree_default_folded; [lia | unfold Build_fuel; lia]. }
  rewrite Hnodes. split; [| split].
  - intros idx n Hat Hleaf. apply at_Ok in Hat as [Hidx Hn].
    pose proof (proj1 (@flat_default_folded _ _ _ _ _ _ _ _ _ Hex Hn) Hleaf) as Hbox.
    now replace (0 + Z.of_nat (Z.to_nat idx)) with idx in Hbox by lia.
  - intros idx n Hat Hleaf. apply at_Ok in Hat as [Hidx Hn].
    pose proof (proj2 (@flat_default_folded _ _ _ _ _ _ _ _ _ Hex Hn) Hleaf) as Hbox.
    now replace (0 + Z.of_nat (Z.to_nat idx)) with idx in Hbox by lia.
  - destruct (flat_root (built_tree bounds (length (triangles_ a))) 0)
      as (root & Hroot & Hbound).
    exists root. split; [apply at_Ok; split; [lia | exact Hroot] |].
    rewrite Hbound. unfold built_tree.
    rewrite root_bound_build_tree_range by (unfold Build_fuel; lia).
    unfold range_bound. cbn [Z.to_nat skipn]. rewrite Z.sub_0_r, Nat2Z.id.
    rewrite <- Hlen, firstn_all. reflexivity.
Qed.

Variable TriIntersect : TriData -> Ray T -> T -> T -> option (T * T * T).
Variable BoundIntersect : Bound T -> Ray T -> T -> T -> bool.

(** The contract of the triangle test and of the box test, as Intersect
    relies on them: an accepted parameter is a scalar of the order and not
    beyond the window, a wider window keeps a hit, a narrower window loses
    it only when it ends before the hit, and the box test does not miss a
    triangle whose padded bounding box, as Build computes and stores it,
    lies inside the box. *)
Hypothesis Tri_ok :
  forall d r a b u v t, TriIntersect d r a b = Some (u, v, t) -> ok t.
Hypothesis Tri_window :
  forall d r a b u v t, TriIntersect d r a b = Some (u, v, t) -> fle t b.
Hypothesis Tri_widen :
  forall d r a b b' h,
    TriIntersect d r a b' = Some h -> fle b' b -> TriIntersect d r a b = Some h.
Hypothesis Tri_narrow :
  forall d r a b b' u v t,
    TriIntersect d r a b = Some (u, v, t) -> fle b' b ->
    TriIntersect d r a b' = None -> fle b' t.
Hypothesis Bound_conservative :
  forall k p1 p2 p3 B r a b,
    encloses B (triangle_bound (bound_stray k) p1 p2 p3) ->
    BoundIntersect B r a b = false ->
    TriIntersect (Load p1 p2 p3) r a b = None.

(** X8: on a built accelerator Intersect returns [false] exactly when no
    triangle has an intersection inside the window: the pruning by the
    boxes never hides a triangle, and it never makes one up. This holds
    when [maxT] and the components of the stored triangle bounds are
    scalars of the order (in floating point: when none of them is NaN),
    for all stray values of the default boxes of the nodes that the first
    Union absorbs (see [Absorbs]). *)
Theorem Intersect_misses_iff_no_triangle_hit
        (scene : Scene T) (a : Accel_BVH T TriData) (ray : Ray T) (minT maxT_ : T) :
  nodes_ok start -> bounds_ok ok Load scene -> ok maxT_ ->
  Build Load scene Accel_new = Ok (true, a) ->
  2 * Z.of_nat (length (triangles_ a)) <= INT_MAX ->
  Intersect TriIntersect BoundIntersect a scene ray minT maxT_ = Ok None
  <-> (forall j tri,
         read (triangles_ a) j = Ok tri ->
         TriIntersect (tridata tri) ray minT maxT_ = None).
Proof.
  intros Hnodes_ok Hbounds_ok Hmax Hb Hsize.
  destruct (Build_fresh_shape Hnodes_ok Hbounds_ok Hb Hsize)
    as (bounds & Hrun & Hmade & Hnodes & Hall & Hcov).
  pose proof (@built_tree_prunes _ _ _ _ _ Load TriIntersect BoundIntersect
                Bound_conservative scene a bounds ray minT Hmade Hall) as Hprunes.
  set (t := built_tree bounds (length (triangles_ a))) in *.
  split.
  - intros Hmiss j tri Hr.
    destruct (TriIntersect (tridata tri) ray minT maxT_) as [h0|] eqn:Eh;
      [exfalso | reflexivity].
    apply read_Ok in Hr as [Hj Ej].
    destruct (@traversal_nearest _ _ _ ok _ _ TriIntersect BoundIntersect a ray minT
                maxT_ Hmax Tri_ok Tri_window Tri_widen Tri_narrow t Hnodes Hprunes
                (fun j Hj => proj2 (Hcov j) Hj) j h0)
      as (i & u & v & t' & Hrun' & (tri' & Hi & Ei & _) & _).
    { exists tri. auto. }
    unfold Intersect in Hmiss. rewrite Hrun' in Hmiss.
    cbn [bind negb minIndex minB maxT] in Hmiss.
    assert (Hri : read (triangles_ a) i = Ok tri') by (apply read_Ok; auto).
    rewrite Hri in Hmiss. cbn [bind] in Hmiss.
    destruct (read scene (primIndex tri')); cbn [bind] in Hmiss; discriminate.
  - intros Hnone.
    destruct (@traversal_miss _ _ _ ok _ _ TriIntersect BoundIntersect a ray minT
                maxT_ Hmax Tri_ok Tri_window Tri_widen Tri_narrow t Hnodes Hprunes)
      as (s' & Hrun').
    { intros j h (tri & Hj & Ej & Eh).
      rewrite (Hnone j tri) in Eh; [discriminate | apply read_Ok; auto]. }
    unfold Intersect. rewrite Hrun'. reflexivity.
Qed.

End BuiltBoxes.

(* ===================================================================== *)
(** * Build: the order of the triangles, and Build on a used accelerator *)

Section BuildOrder.
Context {T : Type} `{Arith T} `{Ordered T} `{Indeterminate T}.
Variable TriData : Type.
Variable Load : TVec3 T -> TVec3 T -> TVec3 T -> TriData.

(** The primitive and the face a triangle was made from. *)
Definition tri_id (tri : TriAccelTriangle TriData) : Z * Z :=
  (primIndex tri, faceIndex tri).

(** The faces of the scene, primitive by primitive from index [i] on, and
    face by face inside a mesh; a primitive without mesh has none. *)
Fixpoint face_ids (prims : list (Primitive T)) (i : Z) : list (Z * Z) :=
  match prims with
  | [] => []
  | prim :: rest =>
      match mesh prim with
      | Some m =>
          map (fun j => (i, Z.of_nat j)) (seq 0 (Z.to_nat (NumFaces m)))
          ++ face_ids rest (i + 1)
      | None => face_ids rest (i + 1)
      end
  end.

Lemma face_loop_ids (prim : Primitive T) (m : TriangleMesh T) (i : Z) (n : nat) :
  forall j tris bounds tris' bounds',
    face_loop Load prim m i n j tris bounds = Ok (tris', bounds') ->
    map tri_id tris'
    = map tri_id tris ++ map (fun k => (i, j + Z.of_nat k)) (seq 0 n).
Proof.
  induction n as [|n IH]; intros j tris bounds tris' bounds' Hrun;
    cbn [face_loop] in Hrun.
  - injection Hrun as <- _. cbn. now rewrite app_nil_r.
  - destruct (face_vertices prim m j) as [[[p1 p2] p3]|f];
      cbn [bind] in Hrun; [| discriminate].
    apply IH in Hrun. rewrite Hrun, map_app, <- app_assoc. f_equal.
    cbn [map app seq tri_id primIndex faceIndex]. f_equal.
    + unfold tri_id. cbn [primIndex faceIndex]. f_equal. cbn. lia.
    + rewrite <- seq_shift, map_map. apply map_ext. intros k. f_equal. lia.
Qed.

Lemma prim_loop_ids (prims : list (Primitive T)) :
  forall i tris bounds tris' bounds',
    prim_loop Load prims i tris bounds = Ok (tris', bounds') ->
    map tri_id tris' = map tri_id tris ++ face_ids prims i.
Proof.
  induction prims as [|prim rest IH]; intros i tris bounds tris' bounds' Hrun;
    cbn [prim_loop face_ids] in *.
  - injection Hrun as <- _. now rewrite app_nil_r.
  - destruct (mesh prim) as [m|].
    + destruct (face_loop Load prim m i (Z.to_nat (NumFaces m)) 0 tris bounds)
        as [[tris1 bounds1]|f] eqn:Ef; cbn [bind] in Hrun; [| discriminate].
      apply face_loop_ids in Ef. apply IH in Hrun.
      rewrite Hrun, Ef, <- app_assoc. reflexivity.
    + now apply IH in Hrun.
Qed.

(** The faults of "Create triaccels" are reads out of range. *)
Lemma read_fault {A : Type} (l : list A) (k : Z) (f : fault) :
  read l k = Fault f -> f = UndefinedBehaviour.
Proof.
  unfold read. destruct (k <? 0); [congruence |].
  destruct (nth_error l (Z.to_nat k)); congruence.
Qed.

Lemma int_val_fault (n : Z) (f : fault) :
  int_val n = Fault f -> f = UndefinedBehaviour.
Proof. unfold int_val. destruct (_ && _); congruence. Qed.

Lemma vertex_fault (prim : Primitive T) (ps : list T) (i : Z) (f : fault) :
  vertex prim ps i = Fault f -> f = UndefinedBehaviour.
Proof.
  unfold vertex.
  destruct (read ps (u32 (3 * i))) eqn:E1; cbn [bind];
    [| intros [= <-]; eapply read_fault; eauto].
  destruct (read ps (u32 (3 * i + 1))) eqn:E2; cbn [bind];
    [| intros [= <-]; eapply read_fault; eauto].
  destruct (read ps (u32 (3 * i + 2))) eqn:E3; cbn [bind];
    [| intros [= <-]; eapply read_fault; eauto].
  discriminate.
Qed.

Lemma face_vertices_fault (prim : Primitive T) (m : TriangleMesh T) (j : Z)
      (f : fault) :
  face_vertices prim m j = Fault f -> f = UndefinedBehaviour.
Proof.
  unfold face_vertices.
  destruct (int_val (3 * j)) eqn:K1; cbn [bind];
    [| intros [= <-]; eapply int_val_fault; eauto].
  destruct (read (Faces m) a) eqn:E1; cbn [bind];
    [| intros [= <-]; eapply read_fault; eauto].
  destruct (int_val (3 * j + 1)) eqn:K2; cbn [bind];
    [| intros [= <-]; eapply int_val_fault; eauto].
  destruct (read (Faces m) a1) eqn:E2; cbn [bind];
    [| intros [= <-]; eapply read_fault; eauto].
  destruct (int_val (3 * j + 2)) eqn:K3; cbn [bind];
    [| intros [= <-]; eapply int_val_fault; eauto].
  destruct (read (Faces m) a3) eqn:E3; cbn [bind];
    [| intros [= <-]; eapply read_fault; eauto].
  destruct (vertex prim (Positions m) a0) eqn:V1; cbn [bind];
    [| intros [= <-]; eapply vertex_fault; eauto].
  destruct (vertex prim (Positions m) a2) eqn:V2; cbn [bind];
    [| intros [= <-]; eapply vertex_fault; eauto].
  destruct (vertex prim (Positions m) a4) eqn:V3; cbn [bind];
    [| intros [= <-]; eapply vertex_fault; eauto].
  discriminate.
Qed.

Lemma face_loop_fault (prim : Primitive T) (m : TriangleMesh T) (i : Z) (n : nat) :
  forall j tris bounds f,
    face_loop Load prim m i n j tris bounds = Fault f -> f = UndefinedBehaviour.
Proof.
  induction n as [|n IH]; intros j tris bounds f; cbn [face_loop]; [discriminate |].
  destruct (face_vertices prim m j) as [[[p1 p2] p3]|f'] eqn:Ev; cbn [bind].
  - apply IH.
  - intros [= <-]. eapply face_vertices_fault; eauto.
Qed.

Lemma prim_loop_fault (prims : list (Primitive T)) :
  forall i tris bounds f,
    prim_loop Load prims i tris bounds = Fault f -> f = UndefinedBehaviour.
Proof.
  induction prims as [|prim rest IH]; intros i tris bounds f; cbn [prim_loop];
    [discriminate |].
  destruct (mesh prim) as [m|]; [| apply IH].
  destruct (face_loop Load prim m i (Z.to_nat (NumFaces m)) 0 tris bounds)
    as [[tris1 bounds1]|f'] eqn:Ef; cbn [bind].
  - apply IH.
  - intros [= <-]. eapply face_loop_fault; eauto.
Qed.

Lemma num_faces_nonneg (scene : Scene T) : 0 <= num_faces scene.
Proof.
  induction scene as [|prim rest IH]; cbn [num_faces]; [lia |].
  destruct (mesh prim); lia.
Qed.

(** The loop of Build_ over a range that goes beyond [bounds_] reads out
    of range. *)
Lemma union_loop_beyond (bounds : list (Bound T)) (n : nat) :
  forall (i : Z) (acc : Bound T),
    0 <= i -> (Z.to_nat i <= length bounds < Z.to_nat i + n)%nat ->
    union_loop bounds n i acc = Fault UndefinedBehaviour.
Proof.
  induction n as [|n IH]; intros i acc Hi Hlen; [lia |].
  cbn [union_loop]. unfold read.
  destruct (Z.ltb_spec i 0); [lia |].
  destruct (nth_error bounds (Z.to_nat i)) as [b|] eqn:E; cbn [bind];
    [| reflexivity].
  assert (Z.to_nat i < length bounds)%nat by (apply nth_error_Some; congruence).
  apply IH; lia.
Qed.

(** X9: Build never reorders: the triangles it appends are one per face of the
    scene, in the order of the primitives and, inside a mesh, of the
    faces; primitives without mesh contribute none. This holds of every
    run of Build that returns, on a new accelerator or not. *)
Theorem Build_appends_faces_in_scene_order
        (scene : Scene T) (self a : Accel_BVH T TriData) (flag : bool) :
  Build Load scene self = Ok (flag, a) ->
  map tri_id (triangles_ a) = map tri_id (triangles_ self) ++ face_ids scene 0.
Proof.
  unfold Build, CreateTriaccels.
  destruct (prim_loop Load scene 0 (triangles_ self) [])
    as [[tris bounds]|f] eqn:Ec; cbn [bind]; [| discriminate].
  destruct (BuildBVH bounds tris) as [nodes|f]; cbn [bind]; [| discriminate].
  intros [= _ <-]. cbn [triangles_].
  eapply prim_loop_ids; eauto.
Qed.

(** X10: Build on an accelerator that already holds triangles never returns:
    "Create triaccels" appends to [triangles_] but fills [bounds_] from
    empty, so the root's loop over all of [triangles_] reads [bounds_] out
    of range (if a read of the scene has not gone out of range before). *)
Theorem Build_on_used_accelerator_is_undefined
        (scene : Scene T) (self : Accel_BVH T TriData) :
  triangles_ self <> [] ->
  Z.of_nat (length (triangles_ self)) + num_faces scene <= INT_MAX ->
  Build Load scene self = Fault UndefinedBehaviour.
Proof.
  intros Hused Hsize. unfold Build, CreateTriaccels.
  destruct (prim_loop Load scene 0 (triangles_ self) [])
    as [[tris bounds]|f] eqn:Ec; cbn [bind].
  - apply prim_loop_length in Ec as [Ht Hb]. simpl length in Hb.
    pose proof (num_faces_nonneg scene).
    assert (0 < length (triangles_ self))%nat
      by (destruct (triangles_ self); [contradiction | simpl; lia]).
    unfold BuildBVH. rewrite to_int_small by lia.
    unfold Build_fuel. cbn [Build_ length app].
    change (to_int (Z.of_nat 0)) with 0.
    cbn [read Z.ltb Z.compare Z.to_nat nth_error bind bound BVHNode_new].
    rewrite union_loop_beyond; [reflexivity | lia | lia].
  - f_equal. eapply prim_loop_fault; eauto.
Qed.

End BuildOrder.

(* ===================================================================== *)
(** * The shape, the boxes and the queries on the stack of twelve triangles *)

Local Abbreviation stack_accel := (Samples.built Samples.scene_stack).

(** On the stack of twelve triangles: three nodes, the root at 0 with the
    children 1 and 2. *)
Lemma Build_children_follow_parent_witness :
  (exists root, at_ (nodes_ stack_accel) 0 = Ok root)
  /\ forall idx n,
       at_ (nodes_ stack_accel) idx = Ok n -> isleaf n = false ->
       internal_child1 n = idx + 1
       /\ idx + 1 < internal_child2 n < Z.of_nat (length (nodes_ stack_accel)).
Proof.
  apply (Build_children_follow_parent ExactGeometry.Load Samples.scene_stack
           (a := stack_accel)).
  - vm_compute. reflexivity.
  - vm_compute. discriminate.
Defined.

(** On the stack of twelve triangles: the leaves hold [0, 6) and [6, 12). *)
Lemma Build_leaves_partition_triangles_witness :
  consecutive 0 (Z.of_nat (length (triangles_ stack_accel)))
              (leaf_ranges (nodes_ stack_accel))
  /\ forall j,
       0 <= j < Z.of_nat (length (triangles_ stack_accel)) ->
       exists k r,
         nth_error (leaf_ranges (nodes_ stack_accel)) k = Some r
         /\ fst r <= j < snd r
         /\ forall k' r',
              nth_error (leaf_ranges (nodes_ stack_accel)) k' = Some r' ->
              fst r' <= j < snd r' -> k' = k.
Proof.
  apply (Build_leaves_partition_triangles ExactGeometry.Load Samples.scene_stack
           (a := stack_accel)).
  - vm_compute. reflexivity.
  - vm_compute. discriminate.
Defined.

(** On the stack of twelve triangles: node 1 is a leaf of six triangles. *)
Lemma Build_leaf_sizes_witness :
  exists n,
    at_ (nodes_ stack_accel) 1 = Ok n
    /\ 0 <= leaf_begin n /\ leaf_begin n <= leaf_end n
    /\ leaf_end n <= Z.of_nat (length (triangles_ stack_accel))
    /\ leaf_end n - leaf_begin n < LeafNumNodes
    /\ (5 <= Z.of_nat (length (triangles_ stack_accel)) ->
        5 <= leaf_end n - leaf_begin n).
Proof.
  eexists. split; [vm_compute; reflexivity |].
  apply (Build_leaf_sizes ExactGeometry.Load Samples.scene_stack
           (a := stack_accel)) with (idx := 1).
  - vm_compute. reflexivity.
  - vm_compute. discriminate.
  - vm_compute. reflexivity.
  - reflexivity.
Defined.

(** On the stack of twelve triangles: three nodes, two leaves. *)
Lemma Build_node_count_witness :
  (length (nodes_ stack_accel) + 1
   = 2 * length (leaf_ranges (nodes_ stack_accel)))%nat
  /\ Z.of_nat (length (nodes_ stack_accel))
     <= Z.max 1 (Z.of_nat (length (triangles_ stack_accel)) - 4).
Proof.
  apply (Build_node_count ExactGeometry.Load Samples.scene_stack
           (a := stack_accel)).
  - vm_compute. reflexivity.
  - vm_compute. discriminate.
Defined.

(** On the stack of twelve triangles, a recursion depth of two is enough. *)
Lemma Intersect_depth_logarithmic_witness :
  Intersect_ ExactGeometry.TriIntersect ExactGeometry.BoundIntersect stack_accel
             Samples.ray_up (Fin 0) 2 0 (mkLocals PosInfty None None)
  = Intersect_ ExactGeometry.TriIntersect ExactGeometry.BoundIntersect stack_accel
               Samples.ray_up (Fin 0) (S (length (nodes_ stack_accel))) 0
               (mkLocals PosInfty None None).
Proof.
  apply (Intersect_depth_logarithmic ExactGeometry.Load
           ExactGeometry.TriIntersect ExactGeometry.BoundIntersect
           Samples.scene_stack (a := stack_accel)).
  - vm_compute. reflexivity.
  - vm_compute. discriminate.
  - lia.
  - vm_compute. discriminate.
Defined.

(** On the stack of twelve triangles, Intersect returns for the ray from
    (1, 1, 0) along +z. *)
Lemma Intersect_after_Build_returns_witness :
  exists r,
    Intersect ExactGeometry.TriIntersect ExactGeometry.BoundIntersect
              stack_accel Samples.scene_stack Samples.ray_up (Fin 0) PosInfty
    = Ok r.
Proof.
  apply (Intersect_after_Build_returns ExactGeometry.Load
           ExactGeometry.TriIntersect ExactGeometry.BoundIntersect
           Samples.scene_stack (a := stack_accel)).
  - vm_compute. reflexivity.
  - vm_compute. discriminate.
Defined.

(** On the stack of twelve triangles: the boxes of the three nodes. *)
Lemma Build_node_boxes_from_default_witness :
  exists bounds,
    CreateTriaccels ExactGeometry.Load Samples.scene_stack []
    = Ok (triangles_ stack_accel, bounds)
    /\ (forall idx n,
          at_ (nodes_ stack_accel) idx = Ok n -> isleaf n = true ->
          bound n = range_bound (node_stray idx) bounds (leaf_begin n) (leaf_end n))
    /\ (forall idx n,
          at_ (nodes_ stack_accel) idx = Ok n -> isleaf n = false ->
          exists begin end_,
            0 <= begin <= end_
            /\ bound n = range_bound (node_stray idx) bounds begin end_)
    /\ (exists root,
          at_ (nodes_ stack_accel) 0 = Ok root
          /\ bound root
             = fold_left Math.Union bounds (Bound_default (node_stray 0))).
Proof.
  apply (@Build_node_boxes_from_default ExtZ Arith_ExtZ Ordered_ExtZ
           Indeterminate_ExtZ ExactGeometry.TriData ExactGeometry.Load
           Samples.scene_stack stack_accel).
  - vm_compute. reflexivity.
  - vm_compute. discriminate.
Defined.

(** The ray from (9, 9, 0) along +z, which passes beside the stack. *)
Definition ray_beside : Ray ExtZ :=
  mkRay (Vec3 (Fin 9) (Fin 9) (Fin 0)) (Vec3 (Fin 0) (Fin 0) (Fin 1)).

(** On the stack of twelve triangles and the ray beside it. *)
Lemma Intersect_misses_iff_no_triangle_hit_witness :
  Intersect ExactGeometry.TriIntersect ExactGeometry.BoundIntersect
            stack_accel Samples.scene_stack ray_beside (Fin 0) PosInfty
  = Ok None
  <-> (forall j tri,
         read (triangles_ stack_accel) j = Ok tri ->
         ExactGeometry.TriIntersect (tridata tri) ray_beside (Fin 0) PosInfty = None).
Proof.
  apply (@Intersect_misses_iff_no_triangle_hit
           ExtZ Arith_ExtZ Ordered_ExtZ Indeterminate_ExtZ
           (fun _ => True) (fun _ => True)
           (@OrderOn_all ExtZ _ _ _) (@Absorbs_ok ExtZ _ _ _ (@OrderOn_all ExtZ _ _ _))
           ExactGeometry.TriData
           ExactGeometry.Load ExactGeometry.TriIntersect ExactGeometry.BoundIntersect
           (fun _ _ _ _ _ _ _ _ => I)
           ExactGeometry.Tri_window ExactGeometry.Tri_widen ExactGeometry.Tri_narrow
           (fun k => @ExactGeometry.Bound_conservative (bound_stray k))
           Samples.scene_stack stack_accel ray_beside (Fin 0) PosInfty).
  - apply nodes_ok_all.
  - apply bounds_ok_all.
  - exact I.
  - vm_compute. reflexivity.
  - vm_compute. discriminate.
Defined.

(** On the stack of twelve triangles: faces 0 to 11 of primitive 1. *)
Lemma Build_appends_faces_in_scene_order_witness :
  map (@tri_id ExactGeometry.TriData) (triangles_ stack_accel)
  = map (@tri_id ExactGeometry.TriData)
        (triangles_ (@Accel_new ExtZ ExactGeometry.TriData))
    ++ face_ids Samples.scene_stack 0.
Proof.
  apply (Build_appends_faces_in_scene_order ExactGeometry.Load
           Samples.scene_stack Accel_new (a := stack_accel) (flag := true)).
  vm_compute. reflexivity.
Defined.

(** Build of the scene of one triangle on the accelerator already built
    from it. *)
Lemma Build_on_used_accelerator_is_undefined_witness :
  Build ExactGeometry.Load Samples.scene_one (Samples.built Samples.scene_one)
  = Fault UndefinedBehaviour.
Proof.
  apply (Build_on_used_accelerator_is_undefined ExactGeometry.Load
           Samples.scene_one (Samples.built Samples.scene_one)).
  - vm_compute. discriminate.
  - vm_compute. discriminate.
Defined.

(* ===================================================================== *)
(** * math.h: matrix products and the transforms *)

(** Exactness of the arithmetic of [T]: the laws of a commutative
    semiring, which hold of integers and rationals and fail of rounded
    floating point. *)
Class ExactRing (T : Type) `{Arith T} : Prop := {
  ring_add_0_l   : forall a : T, fadd zero a = a;
  ring_add_comm  : forall a b : T, fadd a b = fadd b a;
  ring_add_assoc : forall a b c : T, fadd a (fadd b c) = fadd (fadd a b) c;
  ring_mul_1_l   : forall a : T, fmul one a = a;
  ring_mul_0_l   : forall a : T, fmul zero a = zero;
  ring_mul_comm  : forall a b : T, fmul a b = fmul b a;
  ring_mul_assoc : forall a b c : T, fmul a (fmul b c) = fmul (fmul a b) c;
  ring_distr_l   : forall a b c : T, fmul (fadd a b) c = fadd (fmul a c) (fmul b c)
}.
Arguments ExactRing T {_}.

#[export] Instance ExactRing_Z : ExactRing Z := {|
  ring_add_0_l   := Z.add_0_l;
  ring_add_comm  := Z.add_comm;
  ring_add_assoc := Z.add_assoc;
  ring_mul_1_l   := Z.mul_1_l;
  ring_mul_0_l   := Z.mul_0_l;
  ring_mul_comm  := Z.mul_comm;
  ring_mul_assoc := Z.mul_assoc;
  ring_distr_l   := Z.mul_add_distr_r
|}.

(** [TMat3<float, SIMD::SSE>] and [TMat3<double, SIMD::AVX>]: the three
    columns are four-lane vectors. *)
Record TMat3_SIMD (T : Type) : Type :=
  Mat3_SIMD { s0 : TVec3_SIMD T; s1 : TVec3_SIMD T; s2 : TVec3_SIMD T }.

Section MatrixProducts.
Context {T : Type} `{Arith T}.

(** [operator*(v, s)] on [TVec4]: [result[i] = v[i] * s]. *)
Definition vec4_scale (v : TVec4 T) (s : T) : TVec4 T :=
  Vec4 (fmul (x4 v) s) (fmul (y4 v) s) (fmul (z4 v) s) (fmul (w4 v) s).

(** [operator[](int i)] of [TMat4]: column [i]. *)
Definition mat4_col (m : TMat4 T) (i : Z) : TVec4 T :=
  if i =? 0 then m0 m else if i =? 1 then m1 m else if i =? 2 then m2 m else m3 m.

(** [operator*(const TMat4&, const TMat4&)]:
    [TMat4(m1 * m2[0], m1 * m2[1], m1 * m2[2], m1 * m2[3])], with the
    generic product of a matrix and a vector, and with the SSE/AVX one. *)
Definition mat4_mul (a b : TMat4 T) : TMat4 T :=
  Mat4 (mat4_mul_vec a (mat4_col b 0)) (mat4_mul_vec a (mat4_col b 1))
       (mat4_mul_vec a (mat4_col b 2)) (mat4_mul_vec a (mat4_col b 3)).

Definition mat4_mul_SIMD (a b : TMat4 T) : TMat4 T :=
  Mat4 (mat4_mul_vec_SIMD a (mat4_col b 0)) (mat4_mul_vec_SIMD a (mat4_col b 1))
       (mat4_mul_vec_SIMD a (mat4_col b 2)) (mat4_mul_vec_SIMD a (mat4_col b 3)).

(** Lane [k] of a register, [k] in 0..3. *)
Definition lane (a : SIMDT T) (k : Z) : T :=
  if k =? 0 then e0 a else if k =? 1 then e1 a else if k =? 2 then e2 a else e3 a.

(** [_MM_SHUFFLE(z, y, x, w)] = [(z << 6) | (y << 4) | (x << 2) | w]. *)
Definition MM_SHUFFLE (fp3 fp2 fp1 fp0 : Z) : Z :=
  Z.lor (Z.lor (Z.lor (Z.shiftl fp3 6) (Z.shiftl fp2 4)) (Z.shiftl fp1 2)) fp0.

(** [_mm_shuffle_ps(a, b, imm8)]: the two low lanes from [a], the two high
    lanes from [b], each selected by two bits of [imm8]. *)
Definition mm_shuffle (a b : SIMDT T) (imm8 : Z) : SIMDT T :=
  Lanes (lane a (Z.land imm8 3))
        (lane a (Z.land (Z.shiftr imm8 2) 3))
        (lane b (Z.land (Z.shiftr imm8 4) 3))
        (lane b (Z.land (Z.shiftr imm8 6) 3)).

(** [_mm256_broadcast_sd(&(v.x) + k)]: lane [k] of [v] in all four lanes. *)
Definition mm256_broadcast_sd (v : SIMDT T) (k : Z) : SIMDT T :=
  mm_set1 (lane v k).

(** [operator*(const TMat3<float, SIMD::SSE>&, const TVec3<float, SIMD::SSE>&)]. *)
Definition mat3_mul_vec_SSE (m : TMat3_SIMD T) (v : TVec3_SIMD T) : TVec3_SIMD T :=
  Vec3_SIMD
    (mm_add
       (mm_add
          (mm_mul (v3_ (s0 m)) (mm_shuffle (v3_ v) (v3_ v) (MM_SHUFFLE 0 0 0 0)))
          (mm_mul (v3_ (s1 m)) (mm_shuffle (v3_ v) (v3_ v) (MM_SHUFFLE 1 1 1 1))))
       (mm_mul (v3_ (s2 m)) (mm_shuffle (v3_ v) (v3_ v) (MM_SHUFFLE 2 2 2 2)))).

(** [operator*(const TMat3<double, SIMD::AVX>&, const TVec3<double, SIMD::AVX>&)]. *)
Definition mat3_mul_vec_AVX (m : TMat3_SIMD T) (v : TVec3_SIMD T) : TVec3_SIMD T :=
  Vec3_SIMD
    (mm_add
       (mm_add
          (mm_mul (v3_ (s0 m)) (mm256_broadcast_sd (v3_ v) 0))
          (mm_mul (v3_ (s1 m)) (mm256_broadcast_sd (v3_ v) 1)))
       (mm_mul (v3_ (s2 m)) (mm256_broadcast_sd (v3_ v) 2))).

(** The per-component reading of a SIMD matrix. *)
Definition scalar_mat3 (m : TMat3_SIMD T) : TMat3 T :=
  Mat3 (scalar3 (s0 m)) (scalar3 (s1 m)) (scalar3 (s2 m)).

(** [Math::Translate(m, v)]:
    [r(m); r[3] = m[0] * v.x + m[1] * v.y + m[2] * v.z + m[3]]. *)
Definition Translate (m : TMat4 T) (v : TVec3 T) : TMat4 T :=
  Mat4 (m0 m) (m1 m) (m2 m)
       (vec4_add
          (vec4_add (vec4_add (vec4_scale (mat4_col m 0) (x v))
                              (vec4_scale (mat4_col m 1) (y v)))
                    (vec4_scale (mat4_col m 2) (z v)))
          (mat4_col m 3)).

(** [Math::Translate(v)] = [Translate(TMat4::Identity(), v)]. *)
Definition Translate_v (v : TVec3 T) : TMat4 T := Translate TMat4.Identity v.

(** [Math::Scale(m, v)] = [TMat4(m[0] * v[0], m[1] * v[1], m[2] * v[2], m[3])]. *)
Definition Scale (m : TMat4 T) (v : TVec3 T) : TMat4 T :=
  Mat4 (vec4_scale (mat4_col m 0) (vec3_at v 0))
       (vec4_scale (mat4_col m 1) (vec3_at v 1))
       (vec4_scale (mat4_col m 2) (vec3_at v 2))
       (mat4_col m 3).

(** [Math::Scale(v)] = [Scale(TMat4::Identity(), v)]. *)
Definition Scale_v (v : TVec3 T) : TMat4 T := Scale TMat4.Identity v.

(** X12: the SSE and the AVX product of a 3x3 matrix and a 3-vector compute, on
    x, y and z, what the generic product computes, in the same order of
    operations: whatever the arithmetic of [T], so in binary32 and binary64
    too, the choice between them is not observable. *)
Theorem Mat3_SIMD_product_is_scalar_product (m : TMat3_SIMD T) (v : TVec3_SIMD T) :
  scalar3 (mat3_mul_vec_SSE m v) = mat3_mul_vec (scalar_mat3 m) (scalar3 v)
  /\ scalar3 (mat3_mul_vec_AVX m v) = mat3_mul_vec (scalar_mat3 m) (scalar3 v).
Proof.
  destruct m as [[[a0 a1 a2 a3]] [[b0 b1 b2 b3]] [[c0' c1' c2' c3']]].
  destruct v as [[v0 v1 v2 v3]].
  split; reflexivity.
Qed.

(** X13: the SSE/AVX product of a 4x4 matrix and a 4-vector adds the four
    products of a row as [(a + b) + (c + d)], the generic product as
    [((a + b) + c) + d]: they agree when the addition of [T] is exact, and
    so do the two products of matrices built on them. *)
Theorem Mat4_SIMD_product_agrees_when_exact :
  ExactAdd T ->
  (forall (m : TMat4 T) (v : TVec4 T), mat4_mul_vec_SIMD m v = mat4_mul_vec m v)
  /\ (forall a b : TMat4 T, mat4_mul_SIMD a b = mat4_mul a b).
Proof.
  intros Hexact.
  assert (Hv : forall (m : TMat4 T) (v : TVec4 T),
             mat4_mul_vec_SIMD m v = mat4_mul_vec m v).
  { intros [[a0 a1 a2 a3] [b0 b1 b2 b3] [c0' c1' c2' c3'] [d0 d1 d2 d3]] [vx vy vz vw].
    cbv [mat4_mul_vec_SIMD mat4_mul_vec scalar4 v4_ mm_add mm_mul lanewise
         simd4 mm_set mm_set1 e0 e1 e2 e3 x4 y4 z4 w4 m0 m1 m2 m3].
    f_equal; symmetry; apply fadd_assoc. }
  split; [exact Hv |].
  intros a b. unfold mat4_mul_SIMD, mat4_mul. now rewrite !Hv.
Qed.

End MatrixProducts.

(** The witness: the integers are exact. *)
Lemma Mat4_SIMD_product_agrees_when_exact_witness :
  (forall (m : TMat4 Z) (v : TVec4 Z), mat4_mul_vec_SIMD m v = mat4_mul_vec m v)
  /\ (forall a b : TMat4 Z, mat4_mul_SIMD a b = mat4_mul a b).
Proof.
  apply (@Mat4_SIMD_product_agrees_when_exact Z Arith_Z). exact ExactAdd_Z.
Defined.

(** In binary32 the two products of a matrix and a vector do differ: on
    the matrix of columns (2^24, ..), (0, ..), (1, ..), (-2^24, ..) and the
    vector (1, 1, 1, 1) the generic product has x = 0, the SSE one x = 1. *)
Example Mat4_SIMD_product_differs_in_binary32 :
  let f := float_of_Z in
  let col a := Vec4 (f a) (f 0) (f 0) (f 0) in
  let m := Mat4 (col 16777216) (col 0) (col 1) (col (-16777216)) in
  let v := Vec4 (f 1) (f 1) (f 1) (f 1) in
  x4 (mat4_mul_vec (T := float) m v) = f 0
  /\ x4 (mat4_mul_vec_SIMD (T := float) m v) = f 1.
Proof. cbv zeta. split; vm_compute; reflexivity. Qed.

Section Transforms.
Context {T : Type} `{ExactRing T}.

Lemma T_semi_ring : semi_ring_theory (zero : T) one fadd fmul eq.
Proof.
  constructor.
  - apply ring_add_0_l.
  - apply ring_add_comm.
  - apply ring_add_assoc.
  - apply ring_mul_1_l.
  - apply ring_mul_0_l.
  - apply ring_mul_comm.
  - apply ring_mul_assoc.
  - apply ring_distr_l.
Qed.

Add Ring T_ring : T_semi_ring.

Ltac components :=
  repeat match goal with
         | m : TMat4 _ |- _ => destruct m as [[? ? ? ?] [? ? ? ?] [? ? ? ?] [? ? ? ?]]
         | v : TVec4 _ |- _ => destruct v as [? ? ? ?]
         | v : TVec3 _ |- _ => destruct v as [? ? ?]
         end.

Ltac by_ring :=
  components;
  cbv [mat4_mul_vec_SIMD mat4_mul_vec mat4_mul mat4_mul_SIMD mat4_col vec3_at
       scalar4 v4_ mm_add mm_mul lanewise simd4 mm_set mm_set1 e0 e1 e2 e3
       x4 y4 z4 w4 m0 m1 m2 m3 x y z Z.eqb Pos.eqb
       TMat4.Identity Translate Translate_v Scale Scale_v
       vec4_add vec4_map2 vec4_scale vec3_add vec3_mul vec3_map2];
  repeat match goal with
         | |- Mat4 _ _ _ _ = Mat4 _ _ _ _ => f_equal
         | |- Vec4 _ _ _ _ = Vec4 _ _ _ _ => f_equal
         | |- Vec3 _ _ _ = Vec3 _ _ _ => f_equal
         end;
  ring.

(** X14: with exact arithmetic [TMat4::Identity()] is the identity of the
    products: of a matrix and a vector, generic and SSE/AVX, and of two
    matrices, on either side. *)
Theorem TMat4_Identity_is_identity :
  (forall v : TVec4 T, mat4_mul_vec TMat4.Identity v = v)
  /\ (forall v : TVec4 T, mat4_mul_vec_SIMD TMat4.Identity v = v)
  /\ (forall m : TMat4 T, mat4_mul TMat4.Identity m = m)
  /\ (forall m : TMat4 T, mat4_mul m TMat4.Identity = m).
Proof.
  repeat split; intros; by_ring.
Qed.

(** X15: with exact arithmetic the product of two matrices is their
    composition, and it is associative. *)
Theorem mat4_mul_is_composition :
  (forall (a b : TMat4 T) (v : TVec4 T),
      mat4_mul_vec (mat4_mul a b) v = mat4_mul_vec a (mat4_mul_vec b v))
  /\ (forall a b c : TMat4 T,
        mat4_mul (mat4_mul a b) c = mat4_mul a (mat4_mul b c)).
Proof.
  split; intros; by_ring.
Qed.

(** X17: with exact arithmetic: [Translate(m, v)] is [m] times the translation
    [Translate(v)]; [Translate(v)] maps (x, y, z, w) to
    (x + v.x w, y + v.y w, z + v.z w, w), so it moves a point (w = 1) by [v]
    and leaves a direction (w = 0) as it is; and translating by [u] and
    then by [v] is translating by [u + v]. *)
Theorem Translate_translates :
  (forall (m : TMat4 T) (v : TVec3 T), Translate m v = mat4_mul m (Translate_v v))
  /\ (forall (v : TVec3 T) (p : TVec4 T),
        mat4_mul_vec (Translate_v v) p
        = Vec4 (fadd (x4 p) (fmul (x v) (w4 p)))
               (fadd (y4 p) (fmul (y v) (w4 p)))
               (fadd (z4 p) (fmul (z v) (w4 p)))
               (w4 p))
  /\ (forall (v p : TVec3 T),
        mat4_mul_vec (Translate_v v) (Vec4 (x p) (y p) (z p) one)
        = Vec4 (x (vec3_add p v)) (y (vec3_add p v)) (z (vec3_add p v)) one)
  /\ (forall (v d : TVec3 T),
        mat4_mul_vec (Translate_v v) (Vec4 (x d) (y d) (z d) zero)
        = Vec4 (x d) (y d) (z d) zero)
  /\ (forall u v : TVec3 T,
        Translate (Translate_v u) v = Translate_v (vec3_add u v)).
Proof.
  repeat split; intros; by_ring.
Qed.

(** X18: with exact arithmetic: [Scale(m, v)] is [m] times the scaling
    [Scale(v)]; [Scale(v)] maps (x, y, z, w) to (v.x x, v.y y, v.z z, w);
    and scaling by [u] and then by [v] is scaling by the componentwise
    product. *)
Theorem Scale_scales :
  (forall (m : TMat4 T) (v : TVec3 T), Scale m v = mat4_mul m (Scale_v v))
  /\ (forall (v : TVec3 T) (p : TVec4 T),
        mat4_mul_vec (Scale_v v) p
        = Vec4 (fmul (x v) (x4 p)) (fmul (y v) (y4 p)) (fmul (z v) (z4 p)) (w4 p))
  /\ (forall u v : TVec3 T,
        Scale (Scale_v u) v = Scale_v (vec3_mul u v)).
Proof.
  repeat split; intros; by_ring.
Qed.

(** X16: with exact arithmetic the product of two 3x3 matrices is their
    composition, and it is associative. *)
Theorem mat3_mul_is_composition :
  (forall (a b : TMat3 T) (v : TVec3 T),
      mat3_mul_vec (mat3_mul a b) v = mat3_mul_vec a (mat3_mul_vec b v))
  /\ (forall a b c : TMat3 T,
        mat3_mul (mat3_mul a b) c = mat3_mul a (mat3_mul b c)).
Proof.
  split; intros;
    repeat match goal with
           | m : TMat3 _ |- _ => destruct m as [[? ? ?] [? ? ?] [? ? ?]]
           | v : TVec3 _ |- _ => destruct v as [? ? ?]
           end;
    cbv [mat3_mul mat3_mul_vec mat3_col vec3_at c0 c1 c2 x y z Z.eqb Pos.eqb];
    repeat match goal with
           | |- Mat3 _ _ _ = Mat3 _ _ _ => f_equal
           | |- Vec3 _ _ _ = Vec3 _ _ _ => f_equal
           end;
    ring.
Qed.

End Transforms.

(** The witnesses: the integers are an exact ring. *)
Lemma TMat4_Identity_is_identity_witness :
  (forall v : TVec4 Z, mat4_mul_vec TMat4.Identity v = v)
  /\ (forall v : TVec4 Z, mat4_mul_vec_SIMD TMat4.Identity v = v)
  /\ (forall m : TMat4 Z, mat4_mul TMat4.Identity m = m)
  /\ (forall m : TMat4 Z, mat4_mul m TMat4.Identity = m).
Proof.
  apply (@TMat4_Identity_is_identity Z Arith_Z). exact ExactRing_Z.
Defined.

Lemma mat4_mul_is_composition_witness :
  (forall (a b : TMat4 Z) (v : TVec4 Z),
      mat4_mul_vec (mat4_mul a b) v = mat4_mul_vec a (mat4_mul_vec b v))
  /\ (forall a b c : TMat4 Z,
        mat4_mul (mat4_mul a b) c = mat4_mul a (mat4_mul b c)).
Proof.
  apply (@mat4_mul_is_composition Z Arith_Z). exact ExactRing_Z.
Defined.

Lemma mat3_mul_is_composition_witness :
  (forall (a b : TMat3 Z) (v : TVec3 Z),
      mat3_mul_vec (mat3_mul a b) v = mat3_mul_vec a (mat3_mul_vec b v))
  /\ (forall a b c : TMat3 Z,
        mat3_mul (mat3_mul a b) c = mat3_mul a (mat3_mul b c)).
Proof.
  apply (@mat3_mul_is_composition Z Arith_Z). exact ExactRing_Z.
Defined.

(** Translating the point (1, 2, 3) by (10, 20, 30) gives (11, 22, 33). *)
Lemma Translate_translates_witness :
  mat4_mul_vec (Translate_v (Vec3 10 20 30)) (Vec4 1 2 3 1) = Vec4 11 22 33 1.
Proof.
  destruct (@Translate_translates Z Arith_Z ExactRing_Z) as (_ & _ & Hpoint & _).
  exact (Hpoint (Vec3 10 20 30) (Vec3 1 2 3)).
Defined.

(** Scaling (1, 2, 3, 1) by (10, 20, 30) gives (10, 40, 90, 1). *)
Lemma Scale_scales_witness :
  mat4_mul_vec (Scale_v (Vec3 10 20 30)) (Vec4 1 2 3 1) = Vec4 10 40 90 1.
Proof.
  destruct (@Scale_scales Z Arith_Z ExactRing_Z) as (_ & Hmap & _).
  exact (Hmap (Vec3 10 20 30) (Vec4 1 2 3 1)).
Defined.

(* ===================================================================== *)
(** * logger.cpp: the indentation of the log *)

From Stdlib Require String Ascii.

Module Logger.

(** The members [int Indentation = 0; std::string IndentationString;]. *)
Record state : Type := mkLogger {
  Indentation       : Z;
  IndentationString : String.string
}.

(** The members of a new logger. *)
Definition initial : state := mkLogger 0 String.EmptyString.

(** [std::string(n, c)]. *)
Fixpoint fill (n : nat) (c : Ascii.ascii) : String.string :=
  match n with
  | O => String.EmptyString
  | S n' => String.String c (fill n' c)
  end.

(** The characters ['.'] and [' ']. *)
Definition dot : Ascii.ascii := Ascii.ascii_of_nat 46.
Definition space : Ascii.ascii := Ascii.ascii_of_nat 32.

(** The handler that [UpdateIndentation(push)] posts to the io thread:
    [Indentation += push ? 1 : -1;
     if (Indentation > 0) IndentationString = std::string(4 * Indentation, '.') + " ";
     else { Indentation = 0; IndentationString = ""; }]
    on [int]s, whose overflow is undefined; the allocation of the string
    is taken to succeed. *)
Definition UpdateIndentation (push : bool) (st : state) : result state :=
  ind <- int_val (Indentation st + (if push then 1 else -1)) ;;
  if 0 <? ind then
    n <- int_val (4 * ind) ;;
    Ok (mkLogger ind
          (String.append (fill (Z.to_nat n) dot)
                         (String.String space String.EmptyString)))
  else Ok (mkLogger 0 String.EmptyString).

(** The handlers run one at a time on the io thread: a run of them. *)
Fixpoint run (ops : list bool) (st : state) : result state :=
  match ops with
  | [] => Ok st
  | push :: rest => st' <- UpdateIndentation push st ;; run rest st'
  end.

(** The nesting depth after [ops] from depth [l]: a push enters a level, a
    pop leaves one if there is one. *)
Fixpoint depth_after (ops : list bool) (l : Z) : Z :=
  match ops with
  | [] => l
  | push :: rest => depth_after rest (if push then l + 1 else Z.max 0 (l - 1))
  end.

(** The prefix of a message at depth [l]: four dots per level and a space,
    nothing at depth 0. *)
Definition prefix_at (l : Z) : String.string :=
  if l =? 0 then String.EmptyString
  else String.append (fill (Z.to_nat (4 * l)) dot)
                     (String.String space String.EmptyString).

(** The number of pushes among [ops]. *)
Definition pushes (ops : list bool) : Z :=
  Z.of_nat (length (filter (fun push => push) ops)).

(** The deepest nesting for which [4 * Indentation] is an [int]. *)
Definition max_depth : Z := INT_MAX ÷ 4.

Definition wf (st : state) : Prop :=
  0 <= Indentation st /\ IndentationString st = prefix_at (Indentation st).

End Logger.

Section LoggerIndentation.
Import Logger.

Lemma fill_length (n : nat) (c : Ascii.ascii) : String.length (fill n c) = n.
Proof. induction n as [|n IH]; cbn; [reflexivity | now rewrite IH]. Qed.

Lemma append_length (s1 s2 : String.string) :
  String.length (String.append s1 s2)
  = (String.length s1 + String.length s2)%nat.
Proof. induction s1 as [|c s1 IH]; cbn; [reflexivity | now rewrite IH]. Qed.

Lemma run_app (ops1 ops2 : list bool) (st : state) :
  run (ops1 ++ ops2) st = (st' <- run ops1 st ;; run ops2 st').
Proof.
  revert st. induction ops1 as [|push ops1 IH]; intros st; cbn [app run].
  - reflexivity.
  - destruct (UpdateIndentation push st) as [st1|f]; cbn [bind]; [apply IH | reflexivity].
Qed.

Lemma int_val_Ok (n m : Z) :
  int_val n = Ok m -> m = n /\ INT_MIN <= n <= INT_MAX.
Proof.
  unfold int_val.
  destruct (Z.leb_spec INT_MIN n); cbn [andb]; [| discriminate].
  destruct (Z.leb_spec n INT_MAX); [| discriminate].
  intros [= <-]. lia.
Qed.

(** One handler, when it returns, on a state with a non-negative depth. *)
Lemma UpdateIndentation_Ok (push : bool) (st st' : state) :
  0 <= Indentation st ->
  UpdateIndentation push st = Ok st' ->
  Indentation st' = (if push then Indentation st + 1 else Z.max 0 (Indentation st - 1))
  /\ wf st'.
Proof.
  intros Hl. unfold UpdateIndentation, wf, prefix_at.
  destruct (int_val (Indentation st + (if push then 1 else -1))) as [ind|f] eqn:E1;
    cbn [bind]; [| discriminate].
  apply int_val_Ok in E1 as [-> _].
  destruct (Z.ltb_spec 0 (Indentation st + (if push then 1 else -1))) as [Hpos | Hle].
  - destruct (int_val (4 * (Indentation st + (if push then 1 else -1))))
      as [n|f] eqn:E2; cbn [bind]; [| discriminate].
    apply int_val_Ok in E2 as [-> _].
    intros [= <-]. cbn [Indentation IndentationString].
    destruct (Z.eqb_spec (Indentation st + (if push then 1 else -1)) 0); [lia |].
    destruct push; (split; [lia | split; [lia | reflexivity]]).
  - intros [= <-]. cbn [Indentation IndentationString].
    destruct push; (split; [lia | split; [lia | reflexivity]]).
Qed.

Lemma int_val_in_range (n : Z) : INT_MIN <= n <= INT_MAX -> int_val n = Ok n.
Proof.
  unfold int_val. intros Hn.
  destruct (Z.leb_spec INT_MIN n); [| lia].
  destruct (Z.leb_spec n INT_MAX); [reflexivity | lia].
Qed.

(** One handler returns below the deepest nesting. *)
Lemma UpdateIndentation_returns (push : bool) (st : state) :
  0 <= Indentation st ->
  Indentation st + (if push then 1 else 0) <= max_depth ->
  exists st', UpdateIndentation push st = Ok st'.
Proof.
  intros Hl Hmax. unfold UpdateIndentation.
  assert (Hm : max_depth = 536870911) by reflexivity.
  assert (HM : INT_MAX = 2147483647) by reflexivity.
  assert (Hmin : INT_MIN = -2147483648) by reflexivity.
  rewrite int_val_in_range by (destruct push; lia). cbn [bind].
  destruct (Z.ltb_spec 0 (Indentation st + (if push then 1 else -1))); [| eauto].
  rewrite int_val_in_range by (destruct push; lia). cbn [bind]. eauto.
Qed.

Lemma run_wf (ops : list bool) :
  forall st st',
    wf st -> run ops st = Ok st' ->
    Indentation st' = depth_after ops (Indentation st) /\ wf st'.
Proof.
  induction ops as [|push ops IH]; intros st st' Hwf Hrun; cbn [run depth_after] in *.
  - injection Hrun as <-. auto.
  - destruct (UpdateIndentation push st) as [st1|f] eqn:E; cbn [bind] in Hrun;
      [| discriminate].
    destruct (@UpdateIndentation_Ok push st st1 (proj1 Hwf) E) as [Hl Hwf1].
    destruct (IH st1 st' Hwf1 Hrun) as [Hl' Hwf']. rewrite Hl in Hl'. auto.
Qed.

Lemma run_returns (ops : list bool) :
  forall st,
    0 <= Indentation st -> Indentation st + pushes ops <= max_depth ->
    exists st', run ops st = Ok st'.
Proof.
  unfold pushes.
  induction ops as [|push ops IH]; intros st Hl Hmax; cbn [run]; [eauto |].
  assert (Hstep : Indentation st + (if push then 1 else 0) <= max_depth).
  { destruct push; cbn [filter] in Hmax; simpl length in Hmax; lia. }
  destruct (@UpdateIndentation_returns push st Hl Hstep) as [st1 E].
  rewrite E. cbn [bind].
  destruct (@UpdateIndentation_Ok push st st1 Hl E) as [Hl1 [Hpos _]].
  apply IH; [assumption |].
  destruct push; cbn [filter] in Hmax; simpl length in Hmax; lia.
Qed.

Lemma wf_eq (st st' : state) :
  wf st -> wf st' -> Indentation st = Indentation st' -> st = st'.
Proof.
  destruct st as [l s], st' as [l' s']. unfold wf. cbn.
  intros [_ ->] [_ ->] ->. reflexivity.
Qed.

Lemma depth_after_app (ops1 ops2 : list bool) (l : Z) :
  depth_after (ops1 ++ ops2) l = depth_after ops2 (depth_after ops1 l).
Proof.
  revert l. induction ops1 as [|push ops1 IH]; intros l; cbn [app depth_after];
    [reflexivity | apply IH].
Qed.

Lemma depth_after_pushes (n : nat) (l : Z) :
  depth_after (repeat true n) l = l + Z.of_nat n.
Proof.
  revert l. induction n as [|n IH]; intros l; cbn [repeat depth_after]; [lia |].
  rewrite IH. lia.
Qed.

Lemma depth_after_pops (n : nat) (l : Z) :
  0 <= l -> depth_after (repeat false n) l = Z.max 0 (l - Z.of_nat n).
Proof.
  revert l. induction n as [|n IH]; intros l Hl; cbn [repeat depth_after]; [lia |].
  rewrite IH by lia. lia.
Qed.

Lemma pushes_app (ops1 ops2 : list bool) :
  pushes (ops1 ++ ops2) = pushes ops1 + pushes ops2.
Proof. unfold pushes. rewrite filter_app, length_app. lia. Qed.

Lemma pushes_repeat (b : bool) (n : nat) :
  pushes (repeat b n) = if b then Z.of_nat n else 0.
Proof.
  unfold pushes. induction n as [|n IH]; cbn [repeat filter].
  - now destruct b.
  - destruct b; simpl length; lia.
Qed.

(** X19: whatever handlers have run on a new logger, when they have returned:
    the depth is that of the pushes and pops, a pop at depth 0 counting for
    nothing, so it is never negative; the prefix of the messages is four
    dots per level and a space, and empty at depth 0; its length is
    4 * depth + 1, or 0. *)
Theorem Logger_indentation_follows_depth (ops : list bool) (st : state) :
  run ops initial = Ok st ->
  Indentation st = depth_after ops 0
  /\ 0 <= Indentation st
  /\ IndentationString st = prefix_at (Indentation st)
  /\ Z.of_nat (String.length (IndentationString st))
     = (if Indentation st =? 0 then 0 else 4 * Indentation st + 1).
Proof.
  intros Hrun.
  assert (Hinit : wf initial) by (split; [cbn; lia | reflexivity]).
  destruct (@run_wf ops initial st Hinit Hrun) as [Hl [Hpos Hs]].
  split; [exact Hl |]. split; [exact Hpos |]. split; [exact Hs |].
  rewrite Hs. unfold prefix_at.
  destruct (Z.eqb_spec (Indentation st) 0); [reflexivity |].
  rewrite append_length, fill_length. cbn [String.length]. lia.
Qed.

(** X20: the handlers return as long as the nesting stays within
    [INT_MAX / 4] = 536870911 levels; one level deeper, the push is a signed
    overflow (of [4 * Indentation], or of [Indentation + 1]). *)
Theorem Logger_indentation_overflows_only_beyond_max_depth :
  (forall ops : list bool,
      pushes ops <= max_depth -> exists st, run ops initial = Ok st)
  /\ (forall st : state,
        max_depth <= Indentation st ->
        UpdateIndentation true st = Fault UndefinedBehaviour).
Proof.
  split.
  - intros ops Hp. apply run_returns; cbn [Indentation initial]; lia.
  - intros st Hl. unfold UpdateIndentation, int_val.
    assert (Hm : max_depth = 536870911) by reflexivity.
    assert (HM : INT_MAX = 2147483647) by reflexivity.
    assert (Hmin : INT_MIN = -2147483648) by reflexivity.
    destruct (Z.leb_spec INT_MIN (Indentation st + 1)); [| lia].
    destruct (Z.leb_spec (Indentation st + 1) INT_MAX); cbn [andb bind];
      [| reflexivity].
    destruct (Z.ltb_spec 0 (Indentation st + 1)); [| lia].
    destruct (Z.leb_spec INT_MIN (4 * (Indentation st + 1))); [| lia].
    destruct (Z.leb_spec (4 * (Indentation st + 1)) INT_MAX); [lia |].
    reflexivity.
Qed.

(** X21: entering [n] levels and leaving [n] levels brings the logger back to
    the state it had, depth and prefix; and pops alone leave a new logger
    as it is. *)
Theorem Logger_push_pop_round_trip (st : state) (n : nat) :
  wf st ->
  Indentation st + Z.of_nat n <= max_depth ->
  run (repeat true n ++ repeat false n) st = Ok st
  /\ run (repeat false n) initial = Ok initial.
Proof.
  intros Hwf Hmax.
  assert (Hinit : wf initial) by (split; [cbn; lia | reflexivity]).
  assert (Hm : 0 <= max_depth) by (vm_compute; discriminate).
  split.
  - destruct (@run_returns (repeat true n ++ repeat false n) st (proj1 Hwf))
      as [st' Hrun].
    { rewrite pushes_app, !pushes_repeat. lia. }
    rewrite Hrun. f_equal.
    destruct (@run_wf _ st st' Hwf Hrun) as [Hl Hwf'].
    apply wf_eq; [assumption | assumption |].
    rewrite Hl, depth_after_app, depth_after_pushes, depth_after_pops;
      destruct Hwf; lia.
  - destruct (@run_returns (repeat false n) initial) as [st' Hrun].
    { cbn. lia. }
    { rewrite pushes_repeat. cbn. lia. }
    rewrite Hrun. f_equal.
    destruct (@run_wf _ initial st' Hinit Hrun) as [Hl Hwf'].
    apply wf_eq; [assumption | assumption |].
    rewrite Hl, depth_after_pops; cbn; lia.
Qed.

End LoggerIndentation.

(** Two pushes and a pop on a new logger: depth 1, the prefix is four dots
    and a space. *)
Lemma Logger_indentation_follows_depth_witness :
  exists st,
    Logger.run [true; true; false] Logger.initial = Ok st
    /\ Logger.Indentation st = 1
    /\ Z.of_nat (String.length (Logger.IndentationString st)) = 5.
Proof.
  eexists. split; [vm_compute; reflexivity |].
  destruct (@Logger_indentation_follows_depth [true; true; false] _ eq_refl)
    as (Hl & _ & _ & Hlen).
  split; [exact Hl | exact Hlen].
Defined.

(** Three levels in and out from depth 1. *)
Lemma Logger_push_pop_round_trip_witness :
  let st := Logger.mkLogger 1 (Logger.prefix_at 1) in
  Logger.run (repeat true 3 ++ repeat false 3) st = Ok st.
Proof.
  intros st.
  apply (@Logger_push_pop_round_trip st 3).
  - split; [vm_compute; discriminate | reflexivity].
  - vm_compute. discriminate.
Defined.

(* ===================================================================== *)
(** * Intersect reports only what the triangle test has accepted *)

Section IntersectSound.
Context {T : Type} `{Arith T} `{Ordered T} `{Indeterminate T}.
Variable TriData : Type.
Variable TriIntersect : TriData -> Ray T -> T -> T -> option (T * T * T).
Variable BoundIntersect : Bound T -> Ray T -> T -> T -> bool.
Variable self : Accel_BVH T TriData.
Variable ray : Ray T.
Variable minT : T.

(** The locals record a triangle of [triangles_], with the barycentric
    coordinates and the parameter that the triangle test returned for it,
    for the window that ended at some [m]. *)
Definition tested (s : Locals T) : Prop :=
  exists i tri u v m,
    minIndex s = Some i /\ minB s = Some (Vec2 u v)
    /\ read (triangles_ self) i = Ok tri
    /\ TriIntersect (tridata tri) ray minT m = Some (u, v, maxT s).

Lemma leaf_loop_tested (n : nat) :
  forall (i : Z) (hit : bool) (s : Locals T) (hit' : bool) (s' : Locals T),
    (hit = true -> tested s) ->
    leaf_loop TriIntersect self ray minT n i hit s = Ok (hit', s') ->
    (hit' = true -> tested s') /\ (tested s -> tested s').
Proof.
  induction n as [|n IH]; intros i hit s hit' s' Hhit Hrun; cbn [leaf_loop] in Hrun.
  - injection Hrun as <- <-. auto.
  - destruct (read (triangles_ self) i) as [tri|f] eqn:Er; cbn [bind] in Hrun;
      [| discriminate].
    destruct (TriIntersect (tridata tri) ray minT (maxT s)) as [[[u v] t]|] eqn:Et.
    + assert (Hnew : tested (mkLocals t (Some i) (Some (Vec2 u v)))).
      { exists i, tri, u, v, (maxT s). cbn. auto. }
      destruct (IH _ _ _ _ _ (fun _ => Hnew) Hrun) as [H1' H2']. auto.
    + eapply IH; eauto.
Qed.

Lemma Intersect__tested (fuel : nat) :
  forall (idx : Z) (s : Locals T) (hit' : bool) (s' : Locals T),
    Intersect_ TriIntersect BoundIntersect self ray minT fuel idx s = Ok (hit', s') ->
    (hit' = true -> tested s') /\ (tested s -> tested s').
Proof.
  induction fuel as [|fuel IH]; intros idx s hit' s' Hrun; cbn [Intersect_] in Hrun;
    [discriminate |].
  destruct (at_ (nodes_ self) idx) as [node|f]; cbn [bind] in Hrun; [| discriminate].
  destruct (negb (BoundIntersect (bound node) ray minT (maxT s))).
  - injection Hrun as <- <-. split; [discriminate | auto].
  - destruct (isleaf node).
    + eapply leaf_loop_tested; [| exact Hrun]. discriminate.
    + destruct (Intersect_ TriIntersect BoundIntersect self ray minT fuel
                  (internal_child1 node) s) as [[h1 s1]|f] eqn:E1;
        cbn [bind] in Hrun; [| discriminate].
      destruct (Intersect_ TriIntersect BoundIntersect self ray minT fuel
                  (internal_child2 node) s1) as [[h2 s2]|f] eqn:E2;
        cbn [bind] in Hrun; [| discriminate].
      injection Hrun as <- <-.
      destruct (IH _ _ _ _ E1) as [Ha1 Hb1].
      destruct (IH _ _ _ _ E2) as [Ha2 Hb2].
      split; [| auto].
      intros Hh. apply orb_true_iff in Hh as [Hh | Hh]; auto.
Qed.

(** X11: Intersect makes up no hit, on any accelerator, built or not, and
    whatever the two tests answer: a reported intersection is that of a
    triangle of [triangles_] for which the triangle test has returned the
    reported barycentric coordinates and the parameter of the reported
    point, with the primitive and the face of that triangle. *)
Theorem Intersect_reports_only_tested_hits
        (scene : Scene T) (maxT_ : T) (isect : Intersection T) :
  Intersect TriIntersect BoundIntersect self scene ray minT maxT_ = Ok (Some isect) ->
  exists i tri prim u v t m,
    read (triangles_ self) i = Ok tri
    /\ read scene (primIndex tri) = Ok prim
    /\ TriIntersect (tridata tri) ray minT m = Some (u, v, t)
    /\ isect = mkIntersection prim (ray_at ray t) (Vec2 u v) (faceIndex tri).
Proof.
  unfold Intersect.
  destruct (Intersect_ TriIntersect BoundIntersect self ray minT
              (S (length (nodes_ self))) 0 (mkLocals maxT_ None None))
    as [[hit s]|f] eqn:Erun; cbn [bind]; [| discriminate].
  destruct hit; cbn [negb]; [| discriminate].
  destruct (Intersect__tested _ _ _ Erun) as [Hhit _].
  destruct (Hhit eq_refl) as (i & tri & u & v & m & Ei & Eb & Er & Et).
  rewrite Ei, Eb, Er. cbn [bind].
  destruct (read scene (primIndex tri)) as [prim|f] eqn:Ep; cbn [bind];
    [| discriminate].
  intros [= <-]. exists i, tri, prim, u, v, (maxT s), m. auto.
Qed.

End IntersectSound.

(** On the stack of twelve triangles and the ray from (1, 1, 0) along +z. *)
Lemma Intersect_reports_only_tested_hits_witness :
  exists isect,
    Intersect ExactGeometry.TriIntersect ExactGeometry.BoundIntersect
              stack_accel Samples.scene_stack Samples.ray_up (Fin 0) PosInfty
    = Ok (Some isect)
    /\ exists i tri prim u v t m,
         read (triangles_ stack_accel) i = Ok tri
         /\ read Samples.scene_stack (primIndex tri) = Ok prim
         /\ ExactGeometry.TriIntersect (tridata tri) Samples.ray_up (Fin 0) m
            = Some (u, v, t)
         /\ isect = mkIntersection prim (ray_at Samples.ray_up t) (Vec2 u v)
                                   (faceIndex tri).
Proof.
  eexists. split; [vm_compute; reflexivity |].
  eapply (@Intersect_reports_only_tested_hits
            ExtZ Arith_ExtZ ExactGeometry.TriData
            ExactGeometry.TriIntersect ExactGeometry.BoundIntersect
            stack_accel Samples.ray_up (Fin 0) Samples.scene_stack PosInfty).
  vm_compute. reflexivity.
Defined.
